(** * py_rrouge: the map generator, the entity hierarchy and the actions

    A shallow embedding of [src/game/gamemap/gamemap.py],
    [src/game/entity.py] and [src/game/action.py].

    Python integers are [Z].  Code that can raise runs in a small state and
    exception monad: an exception leaves the mutations done so far in
    place, which is what Python does. *)

From Stdlib Require Import ZArith Lia Bool String.
From stdpp Require Import base tactics option list.

Local Open Scope Z_scope.

(** ** Exceptions and the state/exception monad *)

Inductive Exn : Type :=
  | ValueError
  | IndexError
  | TypeError
  | NotImplementedError
  | MissingCapability
  | CycleRejected.

(** A computation over a mutable state [S]: it ends in a value or in a
    raised exception, and in both cases hands back the state it reached. *)
Definition Py (S A : Type) : Type := S -> (Exn + A) * S.

Definition ret {S A} (a : A) : Py S A := fun s => (inr a, s).
Definition raise {S A} (e : Exn) : Py S A := fun s => (inl e, s).
Definition bind {S A B} (m : Py S A) (k : A -> Py S B) : Py S B :=
  fun s => match m s with
           | (inr a, s') => k a s'
           | (inl e, s') => (inl e, s')
           end.
Definition get {S} : Py S S := fun s => (inr s, s).
Definition put {S} (s : S) : Py S unit := fun _ => (inr tt, s).

Declare Scope py_scope.
Delimit Scope py_scope with py.
Notation "'let*' x ':=' m 'in' k" := (bind m (fun x => k))
  (at level 10, x pattern, m at level 100, k at level 200) : py_scope.
Notation "m ';;' k" := (bind m (fun _ => k))
  (at level 100, k at level 200, right associativity) : py_scope.
Local Open Scope py_scope.

(** [for x in xs: acc = body(acc, x)], stopping at the first exception. *)
Fixpoint for_each {S A B} (xs : list A) (body : B -> A -> Py S B) (acc : B)
  : Py S B :=
  match xs with
  | [] => ret acc
  | x :: xs' => let* acc' := body acc x in for_each xs' body acc'
  end.

(** [for _ in range(n): acc = body(acc)]. *)
Fixpoint repeat_n {S B} (n : nat) (body : B -> Py S B) (acc : B) : Py S B :=
  match n with
  | O => ret acc
  | S n' => let* acc' := body acc in repeat_n n' body acc'
  end.

(** The same loops for code that raises but touches no state. *)
Definition Res (A : Type) : Type := (Exn + A)%type.

Definition res_bind {A B} (m : Res A) (k : A -> Res B) : Res B :=
  match m with inr a => k a | inl e => inl e end.

Fixpoint res_fold {A B} (xs : list A) (body : B -> A -> Res B) (acc : B)
  : Res B :=
  match xs with
  | [] => inr acc
  | x :: xs' => res_bind (body acc x) (res_fold xs' body)
  end.

Definition lift {S A} (r : Res A) : Py S A := fun s => (r, s).

(** ** NumPy arrays of shape (width, height), order "F" *)

(** A two-dimensional array in Fortran order: element [(i, j)] is stored at
    flat position [i + j * dim0]. *)
Record NDArray (A : Type) : Type := mkNDArray {
  dim0 : Z;
  dim1 : Z;
  data : list A;
}.
Arguments mkNDArray {A} _ _ _.
Arguments dim0 {A} _.
Arguments dim1 {A} _.
Arguments data {A} _.

(** [range(a, b)] as a list. *)
Definition zrange (a b : Z) : list Z :=
  map (fun k => a + Z.of_nat k) (seq 0 (Z.to_nat (b - a))).

(** [np.full((width, height), fill_value=v, order="F")]; a negative
    dimension is a [ValueError]. *)
Definition np_full {A} (w h : Z) (v : A) : Res (NDArray A) :=
  if (w <? 0) || (h <? 0) then inl ValueError
  else inr (mkNDArray w h (replicate (Z.to_nat (w * h)) v)).

(** An integer index into an axis of length [dim]: negative indices count
    from the end, anything outside [-dim, dim) is an [IndexError]. *)
Definition norm_index (dim i : Z) : Res Z :=
  if (0 <=? i) && (i <? dim) then inr i
  else if (- dim <=? i) && (i <? 0) then inr (i + dim)
  else inl IndexError.

Definition flat {A} (a : NDArray A) (i j : Z) : nat := Z.to_nat (i + j * dim0 a).

(** [a[i, j]]. *)
Definition nd_get {A} (a : NDArray A) (i j : Z) : Res A :=
  res_bind (norm_index (dim0 a) i) (fun i' =>
  res_bind (norm_index (dim1 a) j) (fun j' =>
  match data a !! flat a i' j' with
  | Some v => inr v
  | None => inl IndexError
  end)).

(** The raw store at a position already normalised. *)
Definition nd_put {A} (a : NDArray A) (i j : Z) (v : A) : NDArray A :=
  mkNDArray (dim0 a) (dim1 a) (<[flat a i j := v]> (data a)).

(** [a[i, j] = v]. *)
Definition nd_set {A} (a : NDArray A) (i j : Z) (v : A) : Res (NDArray A) :=
  res_bind (norm_index (dim0 a) i) (fun i' =>
  res_bind (norm_index (dim1 a) j) (fun j' =>
  inr (nd_put a i' j' v))).

(** [slice(start, stop)] on an axis of length [dim], as [slice.indices]
    resolves it: negative bounds count from the end and both bounds are
    clipped to the axis.  The result is the list of selected indices. *)
Definition clip_bound (dim b : Z) : Z :=
  if b <? 0 then Z.max (b + dim) 0 else Z.min b dim.

Definition slice_indices (dim : Z) (sl : Z * Z) : list Z :=
  zrange (clip_bound dim (fst sl)) (clip_bound dim (snd sl)).

(** [a[sx, sy] = v] for two slices: every selected cell is overwritten;
    slices never raise. *)
Definition nd_fill_slices {A} (a : NDArray A) (sx sy : Z * Z) (v : A)
  : NDArray A :=
  fold_left (fun acc i =>
    fold_left (fun acc' j => nd_put acc' i j v) (slice_indices (dim1 a) sy) acc)
    (slice_indices (dim0 a) sx) a.

(** [np.ndenumerate(a)]: every index pair with its element, first axis
    outermost. *)
Definition ndenumerate {A} (a : NDArray A) : list ((Z * Z) * A) :=
  flat_map (fun i =>
    flat_map (fun j =>
      match data a !! flat a i j with
      | Some v => [((i, j), v)]
      | None => []
      end) (zrange 0 (dim1 a)))
    (zrange 0 (dim0 a)).

(** ** Rect *)

(** Modelled from the spec: Rect (game/gamemap/rect.py is not under src).
    [x1, y1, x2, y2] are derived from [(x, y, width, height)]; [center] is
    the integer midpoint, [inner] the pair of slices [x1+1 .. x2-1],
    [y1+1 .. y2-1], and [intersects] the inclusive-bounds overlap test. *)
Record Rect : Type := mkRect { x1 : Z; y1 : Z; x2 : Z; y2 : Z }.

Definition Rect_init (x y w h : Z) : Rect :=
  {| x1 := x; y1 := y; x2 := x + w; y2 := y + h |}.

Definition center (r : Rect) : Z * Z :=
  ((x1 r + x2 r) / 2, (y1 r + y2 r) / 2).

Definition inner (r : Rect) : (Z * Z) * (Z * Z) :=
  ((x1 r + 1, x2 r), (y1 r + 1, y2 r)).

Definition intersects (r other : Rect) : bool :=
  (x1 r <=? x2 other) && (x2 r >=? x1 other)
  && (y1 r <=? y2 other) && (y2 r >=? y1 other).

(** ** Tile types *)

(** Modelled from the spec: TileType (game/tiles.py is not under src), a
    closed enumeration whose [WALL] is the default of the zero-filled
    grid. *)
Inductive TileType : Type := WALL | FLOOR.

Definition TileType_value (t : TileType) : Z :=
  match t with WALL => 0 | FLOOR => 1 end.

(** ** The engine's random source *)

(** [random.Random] is a deterministic generator; the model reads its raw
    outputs from a tape, so that a statement over every tape covers every
    seed. *)
Record Random : Type := mkRandom { tape : nat -> Z; cursor : nat }.

Definition draw (r : Random) : Z * Random :=
  (tape r (cursor r), {| tape := tape r; cursor := S (cursor r) |}).

(** [rng.randint(a, b)]: an integer in [a .. b], or [ValueError] when the
    range is empty. *)
Definition randint_on (a b : Z) (r : Random) : (Exn + Z) * Random :=
  if b <? a then (inl ValueError, r)
  else let '(raw, r') := draw r in (inr (a + raw mod (b - a + 1)), r').

(** [rng.random()] returns the float [k / 2^53] for an integer
    [0 <= k < 2^53]; the model returns [k]. *)
Definition random_on (r : Random) : Z * Random :=
  let '(raw, r') := draw r in (raw mod 2 ^ 53, r').

(** [random() < 0.5], on the numerator. *)
Definition lt_half (k : Z) : bool := k <? 2 ^ 52.

(** ** tcod.los.bresenham *)

(** The integer line walk of the tcod library: both end points are part of
    the line, which has one cell more than the Chebyshev distance. *)
Definition sgn (d : Z) : Z := if 0 <? d then 1 else if d <? 0 then -1 else 0.

Record Line : Type := mkLine { origx : Z; origy : Z; err : Z }.

Definition line_step (dx dy : Z) (l : Line) : Line :=
  let sx := sgn dx in
  let sy := sgn dy in
  if sy * (2 * dy) <? sx * (2 * dx) then
    let e := err l - sy * (2 * dy) in
    if e <? 0
    then mkLine (origx l + sx) (origy l + sy) (e + sx * (2 * dx))
    else mkLine (origx l + sx) (origy l) e
  else
    let e := err l - sx * (2 * dx) in
    if e <? 0
    then mkLine (origx l + sx) (origy l + sy) (e + sy * (2 * dy))
    else mkLine (origx l) (origy l + sy) e.

Fixpoint line_walk (n : nat) (dx dy : Z) (l : Line) : list (Z * Z) :=
  match n with
  | O => []
  | S n' =>
      let l' := line_step dx dy l in
      (origx l', origy l') :: line_walk n' dx dy l'
  end.

Definition bresenham (start stop : Z * Z) : list (Z * Z) :=
  let dx := fst stop - fst start in
  let dy := snd stop - snd start in
  start :: line_walk (Z.to_nat (Z.max (Z.abs dx) (Z.abs dy))) dx dy
             (mkLine (fst start) (snd start) (Z.max (Z.abs dx) (Z.abs dy))).

(** ** GameMap *)

Definition MAX_ROOMS : Z := 30.
Definition MIN_SIZE : Z := 6.
Definition MAX_SIZE : Z := 10.

(** Entities are referred to by identity. *)
Abbreviation EntityID := nat.

(** A cell of the remembered-appearance layer; [SHROUD] is the constant
    the layer is filled with (constants.py is not under src). *)
Inductive Graphic : Type := SHROUD | Seen (glyph : Z).

(** The attributes [__init__] binds on the instance.  [rooms] is not among
    them: it is bound once, in the class body, and no method assigns
    [self.rooms], so every [self.rooms] is a lookup of the class
    attribute. *)
Record GameMap : Type := mkGameMap {
  width : Z;
  height : Z;
  tiles : NDArray Z;
  memory : NDArray Graphic;
  tile_content : list (list EntityID);
  blocked : NDArray bool;
  visible : NDArray bool;
  explored : NDArray bool;
}.

(** What a construction reads and writes outside the new instance: the
    engine's random source and the list bound to [GameMap.rooms]. *)
Record State : Type := mkState {
  engine_rng : Random;
  GameMap_rooms : list Rect;
}.

Definition randint (a b : Z) : Py State Z :=
  fun s =>
    let '(r, g) := randint_on a b (engine_rng s) in
    (r, {| engine_rng := g; GameMap_rooms := GameMap_rooms s |}).

Definition random : Py State Z :=
  fun s =>
    let '(k, g) := random_on (engine_rng s) in
    (inr k, {| engine_rng := g; GameMap_rooms := GameMap_rooms s |}).

(** [self.rooms]: the instance has no attribute of that name, so the
    lookup ends in the class attribute, whichever instance [self] is. *)
Definition self_rooms (self : GameMap) : Py State (list Rect) :=
  fun s => (inr (GameMap_rooms s), s).

(** [self.rooms.append(r)]: the list is changed in place. *)
Definition rooms_append (self : GameMap) (r : Rect) : Py State unit :=
  fun s => (inr tt, {| engine_rng := engine_rng s;
                       GameMap_rooms := GameMap_rooms s ++ [r] |}).

Definition with_tiles (self : GameMap) (t : NDArray Z) : GameMap :=
  {| width := width self; height := height self; tiles := t;
     memory := memory self; tile_content := tile_content self;
     blocked := blocked self; visible := visible self;
     explored := explored self |}.

Definition with_blocked (self : GameMap) (b : NDArray bool) : GameMap :=
  {| width := width self; height := height self; tiles := tiles self;
     memory := memory self; tile_content := tile_content self;
     blocked := b; visible := visible self;
     explored := explored self |}.

(** [self.tiles[x, y] = v] *)
Definition set_tile (self : GameMap) (x y v : Z) : Res GameMap :=
  res_bind (nd_set (tiles self) x y v) (fun t => inr (with_tiles self t)).

Definition idx (self : GameMap) (x y : Z) : Z := (y * width self) + x.

Definition in_bounds (self : GameMap) (x y : Z) : bool :=
  (0 <=? x) && (x <? width self) && (0 <=? y) && (y <? height self).

(** [__tunnel_between__]: the cells of an L-shaped tunnel, in order. *)
Definition tunnel_cells (horizontal_first : bool) (start stop : Z * Z)
  : list (Z * Z) :=
  let corner := if horizontal_first then (fst stop, snd start)
                else (fst start, snd stop) in
  bresenham start corner ++ bresenham corner stop.

Definition tunnel_between (start stop : Z * Z) : Py State (list (Z * Z)) :=
  let* k := random in
  ret (tunnel_cells (lt_half k) start stop).

(** Lines 73-78 of generate_map: the candidate room of one attempt. *)
Definition draw_room (self : GameMap) : Py State Rect :=
  let* w := randint MIN_SIZE MAX_SIZE in
  let* h := randint MIN_SIZE MAX_SIZE in
  let* x := randint 0 (width self - w - 1) in
  let* y := randint 0 (height self - h - 1) in
  ret (Rect_init x y w h).

Definition carve (self : GameMap) (cells : list (Z * Z)) : Res GameMap :=
  res_fold cells (fun m c => set_tile m (fst c) (snd c) (TileType_value FLOOR))
    self.

(** [self.tiles[new_room.inner] = TileType.FLOOR.value] *)
Definition dig_room (self : GameMap) (new_room : Rect) : GameMap :=
  with_tiles self
    (nd_fill_slices (tiles self) (fst (inner new_room))
       (snd (inner new_room)) (TileType_value FLOOR)).

(** Lines 80-94 of generate_map: reject the candidate, or carve it, tunnel
    to the previous room and append it. *)
Definition place_room (self : GameMap) (new_room : Rect) : Py State GameMap :=
  let* rooms := self_rooms self in
  if existsb (intersects new_room) rooms then ret self
  else
    let self1 := dig_room self new_room in
    let* rooms' := self_rooms self in
    let* self2 :=
      (if negb (length rooms' =? 0)%nat then
         match last rooms' with
         | Some prev =>
             let* cells := tunnel_between (center prev) (center new_room) in
             lift (carve self1 cells)
         | None => raise IndexError
         end
       else ret self1) in
    rooms_append self new_room;;
    ret self2.

Definition attempt (self : GameMap) : Py State GameMap :=
  let* new_room := draw_room self in
  place_room self new_room.

Definition generate_map (self : GameMap) : Py State GameMap :=
  repeat_n (Z.to_nat MAX_ROOMS) attempt self.

(** [GameMap.__init__]; the engine argument is the owner of the random
    source held in the state. *)
Definition GameMap_init (w h : Z) : Py State GameMap :=
  let* t := lift (np_full w h 0) in
  let* mem := lift (np_full w h SHROUD) in
  let content := replicate (Z.to_nat (w * h)) ([] : list EntityID) in
  let* b := lift (np_full w h false) in
  let* vis := lift (np_full w h false) in
  let* expl := lift (np_full w h false) in
  generate_map
    {| width := w; height := h; tiles := t; memory := mem;
       tile_content := content; blocked := b; visible := vis;
       explored := expl |}.

(** [populate_blocked] *)
Definition populate_blocked (self : GameMap) : Res GameMap :=
  res_fold (ndenumerate (tiles self))
    (fun m it =>
       res_bind (nd_set (blocked m) (fst (fst it)) (snd (fst it))
                   (snd it =? TileType_value WALL))
         (fun b => inr (with_blocked m b)))
    self.

Definition is_blocked (self : GameMap) (x y : Z) : Res bool :=
  nd_get (blocked self) x y.

(** [clear_content_index] *)
Definition clear_content_index (self : GameMap) : GameMap :=
  {| width := width self; height := height self; tiles := tiles self;
     memory := memory self;
     tile_content := map (fun _ => []) (tile_content self);
     blocked := blocked self; visible := visible self;
     explored := explored self |}.


(** ** Objects

    Entities, their capabilities, maps and engines are Python objects:
    they are mutated in place and refer to each other.  The model keeps
    them in a heap; an address is the identity of an object, and objects
    are never freed. *)

Abbreviation addr := nat.

Inductive Class : Type :=
  | Engine_cls | GameMap_cls
  | Entity_cls | Actor_cls | Item_cls
  | BaseAI_cls | HostileEnemy_cls | Fighter_cls | Inventory_cls
  | Consumable_cls.

#[global] Instance Class_eq_dec : EqDecision Class.
Proof. solve_decision. Defined.

(** [issubclass(c, k)]: [Actor] and [Item] derive from [Entity], and an AI
    class from [BaseAI]. *)
Definition issubclass (c k : Class) : bool :=
  bool_decide (c = k) ||
  match c, k with
  | Actor_cls, Entity_cls | Item_cls, Entity_cls
  | HostileEnemy_cls, BaseAI_cls => true
  | _, _ => false
  end.

(** The classes of capabilities, as opposed to entities, maps and
    engines. *)
Definition is_capability (c : Class) : bool :=
  match c with
  | BaseAI_cls | HostileEnemy_cls | Fighter_cls | Inventory_cls
  | Consumable_cls => true
  | _ => false
  end.

Inductive RenderOrder : Type := CORPSE | ITEM | ACTOR.

(** The attributes an object holds besides the links of [Node]: those
    [Entity.__init__] binds, the state of a capability, the grids of a
    map, the map of an engine.  Numbers, strings, tuples and grids are
    values; [engine] and [gamemap] are references. *)
Inductive Attrs : Type :=
  | EntityAttrs (x y : Z) (char : string) (color : Z * Z * Z)
      (name : string) (blocks_movement : bool) (render_order : RenderOrder)
  | ComponentAttrs (state : list Z)
  | GameMapAttrs (engine : option addr) (m : GameMap)
  | EngineAttrs (gamemap : option addr).

(** An object: its class, its attributes and the two links of [Node]. *)
Record Object : Type := mkObject {
  o_cls : Class;
  o_attrs : Attrs;
  o_parent : option addr;
  o_children : list addr;
}.

Abbreviation Heap := (list Object).

Definition attrs_refs (a : Attrs) : list addr :=
  match a with
  | GameMapAttrs e _ => option_list e
  | EngineAttrs g => option_list g
  | _ => []
  end.

Definition attrs_rename (f : addr -> addr) (a : Attrs) : Attrs :=
  match a with
  | GameMapAttrs e m => GameMapAttrs (option_map f e) m
  | EngineAttrs g => EngineAttrs (option_map f g)
  | _ => a
  end.

(** Every reference an object holds, in the order of its [__dict__]. *)
Definition obj_refs (o : Object) : list addr :=
  option_list (o_parent o) ++ o_children o ++ attrs_refs (o_attrs o).

(** The object with every reference redirected through [f]. *)
Definition obj_rename (f : addr -> addr) (o : Object) : Object :=
  {| o_cls := o_cls o;
     o_attrs := attrs_rename f (o_attrs o);
     o_parent := option_map f (o_parent o);
     o_children := map f (o_children o) |}.

(** *** copy.deepcopy *)

(** The objects reachable from [todo], in the order a depth-first walk
    meets them; [seen] are those met so far.  A reference to no object
    cannot occur in Python; the walk gives up on one. *)
Fixpoint reach (fuel : nat) (h : Heap) (todo seen : list addr)
  : option (list addr) :=
  match fuel with
  | O => None
  | Datatypes.S fuel' =>
      match todo with
      | [] => Some seen
      | a :: todo' =>
          if bool_decide (a ∈ seen) then reach fuel' h todo' seen
          else match h !! a with
               | None => None
               | Some o => reach fuel' h (obj_refs o ++ todo') (seen ++ [a])
               end
      end
  end.

(** Enough steps for any walk of [h]: every object is met once and every
    reference is followed once. *)
Definition reach_fuel (h : Heap) : nat :=
  2 + length h + sum_list_with (fun o => length (obj_refs o)) h.

(** The position of [a] in [l], or the length of [l]. *)
Fixpoint index_of (a : addr) (l : list addr) : nat :=
  match l with
  | [] => O
  | b :: l' => if bool_decide (a = b) then O else Datatypes.S (index_of a l')
  end.

(** The memo of a deep copy: the k-th object met is copied to the k-th new
    address. *)
Definition memo_of (base : nat) (seen : list addr) (a : addr) : addr :=
  (base + index_of a seen)%nat.

(** [copy.deepcopy(root)]: every object reachable from [root] is copied
    once, to a new address, and every reference inside a copy leads to
    the copy of its target.  Returns the copy of [root]. *)
Definition deepcopy (h : Heap) (root : addr) : Res (addr * Heap) :=
  match reach (reach_fuel h) h [root] [] with
  | None => inl TypeError
  | Some seen =>
      let memo := memo_of (length h) seen in
      inr (memo root,
           h ++ omap (fun a => obj_rename memo <$> h !! a) seen)
  end.

(** *** Node *)

(** Modelled from the spec: Node (game/node.py is not under src).  A node
    has at most one parent; assigning [parent] detaches the node from its
    old parent and attaches it to the new one; attaching a node below
    itself is rejected; attaching a capability replaces an attached
    capability of the same class.  [try_get] looks among the attached
    children, [get_parent] among the node and its ancestors. *)
Definition set_o_children (cs : list addr) (o : Object) : Object :=
  {| o_cls := o_cls o; o_attrs := o_attrs o; o_parent := o_parent o;
     o_children := cs |}.

Definition class_of (h : Heap) (a : addr) : option Class :=
  o_cls <$> h !! a.

(** Is [a] the node [p] or one of its ancestors? *)
Fixpoint is_ancestor (fuel : nat) (h : Heap) (a p : addr) : bool :=
  match fuel with
  | O => false
  | Datatypes.S fuel' =>
      if bool_decide (a = p) then true
      else match h !! p with
           | Some o =>
               match o_parent o with
               | Some q => is_ancestor fuel' h a q
               | None => false
               end
           | None => false
           end
  end.

(** The children of [p] that give way when [c] is attached to [p]: the
    other capabilities of the class of [c]. *)
Definition replaced (h : Heap) (c p : addr) : list addr :=
  match h !! c, h !! p with
  | Some oc, Some op =>
      if is_capability (o_cls oc)
      then filter (fun x => x <> c /\ class_of h x = Some (o_cls oc))
             (o_children op)
      else []
  | _, _ => []
  end.

(** What becomes of the object at address [q] when [c] moves from parent
    [old] to parent [new] and the nodes [gone] are detached: [c] leaves
    the children of [old] and joins those of [new], from which [gone]
    leave; the parent of [c] is [new], that of the [gone] is empty. *)
Definition relink (c : addr) (old new : option addr) (gone : list addr)
    (q : addr) (o : Object) : Object :=
  let cs0 := if bool_decide (old = Some q)
             then filter (fun x => x <> c) (o_children o)
             else o_children o in
  let cs1 := if bool_decide (new = Some q)
             then filter (fun x => x ∉ gone) cs0 ++ [c]
             else cs0 in
  {| o_cls := o_cls o;
     o_attrs := o_attrs o;
     o_parent := if bool_decide (q = c) then new
                 else if bool_decide (q ∈ gone) then None
                 else o_parent o;
     o_children := cs1 |}.

(** [child.parent = new_parent] *)
Definition set_parent (h : Heap) (child : addr) (new_parent : option addr)
  : Res Heap :=
  match h !! child with
  | None => inl TypeError
  | Some oc =>
      match new_parent with
      | None => inr (imap (relink child (o_parent oc) None []) h)
      | Some p =>
          match h !! p with
          | None => inl TypeError
          | Some _ =>
              if is_ancestor (Datatypes.S (length h)) h child p
              then inl CycleRejected
              else inr (imap (relink child (o_parent oc) (Some p)
                                (replaced h child p)) h)
          end
      end
  end.

Definition isinstance (h : Heap) (a : addr) (kind : Class) : bool :=
  match h !! a with
  | Some o => issubclass (o_cls o) kind
  | None => false
  end.

(** [node.try_get(kind)] *)
Definition try_get (h : Heap) (a : addr) (kind : Class) : option addr :=
  match h !! a with
  | Some o => find (fun c => isinstance h c kind) (o_children o)
  | None => None
  end.

(** [node[kind]] *)
Definition get_item (h : Heap) (a : addr) (kind : Class) : Res addr :=
  match try_get h a kind with
  | Some c => inr c
  | None => inl MissingCapability
  end.

(** [node.get_parent(kind)]: the node itself or its nearest ancestor of
    that kind. *)
Fixpoint get_parent_from (fuel : nat) (h : Heap) (a : addr) (kind : Class)
  : Res addr :=
  match fuel with
  | O => inl TypeError
  | Datatypes.S fuel' =>
      match h !! a with
      | None => inl TypeError
      | Some o =>
          if issubclass (o_cls o) kind then inr a
          else match o_parent o with
               | Some p => get_parent_from fuel' h p kind
               | None => inl TypeError
               end
      end
  end.

Definition get_parent (h : Heap) (a : addr) (kind : Class) : Res addr :=
  get_parent_from (Datatypes.S (length h)) h a kind.

(** *** Entity *)

(** [object.__new__] followed by the attribute stores of [__init__]: the
    new object gets the next address. *)
Definition alloc (h : Heap) (o : Object) : addr * Heap :=
  (length h, h ++ [o]).

(** [Entity.__init__] with its defaults spelled out by the caller. *)
Definition Entity_init (h : Heap) (x y : Z) (char : string)
    (color : Z * Z * Z) (name : string) (blocks_movement : bool)
    (render_order : RenderOrder) : addr * Heap :=
  alloc h (mkObject Entity_cls
             (EntityAttrs x y char color name blocks_movement render_order)
             None []).

Definition entity_xy (h : Heap) (e : addr) : Res (Z * Z) :=
  match h !! e with
  | Some (mkObject _ (EntityAttrs x y _ _ _ _ _) _ _) => inr (x, y)
  | _ => inl TypeError
  end.

Definition entity_blocks_movement (h : Heap) (e : addr) : bool :=
  match h !! e with
  | Some (mkObject _ (EntityAttrs _ _ _ _ _ b _) _ _) => b
  | _ => false
  end.

(** [self.x = x; self.y = y] *)
Definition attrs_set_xy (x y : Z) (a : Attrs) : Attrs :=
  match a with
  | EntityAttrs _ _ ch col nm b r => EntityAttrs x y ch col nm b r
  | _ => a
  end.

Definition set_o_attrs (a : Attrs) (o : Object) : Object :=
  {| o_cls := o_cls o; o_attrs := a; o_parent := o_parent o;
     o_children := o_children o |}.

Definition set_xy (h : Heap) (e : addr) (x y : Z) : Res Heap :=
  match h !! e with
  | Some (mkObject _ (EntityAttrs _ _ _ _ _ _ _) _ _) =>
      inr (alter (fun o => set_o_attrs (attrs_set_xy x y (o_attrs o)) o) e h)
  | _ => inl TypeError
  end.

(** [Entity.spawn] *)
Definition spawn (h : Heap) (self gamemap : addr) (x y : Z)
  : Res (addr * Heap) :=
  res_bind (deepcopy h self) (fun '(clone, h1) =>
  res_bind (set_xy h1 clone x y) (fun h2 =>
  res_bind (set_parent h2 clone (Some gamemap)) (fun h3 =>
  inr (clone, h3)))).

(** [Entity.place] *)
Definition place (h : Heap) (self : addr) (x y : Z) (gamemap : option addr)
  : Res Heap :=
  res_bind (set_xy h self x y) (fun h1 => set_parent h1 self gamemap).

(** [Entity.move] *)
Definition move (h : Heap) (self : addr) (dx dy : Z) : Res Heap :=
  res_bind (entity_xy h self) (fun '(x, y) => set_xy h self (x + dx) (y + dy)).

(** [Actor.__init__]: [ai_cls(self)] makes the AI, which is attached
    first; then the fighter passed in; then the inventory passed in, or a
    new [Inventory(0)]. *)
Definition Actor_init (h : Heap) (x y : Z) (char : string)
    (color : Z * Z * Z) (name : string) (ai_cls : Class) (fighter : addr)
    (inventory : option addr) : Res (addr * Heap) :=
  let '(self, h1) :=
    alloc h (mkObject Actor_cls (EntityAttrs x y char color name true ACTOR)
               None []) in
  let '(ai, h2) := alloc h1 (mkObject ai_cls (ComponentAttrs []) None []) in
  res_bind (set_parent h2 ai (Some self)) (fun h3 =>
  res_bind (set_parent h3 fighter (Some self)) (fun h4 =>
  let '(inv, h5) :=
    match inventory with
    | Some i => (i, h4)
    | None => alloc h4 (mkObject Inventory_cls (ComponentAttrs [0]) None [])
    end in
  res_bind (set_parent h5 inv (Some self)) (fun h6 =>
  inr (self, h6)))).

(** [Actor.is_alive] *)
Definition is_alive (h : Heap) (self : addr) : bool :=
  match try_get h self BaseAI_cls with
  | Some _ => true
  | None => false
  end.

(** [Actor.fighter], [Actor.inventory], [Item.consumable] *)
Definition Actor_fighter (h : Heap) (self : addr) : Res addr :=
  get_item h self Fighter_cls.
Definition Actor_inventory (h : Heap) (self : addr) : Res addr :=
  get_item h self Inventory_cls.
Definition Item_consumable (h : Heap) (self : addr) : option addr :=
  try_get h self Consumable_cls.

(** *** The content index *)

(** [l[i]] on a Python list: negative indices count from the end. *)
Definition py_getitem {A} (l : list A) (i : Z) : Res A :=
  let n := Z.of_nat (length l) in
  if (0 <=? i) && (i <? n) then
    match l !! Z.to_nat i with Some v => inr v | None => inl IndexError end
  else if (- n <=? i) && (i <? 0) then
    match l !! Z.to_nat (i + n) with
    | Some v => inr v
    | None => inl IndexError
    end
  else inl IndexError.

(** The loop of [get_target_at_location]: the first entity of the tile's
    content list that passes the test, or [None]. *)
Definition scan_content (test : EntityID -> bool) (self : GameMap) (x y : Z)
  : Res (option EntityID) :=
  res_bind (py_getitem (tile_content self) (idx self x y)) (fun content =>
  inr (find test content)).

(** [ecs.try_entity_component(entity, CombatStats)] (game/ecs is not under
    src): the entity has a combat-stats capability attached. *)
Definition has_combat_stats (h : Heap) (e : EntityID) : bool :=
  match try_get h e Fighter_cls with Some _ => true | None => false end.

(** [get_target_at_location] *)
Definition get_target_at_location (h : Heap) (self : GameMap) (x y : Z)
  : Res (option EntityID) :=
  scan_content (has_combat_stats h) self x y.



(** ** Actions *)

Inductive Action : Type :=
  | Action_base (entity : addr)
  | ActionWithDirection (entity : addr) (dx dy : Z)
  | Wait (entity : addr).

Definition action_entity (a : Action) : addr :=
  match a with
  | Action_base e | ActionWithDirection e _ _ | Wait e => e
  end.

Definition action_dx (a : Action) : Z :=
  match a with ActionWithDirection _ dx _ => dx | _ => 0 end.
Definition action_dy (a : Action) : Z :=
  match a with ActionWithDirection _ _ dy => dy | _ => 0 end.



(** [ActionWithDirection.dest_xy] *)
Definition dest_xy (h : Heap) (a : Action) : Res (Z * Z) :=
  res_bind (entity_xy h (action_entity a)) (fun '(x, y) =>
  inr (x + action_dx a, y + action_dy a)).



(** Everything an action can observe or change: the objects, and the
    state of the process that the maps share. *)
Record World : Type := mkWorld { heap : Heap; process : State }.

(** [perform] of the three classes of action.py. *)
Definition perform (a : Action) : Py World unit :=
  match a with
  | Action_base _ => raise NotImplementedError
  | ActionWithDirection _ _ _ => raise NotImplementedError
  | Wait _ => ret tt
  end.

(** ** More of entity.py *)

Definition entity_name (h : Heap) (e : addr) : Res string :=
  match h !! e with
  | Some (mkObject _ (EntityAttrs _ _ _ _ nm _ _) _ _) => inr nm
  | _ => inl TypeError
  end.

Definition entity_render_order (h : Heap) (e : addr) : Res RenderOrder :=
  match h !! e with
  | Some (mkObject _ (EntityAttrs _ _ _ _ _ _ r) _ _) => inr r
  | _ => inl TypeError
  end.

(** [Entity.__str__]: the name, or ["Unnamed"] when the name is empty. *)
Definition Entity_str (h : Heap) (e : addr) : Res string :=
  res_bind (entity_name h e) (fun nm =>
  if String.eqb nm EmptyString then inr "Unnamed"%string else inr nm).

(** [Entity.gamemap] *)
Definition Entity_gamemap (h : Heap) (e : addr) : Res addr :=
  get_parent h e GameMap_cls.

(** [Item.__init__]: the consumable, when one is given, is attached to
    the new item. *)
Definition Item_init (h : Heap) (x y : Z) (char : string)
    (color : Z * Z * Z) (name : string) (consumable : option addr)
  : Res (addr * Heap) :=
  let '(self, h1) :=
    alloc h (mkObject Item_cls (EntityAttrs x y char color name false ITEM)
               None []) in
  match consumable with
  | Some c => res_bind (set_parent h1 c (Some self)) (fun h2 => inr (self, h2))
  | None => inr (self, h1)
  end.
(** ** Vocabulary of the statements *)

(** The flat store of an array has one slot per index pair. *)
Definition well_shaped {A} (a : NDArray A) : Prop :=
  0 <= dim0 a /\ 0 <= dim1 a /\
  length (data a) = Z.to_nat (dim0 a * dim1 a).

(** The grids of a map have the map's own dimensions. *)
Definition grids_ok (self : GameMap) : Prop :=
  dim0 (tiles self) = width self /\ dim1 (tiles self) = height self /\
  well_shaped (tiles self) /\
  dim0 (blocked self) = width self /\ dim1 (blocked self) = height self /\
  well_shaped (blocked self).

(** The cell [c] lies on the grid and holds a FLOOR tile. *)
Definition floor_at (self : GameMap) (c : Z * Z) : Prop :=
  in_bounds self (fst c) (snd c) = true /\
  nd_get (tiles self) (fst c) (snd c) = inr (TileType_value FLOOR).

(** [a'] has the shape of [a] and still holds [v] wherever [a] did. *)
Definition keeps {A} (v : A) (a a' : NDArray A) : Prop :=
  dim0 a' = dim0 a /\ dim1 a' = dim1 a /\
  length (data a') = length (data a) /\
  forall k, data a !! k = Some v -> data a' !! k = Some v.

(** Two states of one instance that differ in the tile grid at most. *)
Definition same_frame (self self' : GameMap) : Prop :=
  width self' = width self /\ height self' = height self /\
  memory self' = memory self /\ tile_content self' = tile_content self /\
  blocked self' = blocked self /\ visible self' = visible self /\
  explored self' = explored self.

(** Two cells are the same cell or share an edge. *)
Definition adjacent (p q : Z * Z) : Prop :=
  Z.abs (fst p - fst q) + Z.abs (snd p - snd q) <= 1.

(** A non-empty sequence of cells in which each cell is adjacent to the
    next. *)
Inductive walk : list (Z * Z) -> Prop :=
  | walk_one c : walk [c]
  | walk_cons a b l : adjacent a b -> walk (b :: l) -> walk (a :: b :: l).

(** [l] is a walk from [a] to [b]. *)
Definition joins (l : list (Z * Z)) (a b : Z * Z) : Prop :=
  head l = Some a /\ last l = Some b /\ walk l.

(** The cell [c] lies in the rectangle spanned by [a] and [b]. *)
Definition boxed (a b c : Z * Z) : Prop :=
  Z.min (fst a) (fst b) <= fst c <= Z.max (fst a) (fst b) /\
  Z.min (snd a) (snd b) <= snd c <= Z.max (snd a) (snd b).

(** A tunnel of FLOOR cells leads from the center of [a] to the center of
    [b], in one of its two orientations. *)
Definition linked (self : GameMap) (a b : Rect) : Prop :=
  exists horizontal_first,
    Forall (floor_at self)
      (tunnel_cells horizontal_first (center a) (center b)).

(** No two rooms at different positions of the list intersect. *)
Definition pairwise_apart (rooms : list Rect) : Prop :=
  forall i j a b, i <> j -> rooms !! i = Some a -> rooms !! j = Some b ->
    intersects a b = false.

(** What every room drawn by [draw_room] looks like, whatever the map. *)
Definition room_drawn (r : Rect) : Prop :=
  0 <= x1 r /\ 0 <= y1 r /\
  MIN_SIZE <= x2 r - x1 r <= MAX_SIZE /\
  MIN_SIZE <= y2 r - y1 r <= MAX_SIZE.

(** The room lies on a grid of the given size. *)
Definition room_fits (w h : Z) (r : Rect) : Prop :=
  room_drawn r /\ x2 r <= w - 1 /\ y2 r <= h - 1.

(** The process states that can arise: a fresh process has an empty
    [GameMap.rooms]; maps are constructed one after the other, whether the
    constructor returns or raises, and an engine may use or replace its
    random source in between. *)
Inductive reachable : State -> Prop :=
  | reach_start g : reachable (mkState g [])
  | reach_construct s w h r s' :
      reachable s -> GameMap_init w h s = (r, s') -> reachable s'
  | reach_rng s g :
      reachable s -> reachable (mkState g (GameMap_rooms s)).

(** At cell [c] the blocked layer of [m] says whether the tile grid [T]
    holds a WALL there. *)
Definition blocked_agrees (T : NDArray Z) (m : GameMap) (c : Z * Z) : Prop :=
  exists t,
    nd_get T (fst c) (snd c) = inr t /\
    nd_get (blocked m) (fst c) (snd c) = inr (t =? TileType_value WALL).

(** Two states of one instance that differ in the blocked layer at
    most. *)
Definition same_but_blocked (self self' : GameMap) : Prop :=
  width self' = width self /\ height self' = height self /\
  tiles self' = tiles self /\
  memory self' = memory self /\ tile_content self' = tile_content self /\
  visible self' = visible self /\ explored self' = explored self.

(** What holds of [GameMap.rooms] in every reachable state. *)
Definition rooms_inv (s : State) : Prop :=
  pairwise_apart (GameMap_rooms s) /\ Forall room_drawn (GameMap_rooms s).

(** [GameMap.rooms] has grown from [rooms0] by rooms that intersect none
    of [rooms0]. *)
Definition extends (rooms0 : list Rect) (s : State) : Prop :=
  exists added,
    GameMap_rooms s = rooms0 ++ added /\
    forall r r0, r ∈ added -> r0 ∈ rooms0 -> intersects r r0 = false.

(** The state after [n] more draws from the random source. *)
Definition advance (n : nat) (s : State) : State :=
  mkState (mkRandom (tape (engine_rng s)) (n + cursor (engine_rng s)))
          (GameMap_rooms s).

(** The instance as [__init__] has bound it when it calls
    [generate_map]. *)
Definition blank_map (w h : Z) : GameMap :=
  {| width := w; height := h;
     tiles := mkNDArray w h (replicate (Z.to_nat (w * h)) 0);
     memory := mkNDArray w h (replicate (Z.to_nat (w * h)) SHROUD);
     tile_content := replicate (Z.to_nat (w * h)) [];
     blocked := mkNDArray w h (replicate (Z.to_nat (w * h)) false);
     visible := mkNDArray w h (replicate (Z.to_nat (w * h)) false);
     explored := mkNDArray w h (replicate (Z.to_nat (w * h)) false) |}.

(** [n] runs of a loop body in a row, each of which returned. *)
Inductive steps {S B} (body : B -> Py S B) : nat -> B -> S -> B -> S -> Prop :=
  | steps_done b s : steps body 0 b s b s
  | steps_more n b s b1 s1 b' s' :
      body b s = (inr b1, s1) -> steps body n b1 s1 b' s' ->
      steps body (Datatypes.S n) b s b' s'.

(** Every room from position [n0] on is linked to the room before it. *)
Definition tunnelled (n0 : nat) (self : GameMap) (rooms : list Rect) : Prop :=
  forall i a b, (n0 <= Datatypes.S i)%nat ->
    rooms !! i = Some a -> rooms !! Datatypes.S i = Some b -> linked self a b.

(** The raw draw that turns [k] into the draw of the other half. *)
Definition other_half (k : Z) : Z := (k + 2 ^ 52) mod 2 ^ 53.


(** [r] is the outcome of a scan of [content] for the first element that
    passes [test]: that element, with only failing elements before it, or
    [None] when every element fails. *)
Definition first_of {A} (test : A -> bool) (content : list A)
    (r : Res (option A)) : Prop :=
  match r with
  | inr (Some b) =>
      exists before after,
        content = before ++ b :: after /\ test b = true /\
        forall c, c ∈ before -> test c = false
  | inr None => forall c, c ∈ content -> test c = false
  | inl _ => False
  end.

(** [self] is a root node whose attached children are exactly [l], each
    of them pointing back to [self]. *)
Definition holds (h : Heap) (self : addr) (l : list addr) : Prop :=
  exists o,
    h !! self = Some o /\ o_parent o = None /\ o_children o = l /\
    forall x, x ∈ l ->
      exists ox, h !! x = Some ox /\ o_parent ox = Some self.

(** Every reference held by an object of the heap leads to an object of
    the heap: Python has no dangling references. *)
Definition all_refs_valid (h : Heap) : Prop :=
  forall a o r, h !! a = Some o -> r ∈ obj_refs o -> (r < length h)%nat.

(** The same, as a check that can be run. *)
Definition heap_closed (h : Heap) : Prop :=
  forallb (fun o => forallb (fun r => r <? length h)%nat (obj_refs o)) h
  = true.

(** [b] is [a] or is attached below [a], through any number of
    [children] links. *)
Inductive below (h : Heap) (a : addr) : addr -> Prop :=
  | below_self : below h a a
  | below_child p o c :
      below h a p -> h !! p = Some o -> c ∈ o_children o -> below h a c.

(** The work a walk still has ahead: one unit and one per reference for
    every object from address [i] on that is not in [seen]. *)
Fixpoint weight_from (i : nat) (h : Heap) (seen : list addr) : nat :=
  match h with
  | [] => O
  | o :: h' =>
      ((if bool_decide (i ∈ seen) then O
        else Datatypes.S (length (obj_refs o)))
       + weight_from (Datatypes.S i) h' seen)%nat
  end.

(** The references of the objects in [seen] lead into [seen] or
    [todo]. *)
Definition refs_within (h : Heap) (seen todo : list addr) : Prop :=
  forall a o r, a ∈ seen -> h !! a = Some o -> r ∈ obj_refs o ->
    r ∈ seen \/ r ∈ todo.

(** [a'] has the dimensions and the store size of [a]. *)
Definition same_shape {A} (a a' : NDArray A) : Prop :=
  dim0 a' = dim0 a /\ dim1 a' = dim1 a /\
  length (data a') = length (data a).

(** The cell holds a WALL tile. *)
Definition wall_at (self : GameMap) (c : Z * Z) : Prop :=
  nd_get (tiles self) (fst c) (snd c) = inr (TileType_value WALL).

(** The room lies on the grid of [self] and every cell strictly inside
    it holds a FLOOR tile. *)
Definition room_dug (self : GameMap) (r : Rect) : Prop :=
  room_fits (width self) (height self) r /\
  forall x y, x1 r < x < x2 r -> y1 r < y < y2 r -> floor_at self (x, y).
(** ** Concrete runs *)

(** The value a computation returned, or [d] if it raised. *)
Definition value_of {A} (d : A) (r : Exn + A) : A :=
  match r with inr a => a | inl _ => d end.

(** A tape and the fresh process state it is read in. *)
Definition demo_draws : list Z :=
  Eval vm_compute in
    map (fun n => (Z.of_nat n * 7919 + 104729) * 15485863 mod 1000003)
        (seq 0 320).

Definition demo_tape (n : nat) : Z := nth n demo_draws 0.

Definition demo_state : State := mkState (mkRandom demo_tape 0) [].

(** [GameMap(engine, 40, 30)] in the fresh process, and a second
    [GameMap(engine, 40, 30)] after it; [demo_map3] is a larger second map
    instead. *)
Definition demo_map1 : GameMap :=
  value_of (blank_map 0 0) (fst (GameMap_init 40 30 demo_state)).
Definition demo_state1 : State := snd (GameMap_init 40 30 demo_state).
Definition demo_map2 : GameMap :=
  value_of (blank_map 0 0) (fst (GameMap_init 40 30 demo_state1)).
Definition demo_state2 : State := snd (GameMap_init 40 30 demo_state1).
Definition demo_map3 : GameMap :=
  value_of (blank_map 0 0) (fst (GameMap_init 80 45 demo_state1)).
Definition demo_state3 : State := snd (GameMap_init 80 45 demo_state1).

(** A tape whose first draw makes the first candidate ten cells wide. *)
Definition wide_tape (n : nat) : Z := match n with O => 4 | _ => 0 end.
Definition wide_state : State := mkState (mkRandom wide_tape 0) [].


(** An engine (address 0) with its map (1), on which stand the player at
    (5, 5) (address 2) and, both at (6, 5), a potion (4) and an orc (3);
    the content index lists the potion before the orc. *)
Definition demo_content_map : GameMap :=
  let m := blank_map 10 8 in
  {| width := width m; height := height m; tiles := tiles m;
     memory := memory m;
     tile_content := <[Z.to_nat (idx m 6 5) := [4; 3]%nat]> (tile_content m);
     blocked := blocked m; visible := visible m; explored := explored m |}.

Definition demo_heap : Heap :=
  [ mkObject Engine_cls (EngineAttrs (Some 1%nat)) None [1%nat];
    mkObject GameMap_cls (GameMapAttrs (Some 0%nat) demo_content_map)
      (Some 0%nat) [2; 3; 4]%nat;
    mkObject Actor_cls
      (EntityAttrs 5 5 "@" (255, 255, 255) "Player" true ACTOR)
      (Some 1%nat) [];
    mkObject Actor_cls
      (EntityAttrs 6 5 "o" (63, 127, 63) "Orc" true ACTOR)
      (Some 1%nat) [];
    mkObject Item_cls
      (EntityAttrs 6 5 "!" (127, 0, 255) "Health Potion" false ITEM)
      (Some 1%nat) [] ].

(** A heap that holds one fighter capability, not attached yet. *)
Definition fighter_heap : Heap :=
  [ mkObject Fighter_cls (ComponentAttrs [30; 30; 1; 5]) None [] ].

(** A map (address 0) and, not attached to it, the template of an orc (1)
    with its AI (2), fighter (3) and inventory (4). *)
Definition template_heap : Heap :=
  [ mkObject GameMap_cls (GameMapAttrs None (blank_map 10 8)) None [];
    mkObject Actor_cls
      (EntityAttrs 0 0 "o" (63, 127, 63) "Orc" true ACTOR) None
      [2; 3; 4]%nat;
    mkObject HostileEnemy_cls (ComponentAttrs []) (Some 1%nat) [];
    mkObject Fighter_cls (ComponentAttrs [10; 10; 0; 3]) (Some 1%nat) [];
    mkObject Inventory_cls (ComponentAttrs [0]) (Some 1%nat) [] ].

(** The heap of [demo_heap] in which the orc (3) carries a fighter
    capability (5). *)
Definition arena_heap : Heap :=
  [ mkObject Engine_cls (EngineAttrs (Some 1%nat)) None [1%nat];
    mkObject GameMap_cls (GameMapAttrs (Some 0%nat) demo_content_map)
      (Some 0%nat) [2; 3; 4]%nat;
    mkObject Actor_cls
      (EntityAttrs 5 5 "@" (255, 255, 255) "Player" true ACTOR)
      (Some 1%nat) [];
    mkObject Actor_cls
      (EntityAttrs 6 5 "o" (63, 127, 63) "Orc" true ACTOR)
      (Some 1%nat) [5%nat];
    mkObject Item_cls
      (EntityAttrs 6 5 "!" (127, 0, 255) "Health Potion" false ITEM)
      (Some 1%nat) [];
    mkObject Fighter_cls (ComponentAttrs [10; 10; 0; 3]) (Some 3%nat) [] ].

(** An engine (0) with two maps (1 and 3); the player (2) stands on the
    first. *)
Definition two_maps_heap : Heap :=
  [ mkObject Engine_cls (EngineAttrs (Some 1%nat)) None [1; 3]%nat;
    mkObject GameMap_cls (GameMapAttrs (Some 0%nat) (blank_map 10 8))
      (Some 0%nat) [2%nat];
    mkObject Actor_cls
      (EntityAttrs 5 5 "@" (255, 255, 255) "Player" true ACTOR)
      (Some 1%nat) [];
    mkObject GameMap_cls (GameMapAttrs (Some 0%nat) (blank_map 12 9))
      (Some 0%nat) [] ].

(** A heap that holds one consumable capability, not attached yet. *)
Definition potion_heap : Heap :=
  [ mkObject Consumable_cls (ComponentAttrs [4]) None [] ].


(** * Properties *)

(** ** The monad *)

Lemma bind_inr {S A B} (m : Py S A) (k : A -> Py S B) s b s' :
  bind m k s = (inr b, s') ->
  exists a s1, m s = (inr a, s1) /\ k a s1 = (inr b, s').
Proof.
  unfold bind. destruct (m s) as [[e|a] s1]; [discriminate|]. eauto.
Qed.

Lemma bind_run {S A B} (m : Py S A) (k : A -> Py S B) s a s1 :
  m s = (inr a, s1) -> bind m k s = k a s1.
Proof. unfold bind. intros ->. reflexivity. Qed.

Lemma bind_raise {S A B} (m : Py S A) (k : A -> Py S B) s e s1 :
  m s = (inl e, s1) -> bind m k s = (inl e, s1).
Proof. unfold bind. intros ->. reflexivity. Qed.

Lemma bind_cases {S A B} (m : Py S A) (k : A -> Py S B) s r s' :
  bind m k s = (r, s') ->
  (exists e, m s = (inl e, s') /\ r = inl e) \/
  (exists a s1, m s = (inr a, s1) /\ k a s1 = (r, s')).
Proof.
  unfold bind. destruct (m s) as [[e|a] s1]; intros H.
  - left. exists e. inversion H. auto.
  - right. eauto.
Qed.

Lemma repeat_n_inr {S B} (P : B -> S -> Prop) (body : B -> Py S B) :
  (forall b s b' s', P b s -> body b s = (inr b', s') -> P b' s') ->
  forall n b s b' s',
    P b s -> repeat_n n body b s = (inr b', s') -> P b' s'.
Proof.
  intros Hstep n. induction n as [|n IH]; simpl; intros b s b' s' HP Hrun.
  - inversion Hrun; subst. exact HP.
  - apply bind_inr in Hrun as (b1 & s1 & Hb & Hrest). eauto.
Qed.

Lemma repeat_n_counted {S B} (P : nat -> B -> S -> Prop) (body : B -> Py S B) :
  (forall k b s b' s',
      P k b s -> body b s = (inr b', s') -> P (Datatypes.S k) b' s') ->
  forall n k b s b' s',
    P k b s -> repeat_n n body b s = (inr b', s') -> P (n + k)%nat b' s'.
Proof.
  intros Hstep n. induction n as [|n IH]; simpl; intros k b s b' s' HP Hrun.
  - inversion Hrun; subst. exact HP.
  - apply bind_inr in Hrun as (b1 & s1 & Hb & Hrest).
    replace (Datatypes.S (n + k)) with (n + Datatypes.S k)%nat by lia.
    eauto.
Qed.

Lemma repeat_n_steps {S B} (body : B -> Py S B) n :
  forall b s b' s',
    repeat_n n body b s = (inr b', s') -> steps body n b s b' s'.
Proof.
  induction n as [|n IH]; simpl; intros b s b' s' Hrun.
  - inversion Hrun; subst. constructor.
  - apply bind_inr in Hrun as (b1 & s1 & Hb & Hrest).
    econstructor; eauto.
Qed.

(** An invariant of the state alone survives a loop also when it ends in
    an exception. *)
Lemma repeat_n_state {S B} (P : S -> Prop) (body : B -> Py S B) :
  (forall b s r s', P s -> body b s = (r, s') -> P s') ->
  forall n b s r s', P s -> repeat_n n body b s = (r, s') -> P s'.
Proof.
  intros Hstep n. induction n as [|n IH]; simpl; intros b s r s' HP Hrun.
  - inversion Hrun; subst. exact HP.
  - apply bind_cases in Hrun as [(e & Hb & _)|(b1 & s1 & Hb & Hrest)]; eauto.
Qed.

Lemma repeat_n_total {S B} (P : nat -> B -> S -> Prop) (body : B -> Py S B) :
  (forall k b s, P k b s ->
     exists b' s', body b s = (inr b', s') /\ P (Datatypes.S k) b' s') ->
  forall n k b s, P k b s ->
    exists b' s', repeat_n n body b s = (inr b', s') /\ P (n + k)%nat b' s'.
Proof.
  intros Hstep n. induction n as [|n IH]; simpl; intros k b s HP.
  - eauto.
  - destruct (Hstep _ _ _ HP) as (b1 & s1 & Hb & HP1).
    destruct (IH _ _ _ HP1) as (b2 & s2 & Hrun & HP2).
    exists b2, s2. split.
    + rewrite (bind_run _ _ _ _ _ Hb). exact Hrun.
    + replace (Datatypes.S (n + k)) with (n + Datatypes.S k)%nat by lia.
      exact HP2.
Qed.

Lemma res_bind_inr {A B} (m : Res A) (k : A -> Res B) b :
  res_bind m k = inr b -> exists a, m = inr a /\ k a = inr b.
Proof. destruct m; simpl; [discriminate|eauto]. Qed.

Lemma res_fold_inr {A B} (P : B -> Prop) (body : B -> A -> Res B) xs :
  (forall b x b', x ∈ xs -> P b -> body b x = inr b' -> P b') ->
  forall b b', P b -> res_fold xs body b = inr b' -> P b'.
Proof.
  induction xs as [|x xs IH]; simpl; intros Hstep b b' HP Hrun.
  - inversion Hrun; subst. exact HP.
  - apply res_bind_inr in Hrun as (b1 & Hb & Hrest).
    eapply IH; [| |exact Hrest].
    + intros ? ? ? Hin. apply Hstep. now right.
    + eapply Hstep; [left|exact HP|exact Hb].
Qed.

Lemma res_fold_total {A B} (P : B -> Prop) (body : B -> A -> Res B) xs :
  (forall b x, x ∈ xs -> P b -> exists b', body b x = inr b' /\ P b') ->
  forall b, P b -> exists b', res_fold xs body b = inr b' /\ P b'.
Proof.
  induction xs as [|x xs IH]; simpl; intros Hstep b HP.
  - eauto.
  - destruct (Hstep b x) as (b1 & Hb & HP1); [left|exact HP|].
    rewrite Hb. simpl. apply IH; [|exact HP1].
    intros ? ? Hin. apply Hstep. now right.
Qed.

(** ** Arrays *)

Lemma norm_index_in (dim i : Z) :
  0 <= i < dim -> norm_index dim i = inr i.
Proof.
  intros H. unfold norm_index.
  destruct (Z.leb_spec 0 i), (Z.ltb_spec i dim); simpl; try lia. reflexivity.
Qed.

Lemma norm_index_range (dim i i' : Z) :
  norm_index dim i = inr i' -> 0 <= i' < dim.
Proof.
  unfold norm_index.
  destruct (Z.leb_spec 0 i), (Z.ltb_spec i dim); simpl;
    try (intros [= <-]; lia);
    destruct (Z.leb_spec (- dim) i), (Z.ltb_spec i 0); simpl;
    try discriminate; intros [= <-]; lia.
Qed.

Lemma norm_index_nonneg (dim i i' : Z) :
  0 <= i -> norm_index dim i = inr i' -> i' = i /\ i < dim.
Proof.
  intros Hi. unfold norm_index.
  destruct (Z.leb_spec 0 i), (Z.ltb_spec i dim); simpl;
    try (intros [= <-]; lia);
    destruct (Z.leb_spec (- dim) i), (Z.ltb_spec i 0); simpl;
    try discriminate; lia.
Qed.

Lemma flat_lt {A} (a : NDArray A) i j :
  well_shaped a -> 0 <= i < dim0 a -> 0 <= j < dim1 a ->
  (flat a i j < length (data a))%nat.
Proof.
  intros (H0 & H1 & Hlen) Hi Hj. unfold flat. rewrite Hlen.
  apply Z2Nat.inj_lt; nia.
Qed.

Lemma flat_inj {A} (a : NDArray A) i j i' j' :
  0 <= i < dim0 a -> 0 <= j -> 0 <= i' < dim0 a -> 0 <= j' ->
  flat a i j = flat a i' j' -> i = i' /\ j = j'.
Proof.
  intros Hi Hj Hi' Hj' H. unfold flat in H.
  apply Z2Nat.inj in H; [|nia|nia].
  assert (j = j') by nia. subst. lia.
Qed.

Lemma nd_put_well_shaped {A} (a : NDArray A) i j v :
  well_shaped a -> well_shaped (nd_put a i j v).
Proof.
  unfold well_shaped, nd_put. simpl. rewrite length_insert. auto.
Qed.

Lemma nd_get_in {A} (a : NDArray A) i j :
  0 <= i < dim0 a -> 0 <= j < dim1 a ->
  nd_get a i j = match data a !! flat a i j with
                 | Some v => inr v
                 | None => inl IndexError
                 end.
Proof.
  intros Hi Hj. unfold nd_get.
  rewrite (norm_index_in _ _ Hi), (norm_index_in _ _ Hj). reflexivity.
Qed.

Lemma nd_get_put_eq {A} (a : NDArray A) i j v :
  well_shaped a -> 0 <= i < dim0 a -> 0 <= j < dim1 a ->
  nd_get (nd_put a i j v) i j = inr v.
Proof.
  intros Hs Hi Hj. rewrite nd_get_in by (simpl; lia).
  unfold nd_put, flat. simpl.
  rewrite list_lookup_insert_eq; [reflexivity|].
  apply (flat_lt a i j Hs Hi Hj).
Qed.

Lemma nd_get_put_ne {A} (a : NDArray A) i j i' j' v :
  0 <= i < dim0 a -> 0 <= j < dim1 a ->
  0 <= i' < dim0 a -> 0 <= j' < dim1 a ->
  (i, j) <> (i', j') ->
  nd_get (nd_put a i j v) i' j' = nd_get a i' j'.
Proof.
  intros Hi Hj Hi' Hj' Hne.
  rewrite !nd_get_in by (simpl; lia).
  unfold nd_put, flat. simpl.
  rewrite list_lookup_insert_ne; [reflexivity|].
  intros Heq. apply Hne.
  destruct (flat_inj a i j i' j') as [-> ->]; auto; lia.
Qed.

(** Storing [v] leaves every slot that already held [v] holding [v]. *)
Lemma nd_put_keeps {A} (a : NDArray A) i j v k :
  data a !! k = Some v -> data (nd_put a i j v) !! k = Some v.
Proof.
  intros H. unfold nd_put. simpl.
  destruct (decide (flat a i j = k)) as [->|Hne].
  - rewrite list_lookup_insert_eq; [reflexivity|].
    apply lookup_lt_Some in H. exact H.
  - rewrite list_lookup_insert_ne by exact Hne. exact H.
Qed.

Lemma fold_nd_put_inv {A} (P : NDArray A -> Prop) (v : A) :
  (forall a i j, P a -> P (nd_put a i j v)) ->
  forall (js : list Z) a i,
    P a -> P (fold_left (fun acc j => nd_put acc i j v) js a).
Proof.
  intros Hstep js. induction js as [|j js IH]; simpl; intros a i HP; auto.
Qed.

Lemma nd_fill_slices_inv {A} (P : NDArray A -> Prop) (v : A) :
  (forall a i j, P a -> P (nd_put a i j v)) ->
  forall a sx sy, P a -> P (nd_fill_slices a sx sy v).
Proof.
  intros Hstep a sx sy. unfold nd_fill_slices.
  generalize (slice_indices (dim1 a) sy) as js.
  generalize (slice_indices (dim0 a) sx) as is_.
  intros is_. revert a. induction is_ as [|i is_ IH]; simpl; intros a js HP.
  - exact HP.
  - apply IH. apply fold_nd_put_inv; assumption.
Qed.

(** ** Lines and tunnels *)

Lemma adjacent_refl c : adjacent c c.
Proof. unfold adjacent. lia. Qed.

Lemma joins_app l1 l2 a c b :
  joins l1 a c -> joins l2 c b -> joins (l1 ++ l2) a b.
Proof.
  intros (Hh1 & Hl1 & Hw1) (Hh2 & Hl2 & Hw2).
  destruct l2 as [|c' l2]; [discriminate|].
  simpl in Hh2. injection Hh2 as ->.
  split; [|split].
  - destruct l1; [discriminate|]. exact Hh1.
  - rewrite last_app, Hl2. reflexivity.
  - clear Hh1. induction Hw1 as [x|x y l Hadj Hw IH].
    + simpl in Hl1. injection Hl1 as ->. simpl.
      constructor; [apply adjacent_refl|exact Hw2].
    + simpl. constructor; [exact Hadj|]. apply IH. exact Hl1.
Qed.

Lemma sgn_abs d : sgn d * d = Z.abs d.
Proof.
  unfold sgn. destruct (Z.ltb_spec 0 d); [lia|].
  destruct (Z.ltb_spec d 0); lia.
Qed.

Lemma sgn_small d : -1 <= sgn d <= 1.
Proof.
  unfold sgn. destruct (Z.ltb_spec 0 d); [lia|].
  destruct (Z.ltb_spec d 0); lia.
Qed.

Lemma sgn_square d : d <> 0 -> sgn d * sgn d = 1.
Proof.
  unfold sgn. destruct (Z.ltb_spec 0 d); [lia|].
  destruct (Z.ltb_spec d 0); lia.
Qed.

Lemma sgn_mul_abs d : sgn d * Z.abs d = d.
Proof.
  unfold sgn. destruct (Z.ltb_spec 0 d); [lia|].
  destruct (Z.ltb_spec d 0); lia.
Qed.

(** A walk along a row: the error term never becomes negative, so every
    step moves one cell along x. *)
Lemma line_walk_row dx n :
  dx <> 0 -> forall l, 0 <= err l ->
  joins ((origx l, origy l) :: line_walk n dx 0 l) (origx l, origy l)
        (origx l + sgn dx * Z.of_nat n, origy l) /\
  Forall (fun c => snd c = origy l /\
                   0 <= sgn dx * (fst c - origx l) <= Z.of_nat n)
         ((origx l, origy l) :: line_walk n dx 0 l).
Proof.
  intros Hdx. induction n as [|n IH]; intros l He.
  - simpl. split.
    + split; [reflexivity|]. split; [|constructor].
      simpl. f_equal. f_equal. lia.
    + constructor; [|constructor]. simpl. lia.
  - pose proof (sgn_square dx Hdx) as Hsq.
    assert (Hstep : line_step dx 0 l
                    = mkLine (origx l + sgn dx) (origy l) (err l)).
    { unfold line_step. pose proof (sgn_abs dx) as Hs.
      change (sgn 0 * (2 * 0)) with 0.
      assert (Hc : (0 <? sgn dx * (2 * dx)) = true) by (apply Z.ltb_lt; nia).
      rewrite Hc. cbv zeta. rewrite Z.sub_0_r.
      destruct (Z.ltb_spec (err l) 0); [lia|]. reflexivity. }
    simpl line_walk. rewrite Hstep. simpl origx. simpl origy.
    destruct (IH (mkLine (origx l + sgn dx) (origy l) (err l)) He)
      as ((Hh & Hl & Hw) & Hall).
    simpl origx in *. simpl origy in *. pose proof (sgn_small dx) as Hs.
    split.
    + split; [reflexivity|]. split.
      * rewrite last_cons, Hl. f_equal. f_equal. lia.
      * constructor; [|exact Hw]. unfold adjacent. simpl. lia.
    + constructor; [simpl; lia|].
      eapply Forall_impl; [exact Hall|]. simpl. intros c [? ?]. split; nia.
Qed.

(** A walk along a column. *)
Lemma line_walk_column dy n :
  dy <> 0 -> forall l, 0 <= err l ->
  joins ((origx l, origy l) :: line_walk n 0 dy l) (origx l, origy l)
        (origx l, origy l + sgn dy * Z.of_nat n) /\
  Forall (fun c => fst c = origx l /\
                   0 <= sgn dy * (snd c - origy l) <= Z.of_nat n)
         ((origx l, origy l) :: line_walk n 0 dy l).
Proof.
  intros Hdy. induction n as [|n IH]; intros l He.
  - simpl. split.
    + split; [reflexivity|]. split; [|constructor].
      simpl. f_equal. f_equal. lia.
    + constructor; [|constructor]. simpl. lia.
  - pose proof (sgn_square dy Hdy) as Hsq.
    assert (Hstep : line_step 0 dy l
                    = mkLine (origx l) (origy l + sgn dy) (err l)).
    { unfold line_step. pose proof (sgn_abs dy) as Hs.
      change (sgn 0 * (2 * 0)) with 0.
      assert (Hc : (sgn dy * (2 * dy) <? 0) = false) by (apply Z.ltb_ge; nia).
      rewrite Hc. cbv zeta. rewrite Z.sub_0_r.
      destruct (Z.ltb_spec (err l) 0); [lia|]. reflexivity. }
    simpl line_walk. rewrite Hstep. simpl origx. simpl origy.
    destruct (IH (mkLine (origx l) (origy l + sgn dy) (err l)) He)
      as ((Hh & Hl & Hw) & Hall).
    simpl origx in *. simpl origy in *. pose proof (sgn_small dy) as Hs.
    split.
    + split; [reflexivity|]. split.
      * rewrite last_cons, Hl. f_equal. f_equal. lia.
      * constructor; [|exact Hw]. unfold adjacent. simpl. lia.
    + constructor; [simpl; lia|].
      eapply Forall_impl; [exact Hall|]. simpl. intros c [? ?]. split; nia.
Qed.

Lemma bresenham_row xa xb y :
  joins (bresenham (xa, y) (xb, y)) (xa, y) (xb, y) /\
  Forall (boxed (xa, y) (xb, y)) (bresenham (xa, y) (xb, y)).
Proof.
  unfold bresenham. simpl fst. simpl snd.
  replace (y - y) with 0 by lia. change (Z.abs 0) with 0.
  destruct (Z.eq_dec xb xa) as [->|Hne].
  - replace (xa - xa) with 0 by lia. simpl. split.
    + repeat split. constructor.
    + constructor; [|constructor]. unfold boxed. simpl. lia.
  - set (dx := xb - xa). assert (Hdx : dx <> 0) by (unfold dx; lia).
    replace (Z.max (Z.abs dx) 0) with (Z.abs dx) by lia.
    destruct (line_walk_row dx (Z.to_nat (Z.abs dx)) Hdx
                (mkLine xa y (Z.abs dx))) as (Hj & Hall);
      [simpl; lia|].
    simpl origx in *. simpl origy in *.
    rewrite Z2Nat.id in * by lia. rewrite sgn_mul_abs in Hj.
    replace (xa + dx) with xb in Hj by (unfold dx; lia).
    split; [exact Hj|].
    eapply Forall_impl; [exact Hall|]. unfold boxed. simpl.
    intros c [? ?]. pose proof (sgn_mul_abs dx). pose proof (sgn_abs dx).
    pose proof (sgn_square dx Hdx). unfold dx in *. nia.
Qed.

Lemma bresenham_column x ya yb :
  joins (bresenham (x, ya) (x, yb)) (x, ya) (x, yb) /\
  Forall (boxed (x, ya) (x, yb)) (bresenham (x, ya) (x, yb)).
Proof.
  unfold bresenham. simpl fst. simpl snd.
  replace (x - x) with 0 by lia. change (Z.abs 0) with 0.
  destruct (Z.eq_dec yb ya) as [->|Hne].
  - replace (ya - ya) with 0 by lia. simpl. split.
    + repeat split. constructor.
    + constructor; [|constructor]. unfold boxed. simpl. lia.
  - set (dy := yb - ya). assert (Hdy : dy <> 0) by (unfold dy; lia).
    replace (Z.max 0 (Z.abs dy)) with (Z.abs dy) by lia.
    destruct (line_walk_column dy (Z.to_nat (Z.abs dy)) Hdy
                (mkLine x ya (Z.abs dy))) as (Hj & Hall);
      [simpl; lia|].
    simpl origx in *. simpl origy in *.
    rewrite Z2Nat.id in * by lia. rewrite sgn_mul_abs in Hj.
    replace (ya + dy) with yb in Hj by (unfold dy; lia).
    split; [exact Hj|].
    eapply Forall_impl; [exact Hall|]. unfold boxed. simpl.
    intros c [? ?]. pose proof (sgn_mul_abs dy). pose proof (sgn_abs dy).
    pose proof (sgn_square dy Hdy). unfold dy in *. nia.
Qed.

(** Both orientations of the tunnel are walks from [start] to [stop]
    inside the rectangle the two cells span. *)
Lemma tunnel_cells_joins hf start stop :
  joins (tunnel_cells hf start stop) start stop /\
  Forall (boxed start stop) (tunnel_cells hf start stop).
Proof.
  destruct start as [xa ya], stop as [xb yb]. unfold tunnel_cells.
  simpl fst. simpl snd. destruct hf.
  - destruct (bresenham_row xa xb ya) as (J1 & B1).
    destruct (bresenham_column xb ya yb) as (J2 & B2).
    split; [eapply joins_app; eassumption|].
    apply Forall_app. split; (eapply Forall_impl; [eassumption|]);
      unfold boxed; simpl; intros c ?; lia.
  - destruct (bresenham_column xa ya yb) as (J1 & B1).
    destruct (bresenham_row xa xb yb) as (J2 & B2).
    split; [eapply joins_app; eassumption|].
    apply Forall_app. split; (eapply Forall_impl; [eassumption|]);
      unfold boxed; simpl; intros c ?; lia.
Qed.

(** ** Carving *)

Lemma keeps_refl {A} (v : A) a : keeps v a a.
Proof. unfold keeps. auto. Qed.

Lemma keeps_trans {A} (v : A) a b c : keeps v a b -> keeps v b c -> keeps v a c.
Proof.
  unfold keeps. intros (?&?&?&?) (?&?&?&?).
  repeat split; try congruence. auto.
Qed.

Lemma keeps_put {A} (v : A) a i j : keeps v a (nd_put a i j v).
Proof.
  unfold keeps. simpl. rewrite length_insert. repeat split.
  intros k. apply nd_put_keeps.
Qed.

Lemma keeps_fill {A} (v : A) a sx sy : keeps v a (nd_fill_slices a sx sy v).
Proof.
  apply (nd_fill_slices_inv (keeps v a)); [|apply keeps_refl].
  intros b i j Hb. eapply keeps_trans; [exact Hb|apply keeps_put].
Qed.

Lemma keeps_well_shaped {A} (v : A) a a' :
  keeps v a a' -> well_shaped a -> well_shaped a'.
Proof.
  unfold keeps, well_shaped. intros (-> & -> & -> & _). auto.
Qed.

Lemma same_frame_refl self : same_frame self self.
Proof. unfold same_frame. auto 10. Qed.

Lemma same_frame_trans a b c :
  same_frame a b -> same_frame b c -> same_frame a c.
Proof.
  unfold same_frame. intros (?&?&?&?&?&?&?) (?&?&?&?&?&?&?).
  repeat split; congruence.
Qed.

Lemma same_frame_with_tiles self t : same_frame self (with_tiles self t).
Proof. unfold same_frame. simpl. auto 10. Qed.

(** Replacing the tile grid by one that keeps the floors keeps the map
    well formed and its floor cells floor. *)
Lemma with_tiles_keeps self t :
  grids_ok self -> keeps (TileType_value FLOOR) (tiles self) t ->
  grids_ok (with_tiles self t) /\
  forall c, floor_at self c -> floor_at (with_tiles self t) c.
Proof.
  intros (Hw & Hh & Hs & Hb) Hk.
  pose proof (keeps_well_shaped _ _ _ Hk Hs) as Hs'.
  destruct Hk as (Hd0 & Hd1 & Hlen & Hk).
  split.
  - unfold grids_ok. simpl.
    split; [congruence|]. split; [congruence|]. split; [exact Hs'|exact Hb].
  - intros [x y] (Hin & Hget). unfold floor_at, in_bounds in *.
    simpl in *. split; [exact Hin|].
    apply andb_prop in Hin as (Hin & Hy2). apply andb_prop in Hin as (Hin & Hy1).
    apply andb_prop in Hin as (Hx1 & Hx2).
    apply Z.leb_le in Hx1, Hy1. apply Z.ltb_lt in Hx2, Hy2.
    rewrite nd_get_in in Hget by lia. rewrite nd_get_in by lia.
    unfold flat in *. rewrite Hd0.
    destruct (data (tiles self) !! Z.to_nat (x + y * dim0 (tiles self)))
      as [v|] eqn:E; [|discriminate].
    injection Hget as ->. rewrite (Hk _ E). reflexivity.
Qed.

Lemma in_bounds_iff self x y :
  in_bounds self x y = true <-> 0 <= x < width self /\ 0 <= y < height self.
Proof.
  unfold in_bounds. rewrite !andb_true_iff, !Z.leb_le, !Z.ltb_lt. lia.
Qed.

Lemma set_tile_spec self x y self' :
  grids_ok self -> 0 <= x -> 0 <= y ->
  set_tile self x y (TileType_value FLOOR) = inr self' ->
  same_frame self self' /\ grids_ok self' /\ floor_at self' (x, y) /\
  (forall c, floor_at self c -> floor_at self' c).
Proof.
  intros Hok Hx Hy Hset. unfold set_tile, nd_set in Hset.
  apply res_bind_inr in Hset as (t & Hset & [= <-]).
  apply res_bind_inr in Hset as (i & Hi & Hset).
  apply res_bind_inr in Hset as (j & Hj & [= <-]).
  apply norm_index_nonneg in Hi as (-> & Hxw); [|exact Hx].
  apply norm_index_nonneg in Hj as (-> & Hyh); [|exact Hy].
  destruct (with_tiles_keeps self (nd_put (tiles self) x y (TileType_value FLOOR))
              Hok (keeps_put _ _ _ _)) as (Hok' & Hkept).
  split; [apply same_frame_with_tiles|]. split; [exact Hok'|].
  split; [|exact Hkept].
  destruct Hok as (Hw & Hh & Hs & _).
  split.
  - apply in_bounds_iff. simpl. lia.
  - simpl. apply nd_get_put_eq; [exact Hs|lia|lia].
Qed.

Lemma set_tile_total self x y v :
  grids_ok self -> in_bounds self x y = true ->
  exists self', set_tile self x y v = inr self'.
Proof.
  intros (Hw & Hh & _) Hin. apply in_bounds_iff in Hin.
  unfold set_tile, nd_set.
  rewrite (norm_index_in (dim0 (tiles self)) x) by lia.
  rewrite (norm_index_in (dim1 (tiles self)) y) by lia.
  simpl. eauto.
Qed.

Lemma carve_spec cells :
  forall self self',
    grids_ok self ->
    Forall (fun c => 0 <= fst c /\ 0 <= snd c) cells ->
    carve self cells = inr self' ->
    same_frame self self' /\ grids_ok self' /\
    Forall (floor_at self') cells /\
    (forall c, floor_at self c -> floor_at self' c).
Proof.
  induction cells as [|c cells IH]; intros self self' Hok Hpos Hrun.
  - injection Hrun as <-.
    split; [apply same_frame_refl|]. auto.
  - unfold carve in Hrun. simpl in Hrun.
    apply res_bind_inr in Hrun as (m & Hset & Hrest).
    inversion Hpos as [|? ? [Hx Hy] Hpos']; subst.
    destruct (set_tile_spec _ _ _ _ Hok Hx Hy Hset)
      as (Hf1 & Hok1 & Hc & Hk1).
    destruct (IH m self' Hok1 Hpos' Hrest) as (Hf2 & Hok2 & Hall & Hk2).
    split; [eapply same_frame_trans; eassumption|].
    split; [exact Hok2|]. split.
    + constructor; [|exact Hall]. apply Hk2. destruct c. exact Hc.
    + auto.
Qed.

Lemma carve_total cells :
  forall self,
    grids_ok self ->
    Forall (fun c => in_bounds self (fst c) (snd c) = true) cells ->
    exists self', carve self cells = inr self'.
Proof.
  induction cells as [|c cells IH]; intros self Hok Hin.
  - exists self. reflexivity.
  - inversion Hin as [|? ? Hc Hin']; subst.
    destruct (set_tile_total self (fst c) (snd c) (TileType_value FLOOR) Hok Hc)
      as (m & Hset).
    assert (Hc' : 0 <= fst c /\ 0 <= snd c)
      by (apply in_bounds_iff in Hc; lia).
    destruct (set_tile_spec _ _ _ _ Hok (proj1 Hc') (proj2 Hc') Hset)
      as ((Hw & Hh & _) & Hok1 & _).
    destruct (IH m Hok1) as (self' & Hrun).
    + eapply Forall_impl; [exact Hin'|]. intros c0 H0.
      apply in_bounds_iff. apply in_bounds_iff in H0. lia.
    + exists self'. unfold carve in *. cbn [res_fold]. rewrite Hset.
      exact Hrun.
Qed.

(** ** One attempt of the generator *)

Lemma advance_rooms n s : GameMap_rooms (advance n s) = GameMap_rooms s.
Proof. reflexivity. Qed.

Lemma advance_advance n m s : advance n (advance m s) = advance (n + m) s.
Proof. unfold advance. simpl. do 2 f_equal. lia. Qed.

Lemma advance_0 s : advance 0 s = s.
Proof. destruct s as [[t c] r]. reflexivity. Qed.

Lemma randint_cases a b s :
  (b < a /\ randint a b s = (inl ValueError, s)) \/
  (a <= b /\ exists v, a <= v <= b /\ randint a b s = (inr v, advance 1 s)).
Proof.
  unfold randint, randint_on, draw.
  destruct (Z.ltb_spec b a) as [Hlt|Hle].
  - left. split; [exact Hlt|]. destruct s as [[t c] r]. reflexivity.
  - right. split; [exact Hle|].
    exists (a + tape (engine_rng s) (cursor (engine_rng s)) mod (b - a + 1)).
    split; [|reflexivity].
    pose proof (Z.mod_pos_bound (tape (engine_rng s) (cursor (engine_rng s)))
                  (b - a + 1)). lia.
Qed.

Lemma random_run s :
  exists k, 0 <= k < 2 ^ 53 /\ random s = (inr k, advance 1 s).
Proof.
  unfold random, random_on, draw.
  exists (tape (engine_rng s) (cursor (engine_rng s)) mod 2 ^ 53).
  split; [apply Z.mod_pos_bound; lia|reflexivity].
Qed.

Lemma draw_room_spec self s r s' :
  draw_room self s = (r, s') ->
  GameMap_rooms s' = GameMap_rooms s /\
  forall room, r = inr room ->
    room_fits (width self) (height self) room /\ s' = advance 4 s.
Proof.
  unfold draw_room. intros H.
  destruct (randint_cases MIN_SIZE MAX_SIZE s) as [(_ & E)|(_ & w & Hw & E)];
    [rewrite (bind_raise _ _ _ _ _ E) in H; inversion H; subst;
     split; [reflexivity|discriminate]|].
  rewrite (bind_run _ _ _ _ _ E) in H. clear E.
  destruct (randint_cases MIN_SIZE MAX_SIZE (advance 1 s))
    as [(_ & E)|(_ & h & Hh & E)];
    [rewrite (bind_raise _ _ _ _ _ E) in H; inversion H; subst;
     split; [reflexivity|discriminate]|].
  rewrite (bind_run _ _ _ _ _ E) in H. clear E.
  rewrite advance_advance in H.
  destruct (randint_cases 0 (width self - w - 1) (advance (1 + 1) s))
    as [(_ & E)|(_ & x & Hx & E)];
    [rewrite (bind_raise _ _ _ _ _ E) in H; inversion H; subst;
     split; [reflexivity|discriminate]|].
  rewrite (bind_run _ _ _ _ _ E) in H. clear E.
  rewrite advance_advance in H.
  destruct (randint_cases 0 (height self - h - 1) (advance (1 + (1 + 1)) s))
    as [(_ & E)|(_ & y & Hy & E)];
    [rewrite (bind_raise _ _ _ _ _ E) in H; inversion H; subst;
     split; [reflexivity|discriminate]|].
  rewrite (bind_run _ _ _ _ _ E) in H. clear E.
  rewrite advance_advance in H. unfold ret in H. inversion H; subst.
  split; [reflexivity|]. intros room [= <-]. split; [|reflexivity].
  unfold room_fits, room_drawn, Rect_init. simpl. lia.
Qed.

Lemma draw_room_total self s :
  MAX_SIZE < width self -> MAX_SIZE < height self ->
  exists room, draw_room self s = (inr room, advance 4 s) /\
               room_fits (width self) (height self) room.
Proof.
  intros HW HH. unfold draw_room. unfold MAX_SIZE in HW, HH.
  destruct (randint_cases MIN_SIZE MAX_SIZE s) as [(A & _)|(_ & w & Hw & E)];
    [unfold MIN_SIZE, MAX_SIZE in A; lia|].
  rewrite (bind_run _ _ _ _ _ E). clear E.
  destruct (randint_cases MIN_SIZE MAX_SIZE (advance 1 s))
    as [(A & _)|(_ & h & Hh & E)];
    [unfold MIN_SIZE, MAX_SIZE in A; lia|].
  rewrite (bind_run _ _ _ _ _ E). clear E. rewrite advance_advance.
  unfold MIN_SIZE, MAX_SIZE in Hw, Hh.
  destruct (randint_cases 0 (width self - w - 1) (advance (1 + 1) s))
    as [(A & _)|(_ & x & Hx & E)]; [lia|].
  rewrite (bind_run _ _ _ _ _ E). clear E. rewrite advance_advance.
  destruct (randint_cases 0 (height self - h - 1) (advance (1 + (1 + 1)) s))
    as [(A & _)|(_ & y & Hy & E)]; [lia|].
  rewrite (bind_run _ _ _ _ _ E). clear E. rewrite advance_advance.
  eexists. split; [reflexivity|].
  unfold room_fits, room_drawn, Rect_init, MIN_SIZE, MAX_SIZE. simpl. lia.
Qed.

Lemma intersects_sym a b : intersects a b = intersects b a.
Proof.
  unfold intersects. apply eq_iff_eq_true.
  rewrite !andb_true_iff, !Z.leb_le, !Z.geb_le. lia.
Qed.

Lemma existsb_false_all {A} (f : A -> bool) l x :
  existsb f l = false -> x ∈ l -> f x = false.
Proof.
  intros H Hin. destruct (f x) eqn:E; [|reflexivity].
  assert (existsb f l = true); [|congruence].
  apply existsb_exists. exists x. split; [|exact E].
  apply list_elem_of_In. exact Hin.
Qed.

Lemma pairwise_apart_snoc rooms r :
  pairwise_apart rooms -> existsb (intersects r) rooms = false ->
  pairwise_apart (rooms ++ [r]).
Proof.
  intros Hp Hr i j a b Hij Hi Hj.
  apply lookup_app_Some in Hi as [Hi|(Hi1 & Hi2)];
    apply lookup_app_Some in Hj as [Hj|(Hj1 & Hj2)].
  - eapply Hp; eassumption.
  - apply list_lookup_singleton_Some in Hj2 as (_ & <-).
    rewrite intersects_sym. eapply existsb_false_all; [exact Hr|].
    eapply list_elem_of_lookup_2. exact Hi.
  - apply list_lookup_singleton_Some in Hi2 as (_ & <-).
    eapply existsb_false_all; [exact Hr|].
    eapply list_elem_of_lookup_2. exact Hj.
  - apply list_lookup_singleton_Some in Hi2 as (Hi2 & _).
    apply list_lookup_singleton_Some in Hj2 as (Hj2 & _). lia.
Qed.

Lemma place_room_reject self room s :
  existsb (intersects room) (GameMap_rooms s) = true ->
  place_room self room s = (inr self, s).
Proof.
  intros H. unfold place_room, bind, self_rooms. cbn beta iota.
  rewrite H. reflexivity.
Qed.

Lemma place_room_first self room s :
  GameMap_rooms s = [] ->
  place_room self room s
  = (inr (dig_room self room), mkState (engine_rng s) [room]).
Proof.
  intros H. unfold place_room, bind, self_rooms, rooms_append, ret.
  cbn beta iota. rewrite H. cbn [existsb]. cbn beta iota. rewrite H.
  simpl. rewrite H. reflexivity.
Qed.

Lemma place_room_next self room s prev :
  existsb (intersects room) (GameMap_rooms s) = false ->
  last (GameMap_rooms s) = Some prev ->
  exists k, 0 <= k < 2 ^ 53 /\
    place_room self room s =
    match carve (dig_room self room)
            (tunnel_cells (lt_half k) (center prev) (center room)) with
    | inr m => (inr m, mkState (engine_rng (advance 1 s))
                         (GameMap_rooms s ++ [room]))
    | inl e => (inl e, advance 1 s)
    end.
Proof.
  intros Hex Hlast. destruct (random_run s) as (k & Hk & Hrun).
  exists k. split; [exact Hk|].
  assert (Hlen : negb (length (GameMap_rooms s) =? 0)%nat = true).
  { destruct (GameMap_rooms s); [discriminate|reflexivity]. }
  unfold place_room, bind, self_rooms. cbn beta iota.
  rewrite Hex. cbn beta iota. rewrite Hlast, Hlen.
  unfold tunnel_between, bind. rewrite Hrun.
  unfold ret, lift, rooms_append.
  destruct (carve _ _); reflexivity.
Qed.

Lemma dig_room_spec self room :
  grids_ok self ->
  same_frame self (dig_room self room) /\ grids_ok (dig_room self room) /\
  forall c, floor_at self c -> floor_at (dig_room self room) c.
Proof.
  intros Hok. split; [apply same_frame_with_tiles|].
  apply with_tiles_keeps; [exact Hok|apply keeps_fill].
Qed.

Lemma last_is_Some {A} (l : list A) : l <> [] -> exists x, last l = Some x.
Proof.
  intros H. destruct (last l) eqn:E; [eauto|].
  apply last_None in E. contradiction.
Qed.

(** Everything an attempt that returns can have done. *)
Lemma attempt_returns self s self' s' :
  attempt self s = (inr self', s') ->
  (self' = self /\ s' = advance 4 s /\
   exists room, existsb (intersects room) (GameMap_rooms s) = true) \/
  (exists room,
      room_fits (width self) (height self) room /\
      existsb (intersects room) (GameMap_rooms s) = false /\
      GameMap_rooms s' = GameMap_rooms s ++ [room] /\
      ((GameMap_rooms s = [] /\ self' = dig_room self room /\
        engine_rng s' = engine_rng (advance 4 s)) \/
       (exists prev k,
           last (GameMap_rooms s) = Some prev /\ 0 <= k < 2 ^ 53 /\
           carve (dig_room self room)
             (tunnel_cells (lt_half k) (center prev) (center room))
           = inr self' /\
           engine_rng s' = engine_rng (advance 5 s)))).
Proof.
  unfold attempt. intros H.
  apply bind_inr in H as (room & s1 & Hdraw & Hplace).
  destruct (draw_room_spec _ _ _ _ Hdraw) as (_ & Hroom).
  destruct (Hroom room eq_refl) as (Hfits & ->). clear Hroom Hdraw.
  destruct (existsb (intersects room) (GameMap_rooms (advance 4 s))) eqn:Hex.
  - rewrite (place_room_reject _ _ _ Hex) in Hplace.
    injection Hplace as <- <-. left. eauto.
  - right. exists room. rewrite advance_rooms in Hex.
    split; [exact Hfits|]. split; [exact Hex|].
    destruct (GameMap_rooms s) as [|r0 rs] eqn:Hrooms.
    + rewrite place_room_first in Hplace by exact Hrooms.
      injection Hplace as <- <-. simpl. split; [reflexivity|]. left. auto.
    + destruct (last_is_Some (r0 :: rs)) as (prev & Hlast); [discriminate|].
      destruct (place_room_next self room (advance 4 s) prev)
        as (k & Hk & Hrun).
      { rewrite advance_rooms, Hrooms. exact Hex. }
      { rewrite advance_rooms, Hrooms. exact Hlast. }
      rewrite Hrun in Hplace.
      destruct (carve _ _) as [e|m] eqn:Hcarve; [discriminate|].
      injection Hplace as <- <-. simpl. rewrite Hrooms.
      split; [reflexivity|]. right. exists prev, k.
      split; [exact Hlast|]. split; [exact Hk|].
      split; [exact Hcarve|reflexivity].
Qed.

(** What an attempt does to [GameMap.rooms], also when it raises. *)
Lemma attempt_rooms self s r s' :
  attempt self s = (r, s') ->
  GameMap_rooms s' = GameMap_rooms s \/
  exists room,
    GameMap_rooms s' = GameMap_rooms s ++ [room] /\
    existsb (intersects room) (GameMap_rooms s) = false /\
    room_fits (width self) (height self) room.
Proof.
  destruct r as [e|self'].
  - unfold attempt. intros H. left.
    apply bind_cases in H as [(e' & Hdraw & _)|(room & s1 & Hdraw & Hplace)].
    + apply draw_room_spec in Hdraw. tauto.
    + destruct (draw_room_spec _ _ _ _ Hdraw) as (_ & Hroom).
      destruct (Hroom room eq_refl) as (Hfits & ->). clear Hroom Hdraw.
      destruct (existsb (intersects room) (GameMap_rooms (advance 4 s)))
        eqn:Hex.
      * rewrite (place_room_reject _ _ _ Hex) in Hplace. discriminate.
      * destruct (GameMap_rooms s) as [|r0 rs] eqn:Hrooms.
        { rewrite place_room_first in Hplace by exact Hrooms. discriminate. }
        destruct (last_is_Some (r0 :: rs)) as (prev & Hlast); [discriminate|].
        destruct (place_room_next self room (advance 4 s) prev)
          as (k & Hk & Hrun).
        { exact Hex. }
        { rewrite advance_rooms, Hrooms. exact Hlast. }
        rewrite Hrun in Hplace.
        destruct (carve _ _) as [e0|m] eqn:Hcarve; [|discriminate].
        injection Hplace as _ <-. simpl. exact Hrooms.
  - intros H.
    apply attempt_returns in H as [(_ & -> & _)|(room & ? & ? & ? & _)].
    + left. reflexivity.
    + right. exists room. auto.
Qed.

(** ** The whole generation *)

Lemma GameMap_init_cases w h s :
  ((w < 0 \/ h < 0) /\ GameMap_init w h s = (inl ValueError, s)) \/
  (0 <= w /\ 0 <= h /\ GameMap_init w h s = generate_map (blank_map w h) s).
Proof.
  unfold GameMap_init, np_full, lift, bind.
  destruct (Z.ltb_spec w 0) as [Hw|Hw]; simpl.
  - left. split; [lia|reflexivity].
  - destruct (Z.ltb_spec h 0) as [Hh|Hh]; simpl.
    + left. split; [lia|reflexivity].
    + right. split; [exact Hw|]. split; [exact Hh|reflexivity].
Qed.

Lemma grids_ok_blank w h : 0 <= w -> 0 <= h -> grids_ok (blank_map w h).
Proof.
  intros Hw Hh. unfold grids_ok, well_shaped, blank_map. simpl.
  rewrite !length_replicate. auto 10.
Qed.

Lemma center_nonneg r :
  room_drawn r -> 0 <= fst (center r) /\ 0 <= snd (center r).
Proof.
  unfold room_drawn, center, MIN_SIZE. simpl. intros (?&?&?&?).
  split; apply Z.div_pos; lia.
Qed.

Lemma center_in_bounds self r :
  room_fits (width self) (height self) r ->
  in_bounds self (fst (center r)) (snd (center r)) = true.
Proof.
  intros (Hd & Hx & Hy). pose proof (center_nonneg r Hd) as (Hcx & Hcy).
  apply in_bounds_iff. destruct Hd as (?&?&?&?).
  unfold center, MIN_SIZE in *. simpl in *.
  assert ((x1 r + x2 r) / 2 <= x2 r) by (apply Z.div_le_upper_bound; lia).
  assert ((y1 r + y2 r) / 2 <= y2 r) by (apply Z.div_le_upper_bound; lia).
  lia.
Qed.

Lemma room_fits_drawn w h r : room_fits w h r -> room_drawn r.
Proof. intros (H & _). exact H. Qed.

Lemma linked_kept self self' a b :
  (forall c, floor_at self c -> floor_at self' c) ->
  linked self a b -> linked self' a b.
Proof.
  intros Hk (hf & Hall). exists hf.
  eapply Forall_impl; [exact Hall|]. exact Hk.
Qed.

(** What an attempt that returns leaves behind. *)
Lemma attempt_summary self s self' s' :
  attempt self s = (inr self', s') ->
  grids_ok self -> Forall room_drawn (GameMap_rooms s) ->
  same_frame self self' /\ grids_ok self' /\
  (forall c, floor_at self c -> floor_at self' c) /\
  (GameMap_rooms s' = GameMap_rooms s \/
   exists room,
     GameMap_rooms s' = GameMap_rooms s ++ [room] /\
     room_fits (width self) (height self) room /\
     existsb (intersects room) (GameMap_rooms s) = false /\
     forall prev, last (GameMap_rooms s) = Some prev -> linked self' prev room).
Proof.
  intros Hrun Hok Hrooms.
  apply attempt_returns in Hrun
    as [(-> & -> & _)|(room & Hfits & Hex & Happ & Hcase)].
  - split; [apply same_frame_refl|]. auto.
  - destruct (dig_room_spec self room Hok) as (Hf1 & Hok1 & Hk1).
    destruct Hcase as [(Hnil & -> & _)|(prev & k & Hlast & Hk & Hcarve & _)].
    + split; [exact Hf1|]. split; [exact Hok1|]. split; [exact Hk1|].
      right. exists room. split; [exact Happ|]. split; [exact Hfits|].
      split; [exact Hex|].
      intros prev Hprev. rewrite Hnil in Hprev. discriminate.
    + assert (Hprev : room_drawn prev).
      { apply last_Some in Hlast as (l' & Hl').
        rewrite Hl' in Hrooms. apply Forall_app in Hrooms as (_ & Hp).
        inversion Hp; assumption. }
      pose proof (center_nonneg _ Hprev) as (Hpx & Hpy).
      pose proof (center_nonneg _ (room_fits_drawn _ _ _ Hfits)) as (Hrx & Hry).
      destruct (tunnel_cells_joins (lt_half k) (center prev) (center room))
        as (_ & Hbox).
      assert (Hpos : Forall (fun c => 0 <= fst c /\ 0 <= snd c)
                       (tunnel_cells (lt_half k) (center prev) (center room))).
      { eapply Forall_impl; [exact Hbox|]. unfold boxed. intros c ?. lia. }
      destruct (carve_spec _ _ _ Hok1 Hpos Hcarve) as (Hf2 & Hok2 & Hall & Hk2).
      split; [exact (same_frame_trans _ _ _ Hf1 Hf2)|].
      split; [exact Hok2|]. split; [auto|].
      right. exists room. split; [exact Happ|]. split; [exact Hfits|].
      split; [exact Hex|].
      intros prev' Hprev'. rewrite Hlast in Hprev'. injection Hprev' as <-.
      exists (lt_half k). exact Hall.
Qed.

Lemma attempt_total self s :
  MAX_SIZE < width self -> MAX_SIZE < height self ->
  grids_ok self ->
  Forall (room_fits (width self) (height self)) (GameMap_rooms s) ->
  exists self' s', attempt self s = (inr self', s').
Proof.
  intros HW HH Hok Hrooms. unfold attempt.
  destruct (draw_room_total self s HW HH) as (room & Hdraw & Hfits).
  rewrite (bind_run _ _ _ _ _ Hdraw).
  destruct (existsb (intersects room) (GameMap_rooms (advance 4 s))) eqn:Hex.
  - rewrite (place_room_reject _ _ _ Hex). eauto.
  - destruct (GameMap_rooms s) as [|r0 rs] eqn:Hs.
    + rewrite place_room_first by exact Hs. eauto.
    + destruct (last_is_Some (r0 :: rs)) as (prev & Hlast); [discriminate|].
      destruct (place_room_next self room (advance 4 s) prev)
        as (k & Hk & Hrun).
      { exact Hex. }
      { rewrite advance_rooms, Hs. exact Hlast. }
      rewrite Hrun.
      assert (Hprev : room_fits (width self) (height self) prev).
      { apply last_Some in Hlast as (l' & Hl').
        rewrite Hl' in Hrooms. apply Forall_app in Hrooms as (_ & Hp).
        inversion Hp; assumption. }
      destruct (dig_room_spec self room Hok) as ((Hw1 & Hh1 & _) & Hok1 & _).
      destruct (carve_total
                  (tunnel_cells (lt_half k) (center prev) (center room))
                  (dig_room self room) Hok1) as (m & Hm).
      { destruct (tunnel_cells_joins (lt_half k) (center prev) (center room))
          as (_ & Hbox).
        eapply Forall_impl; [exact Hbox|]. intros c Hc.
        pose proof (center_in_bounds self _ Hprev) as Hp.
        pose proof (center_in_bounds self _ Hfits) as Hr.
        apply in_bounds_iff in Hp, Hr. apply in_bounds_iff.
        rewrite Hw1, Hh1. unfold boxed in Hc. lia. }
      rewrite Hm. eauto.
Qed.

Lemma attempt_rooms_inv self s r s' :
  rooms_inv s -> attempt self s = (r, s') -> rooms_inv s'.
Proof.
  intros (Hp & Hd) H. unfold rooms_inv.
  apply attempt_rooms in H as [->|(room & -> & Hex & Hfits)].
  - split; assumption.
  - split; [apply pairwise_apart_snoc; assumption|].
    apply Forall_app. split; [exact Hd|].
    constructor; [|constructor]. eapply room_fits_drawn. exact Hfits.
Qed.

Lemma attempt_extends rooms0 self s r s' :
  extends rooms0 s -> attempt self s = (r, s') -> extends rooms0 s'.
Proof.
  intros (added & Hs & Hadd) H. unfold extends.
  apply attempt_rooms in H as [->|(room & -> & Hex & _)].
  - exists added. auto.
  - exists (added ++ [room]). split; [rewrite Hs, app_assoc; reflexivity|].
    intros r1 r0 Hin H0. apply elem_of_app in Hin as [Hin|Hin]; [auto|].
    apply list_elem_of_singleton in Hin as ->.
    eapply existsb_false_all; [exact Hex|].
    rewrite Hs. apply elem_of_app. left. exact H0.
Qed.

(** A property of the state that every attempt keeps, whatever its
    outcome, is kept by a construction, whatever its outcome. *)
Lemma GameMap_init_state (P : State -> Prop) :
  (forall self s r s', P s -> attempt self s = (r, s') -> P s') ->
  forall w h s r s', P s -> GameMap_init w h s = (r, s') -> P s'.
Proof.
  intros Hstep w h s r s' HP H.
  destruct (GameMap_init_cases w h s) as [(_ & E)|(_ & _ & E)];
    rewrite E in H.
  - inversion H; subst. exact HP.
  - unfold generate_map in H.
    eapply (repeat_n_state P attempt Hstep); eassumption.
Qed.

Lemma reachable_rooms_inv s : reachable s -> rooms_inv s.
Proof.
  induction 1 as [g|s w h r s' _ IH Hinit|s g _ IH].
  - split; [|constructor]. intros i j a b _ Hi. discriminate.
  - eapply (GameMap_init_state rooms_inv); [|exact IH|exact Hinit].
    intros. eapply attempt_rooms_inv; eassumption.
  - exact IH.
Qed.

(** The invariant of the loop of [generate_map] along a run that
    returns: the grids keep their shape, and every room appended from
    position [n0] on is linked to its predecessor. *)
Lemma attempt_tunnelled n0 self s self' s' :
  attempt self s = (inr self', s') ->
  grids_ok self /\ Forall room_drawn (GameMap_rooms s) /\
  tunnelled n0 self (GameMap_rooms s) ->
  same_frame self self' /\
  grids_ok self' /\ Forall room_drawn (GameMap_rooms s') /\
  tunnelled n0 self' (GameMap_rooms s').
Proof.
  intros Hrun (Hok & Hd & Ht).
  destruct (attempt_summary _ _ _ _ Hrun Hok Hd)
    as (Hf & Hok' & Hk & [->|(room & -> & Hfits & _ & Hlink)]).
  - split; [exact Hf|]. split; [exact Hok'|]. split; [exact Hd|].
    intros i a b Hn Ha Hb. eapply linked_kept; [exact Hk|]. eauto.
  - split; [exact Hf|]. split; [exact Hok'|]. split.
    + apply Forall_app. split; [exact Hd|].
      constructor; [|constructor]. eapply room_fits_drawn. exact Hfits.
    + intros i a b Hn Ha Hb.
      apply lookup_app_Some in Hb as [Hb|(Hlen & Hb)].
      * rewrite lookup_app_l in Ha
          by (apply lookup_lt_Some in Hb; lia).
        eapply linked_kept; [exact Hk|]. eauto.
      * apply list_lookup_singleton_Some in Hb as (Hi & <-).
        assert (Hi' : i = Nat.pred (length (GameMap_rooms s))) by lia.
        rewrite lookup_app_l in Ha by lia.
        apply Hlink. rewrite last_lookup, <- Hi'. exact Ha.
Qed.

(** ** The generator: main theorems *)

Lemma intersects_spec a b :
  intersects a b = true <->
  x1 a <= x2 b /\ x2 a >= x1 b /\ y1 a <= y2 b /\ y2 a >= y1 b.
Proof.
  unfold intersects. rewrite !andb_true_iff, !Z.leb_le, !Z.geb_le. lia.
Qed.

(** C2. After any construction of a map, also one that follows other
    constructions in the same process and also one that raised, no two
    rooms of the room list intersect under the inclusive-bounds test
    [x1 <= other.x2 and x2 >= other.x1 and y1 <= other.y2 and
    y2 >= other.y1]; and a candidate that intersects a room of the list
    is rejected with the instance (its tiles) and the list unchanged. *)
Theorem accepted_rooms_never_intersect s w h r s' :
  reachable s -> GameMap_init w h s = (r, s') ->
  (forall i j a b,
      i <> j ->
      GameMap_rooms s' !! i = Some a -> GameMap_rooms s' !! j = Some b ->
      ~ (x1 a <= x2 b /\ x2 a >= x1 b /\ y1 a <= y2 b /\ y2 a >= y1 b)) /\
  (forall self room st,
      (exists other, other ∈ GameMap_rooms st /\
                     intersects room other = true) ->
      place_room self room st = (inr self, st)).
Proof.
  intros Hreach Hinit. split.
  - assert (Hinv : rooms_inv s').
    { apply reachable_rooms_inv. eapply reach_construct; eassumption. }
    destruct Hinv as (Hp & _). intros i j a b Hij Ha Hb Hint.
    apply intersects_spec in Hint. rewrite (Hp i j a b Hij Ha Hb) in Hint.
    discriminate.
  - intros self room st (other & Hin & Hint). apply place_room_reject.
    apply existsb_exists. exists other. split; [|exact Hint].
    apply list_elem_of_In. exact Hin.
Qed.

Lemma accepted_rooms_never_intersect_demo :
  reachable demo_state /\
  GameMap_init 40 30 demo_state = (inr demo_map1, demo_state1) /\
  (forall i j a b,
      i <> j ->
      GameMap_rooms demo_state1 !! i = Some a ->
      GameMap_rooms demo_state1 !! j = Some b ->
      ~ (x1 a <= x2 b /\ x2 a >= x1 b /\ y1 a <= y2 b /\ y2 a >= y1 b)).
Proof.
  assert (Hreach : reachable demo_state) by apply reach_start.
  assert (Hinit : GameMap_init 40 30 demo_state
                  = (inr demo_map1, demo_state1))
    by (vm_compute; reflexivity).
  split; [exact Hreach|]. split; [exact Hinit|].
  exact (proj1 (accepted_rooms_never_intersect demo_state 40 30
                  (inr demo_map1) demo_state1 Hreach Hinit)).
Defined.

Lemma other_half_spec k :
  0 <= k < 2 ^ 53 ->
  0 <= other_half k < 2 ^ 53 /\ other_half (other_half k) = k /\
  lt_half (other_half k) = negb (lt_half k).
Proof.
  intros Hk. unfold other_half, lt_half.
  change (2 ^ 53) with 9007199254740992 in *.
  change (2 ^ 52) with 4503599627370496 in *.
  destruct (Z.ltb_spec k 4503599627370496) as [Hlt|Hge].
  - rewrite (Z.mod_small (k + 4503599627370496)) by lia.
    replace (k + 4503599627370496 + 4503599627370496)
      with (k + 1 * 9007199254740992) by lia.
    rewrite Z.mod_add by lia. rewrite Z.mod_small by lia.
    split; [lia|]. split; [reflexivity|].
    simpl. apply Z.ltb_ge. lia.
  - replace (k + 4503599627370496)
      with (k - 4503599627370496 + 1 * 9007199254740992) by lia.
    rewrite Z.mod_add by lia.
    rewrite (Z.mod_small (k - 4503599627370496)) by lia.
    replace (k - 4503599627370496 + 4503599627370496) with k by lia.
    rewrite Z.mod_small by lia.
    split; [lia|]. split; [reflexivity|].
    simpl. apply Z.ltb_lt. lia.
Qed.

(** C3. In every map whose construction returned, every room appended
    by that construction is connected to the room accepted just before it
    (the last room of the list at that time) by an L-shaped corridor
    between the two centers: two Bresenham segments through a corner that
    shares one coordinate with each center, forming a walk of adjacent
    cells, every one of them on the grid and FLOOR.  The corner is
    decided by the value [random()] returns when the tunnel is asked
    for: with [k / 2^53] the float returned, the tunnel goes
    horizontally first exactly when [k < 2^52], that is when
    [random() < 0.5], and vertically first otherwise; the corridor that
    [generate_map] carves for an accepted room is the tunnel of this
    draw.  Every [k] below [2^53] is the draw of some random source,
    [k < 2^52] says that [k / 2^53] is below one half, and [other_half]
    pairs the draws of the one orientation with those of the other, so
    each orientation takes exactly half of the equally likely values of
    [random()]. *)
Theorem consecutive_rooms_are_tunnelled s w h m s' :
  reachable s -> GameMap_init w h s = (inr m, s') ->
  (exists added, GameMap_rooms s' = GameMap_rooms s ++ added) /\
  (forall i a b,
      (length (GameMap_rooms s) <= Datatypes.S i)%nat ->
      GameMap_rooms s' !! i = Some a ->
      GameMap_rooms s' !! Datatypes.S i = Some b ->
      exists corner,
        (corner = (fst (center b), snd (center a)) \/
         corner = (fst (center a), snd (center b))) /\
        joins (bresenham (center a) corner ++ bresenham corner (center b))
              (center a) (center b) /\
        Forall (floor_at m)
               (bresenham (center a) corner ++ bresenham corner (center b))) /\
  (forall st,
      exists k, 0 <= k < 2 ^ 53 /\ random st = (inr k, advance 1 st)) /\
  (forall start stop st k,
      random st = (inr k, advance 1 st) ->
      tunnel_between start stop st
      = (inr (bresenham start
                (if k <? 2 ^ 52 then (fst stop, snd start)
                 else (fst start, snd stop))
              ++ bresenham
                (if k <? 2 ^ 52 then (fst stop, snd start)
                 else (fst start, snd stop)) stop),
         advance 1 st)) /\
  (forall self room st prev k,
      existsb (intersects room) (GameMap_rooms st) = false ->
      last (GameMap_rooms st) = Some prev ->
      random st = (inr k, advance 1 st) ->
      place_room self room st
      = match carve (dig_room self room)
                (bresenham (center prev)
                   (if k <? 2 ^ 52 then (fst (center room), snd (center prev))
                    else (fst (center prev), snd (center room)))
                 ++ bresenham
                   (if k <? 2 ^ 52 then (fst (center room), snd (center prev))
                    else (fst (center prev), snd (center room)))
                   (center room)) with
        | inr m' => (inr m', mkState (engine_rng (advance 1 st))
                               (GameMap_rooms st ++ [room]))
        | inl e => (inl e, advance 1 st)
        end) /\
  (forall k, 0 <= k < 2 ^ 53 ->
      (exists g, forall rooms,
          random (mkState g rooms) = (inr k, advance 1 (mkState g rooms))) /\
      ((k <? 2 ^ 52) = true <-> 2 * k < 2 ^ 53) /\
      0 <= other_half k < 2 ^ 53 /\ other_half (other_half k) = k /\
      (other_half k <? 2 ^ 52) = negb (k <? 2 ^ 52)).
Proof.
  intros Hreach Hinit.
  pose proof (reachable_rooms_inv s Hreach) as (_ & Hdrawn).
  split; [|split; [|split; [|split; [|split]]]].
  - assert (Hext : extends (GameMap_rooms s) s').
    { eapply (GameMap_init_state (extends (GameMap_rooms s)));
        [|exists []; rewrite app_nil_r; split;
            [reflexivity|intros ? ? Hin; inversion Hin]
         |exact Hinit].
      intros. eapply attempt_extends; eassumption. }
    destruct Hext as (added & Hadd & _). eauto.
  - destruct (GameMap_init_cases w h s) as [(_ & E)|(Hw & Hh & E)];
      rewrite E in Hinit; [discriminate|].
    unfold generate_map in Hinit.
    pose (n0 := length (GameMap_rooms s)).
    assert (Hfinal : grids_ok m /\ Forall room_drawn (GameMap_rooms s') /\
                     tunnelled n0 m (GameMap_rooms s')).
    { eapply (repeat_n_inr
                (fun self st => grids_ok self /\
                                Forall room_drawn (GameMap_rooms st) /\
                                tunnelled n0 self (GameMap_rooms st)));
        [| |exact Hinit].
      - intros b st b' st' HP Hrun.
        eapply attempt_tunnelled in Hrun; [|exact HP]. tauto.
      - split; [apply grids_ok_blank; assumption|]. split; [exact Hdrawn|].
        intros i a b Hn Ha Hb. apply lookup_lt_Some in Hb.
        unfold n0 in Hn. lia. }
    destruct Hfinal as (_ & _ & Ht).
    intros i a b Hn Ha Hb. destruct (Ht i a b Hn Ha Hb) as (hf & Hall).
    destruct (tunnel_cells_joins hf (center a) (center b)) as (Hj & _).
    unfold tunnel_cells in *.
    exists (if hf then (fst (center b), snd (center a))
            else (fst (center a), snd (center b))).
    split; [destruct hf; auto|]. split; assumption.
  - exact random_run.
  - intros start stop st k Hrun.
    unfold tunnel_between. rewrite (bind_run _ _ _ _ _ Hrun). reflexivity.
  - intros self room st prev k Hex Hlast Hrun.
    assert (Hlen : negb (length (GameMap_rooms st) =? 0)%nat = true).
    { destruct (GameMap_rooms st); [discriminate|reflexivity]. }
    unfold place_room, bind, self_rooms. cbn beta iota.
    rewrite Hex. cbn beta iota. rewrite Hlast, Hlen.
    unfold tunnel_between, bind. rewrite Hrun.
    unfold ret, lift, rooms_append.
    change (tunnel_cells (lt_half k) (center prev) (center room))
      with (bresenham (center prev)
              (if k <? 2 ^ 52 then (fst (center room), snd (center prev))
               else (fst (center prev), snd (center room)))
            ++ bresenham
              (if k <? 2 ^ 52 then (fst (center room), snd (center prev))
               else (fst (center prev), snd (center room)))
              (center room)).
    destruct (carve _ _); reflexivity.
  - intros k Hk. split.
    + exists (mkRandom (fun _ => k) 0). intros rooms.
      unfold random, random_on, draw. cbn [engine_rng tape cursor].
      rewrite Z.mod_small by exact Hk. reflexivity.
    + split; [|exact (other_half_spec k Hk)].
      rewrite Z.ltb_lt. change (2 ^ 53) with (2 * 2 ^ 52). lia.
Qed.

Lemma consecutive_rooms_are_tunnelled_demo :
  reachable demo_state /\
  GameMap_init 40 30 demo_state = (inr demo_map1, demo_state1) /\
  (forall i a b,
      (length (GameMap_rooms demo_state) <= Datatypes.S i)%nat ->
      GameMap_rooms demo_state1 !! i = Some a ->
      GameMap_rooms demo_state1 !! Datatypes.S i = Some b ->
      exists corner,
        (corner = (fst (center b), snd (center a)) \/
         corner = (fst (center a), snd (center b))) /\
        joins (bresenham (center a) corner ++ bresenham corner (center b))
              (center a) (center b) /\
        Forall (floor_at demo_map1)
               (bresenham (center a) corner ++ bresenham corner (center b))).
Proof.
  assert (Hreach : reachable demo_state) by apply reach_start.
  assert (Hinit : GameMap_init 40 30 demo_state
                  = (inr demo_map1, demo_state1))
    by (vm_compute; reflexivity).
  split; [exact Hreach|]. split; [exact Hinit|].
  exact (proj1 (proj2 (consecutive_rooms_are_tunnelled demo_state 40 30
                         demo_map1 demo_state1 Hreach Hinit))).
Defined.

(** The loop of [generate_map] on a grid that every candidate fits on,
    started on rooms that lie on the grid: each of the [n] attempts
    returns. *)
Lemma attempts_total w h c0 n :
  MAX_SIZE < w -> MAX_SIZE < h ->
  forall self s,
    width self = w -> height self = h -> grids_ok self ->
    GameMap_rooms s = [] -> cursor (engine_rng s) = c0 ->
    exists self' s',
      repeat_n n attempt self s = (inr self', s') /\
      (length (GameMap_rooms s') <= n)%nat /\
      ((0 < n)%nat -> (0 < length (GameMap_rooms s'))%nat) /\
      cursor (engine_rng s')
      = (c0 + 4 * n + Nat.pred (length (GameMap_rooms s')))%nat.
Proof.
  intros HW HH self s Hw Hh Hok Hnil Hc.
  pose (P := fun (k : nat) (m : GameMap) (st : State) =>
               width m = w /\ height m = h /\ grids_ok m /\
               Forall (room_fits w h) (GameMap_rooms st) /\
               (length (GameMap_rooms st) <= k)%nat /\
               ((0 < k)%nat -> (0 < length (GameMap_rooms st))%nat) /\
               cursor (engine_rng st)
               = (c0 + 4 * k + Nat.pred (length (GameMap_rooms st)))%nat).
  destruct (repeat_n_total P attempt) with (n := n) (k := 0%nat)
                                           (b := self) (s := s)
    as (self' & s' & Hrun & HP).
  - intros k m st (Hmw & Hmh & Hmok & Hfit & Hlen & Hpos & Hcur).
    destruct (attempt_total m st) as (m' & st' & Hrun);
      [rewrite Hmw; exact HW|rewrite Hmh; exact HH|exact Hmok
      |rewrite Hmw, Hmh; exact Hfit|].
    exists m', st'. split; [exact Hrun|].
    assert (Hdrawn : Forall room_drawn (GameMap_rooms st))
      by (eapply Forall_impl; [exact Hfit|apply room_fits_drawn]).
    destruct (attempt_summary _ _ _ _ Hrun Hmok Hdrawn)
      as ((Hw' & Hh' & _) & Hok' & _ & _).
    unfold P. rewrite Hw', Hh'.
    split; [exact Hmw|]. split; [exact Hmh|]. split; [exact Hok'|].
    apply attempt_returns in Hrun
      as [(_ & -> & room & Hex)|(room & Hroom & _ & Happ & Hcase)].
    + rewrite advance_rooms. simpl. split; [exact Hfit|].
      assert (0 < length (GameMap_rooms st))%nat.
      { destruct (GameMap_rooms st); [discriminate|simpl; lia]. }
      rewrite Hcur. lia.
    + rewrite Happ, length_app. simpl. split.
      { apply Forall_app. split; [exact Hfit|].
        constructor; [|constructor]. rewrite <- Hmw, <- Hmh. exact Hroom. }
      destruct Hcase as [(Hnil' & _ & ->)|(prev & j & Hlast & _ & _ & ->)].
      * simpl. rewrite Hcur, Hnil'. simpl. lia.
      * simpl. rewrite Hcur.
        assert (0 < length (GameMap_rooms st))%nat.
        { destruct (GameMap_rooms st); [discriminate|simpl; lia]. }
        lia.
  - unfold P. rewrite Hnil. simpl.
    split; [exact Hw|]. split; [exact Hh|]. split; [exact Hok|].
    split; [constructor|]. split; [lia|]. split; lia.
  - exists self', s'. split; [exact Hrun|].
    destruct HP as (_ & _ & _ & _ & Hlen & Hpos & Hcur).
    rewrite Nat.add_0_r in *. auto.
Qed.

(** C4, as amended.  On a grid wider and higher than [MAX_SIZE], so that
    every room size the generator can draw leaves a non-empty range for
    the top-left corner, and starting from an empty room list, the
    construction returns: all [MAX_ROOMS] = 30 attempts run and each of
    them returns (a colliding candidate is skipped without an error), four
    [randint] draws per attempt and one [random] draw per tunnel are
    consumed, and the room list ends with between 1 and 30 rooms. *)
Theorem generation_runs_thirty_attempts s w h :
  MAX_SIZE < w -> MAX_SIZE < h -> GameMap_rooms s = [] ->
  exists m s',
    GameMap_init w h s = (inr m, s') /\
    steps attempt 30 (blank_map w h) s m s' /\
    (1 <= length (GameMap_rooms s') <= 30)%nat /\
    cursor (engine_rng s')
    = (cursor (engine_rng s) + 4 * 30 + (length (GameMap_rooms s') - 1))%nat.
Proof.
  intros HW HH Hnil. unfold MAX_SIZE in *.
  destruct (GameMap_init_cases w h s) as [(Hneg & _)|(Hw & Hh & E)]; [lia|].
  destruct (attempts_total w h (cursor (engine_rng s)) 30 HW HH
              (blank_map w h) s eq_refl eq_refl
              (grids_ok_blank w h Hw Hh) Hnil eq_refl)
    as (m & s' & Hrun & Hlen & Hpos & Hcur).
  exists m, s'. rewrite E. unfold generate_map.
  change (Z.to_nat MAX_ROOMS) with 30%nat.
  split; [exact Hrun|]. split; [apply repeat_n_steps; exact Hrun|].
  split; [lia|]. rewrite Hcur. lia.
Qed.

Lemma generation_runs_thirty_attempts_demo :
  exists m s',
    GameMap_init 40 30 demo_state = (inr m, s') /\
    steps attempt 30 (blank_map 40 30) demo_state m s' /\
    (1 <= length (GameMap_rooms s') <= 30)%nat /\
    cursor (engine_rng s')
    = (cursor (engine_rng demo_state) + 4 * 30
       + (length (GameMap_rooms s') - 1))%nat.
Proof.
  apply (generation_runs_thirty_attempts demo_state 40 30).
  - reflexivity.
  - reflexivity.
  - reflexivity.
Defined.

(** C4 as stated fails: a 10 x 10 grid hosts a 6 x 6 room, but when the
    first candidate is drawn ten cells wide the range for its left edge
    is empty, [randint] raises [ValueError] in the first attempt and the
    room list stays empty. *)
Lemma generation_small_grid_raises :
  room_fits 10 10 (Rect_init 1 1 MIN_SIZE MIN_SIZE) /\
  GameMap_init 10 10 wide_state
  = (inl ValueError, mkState (mkRandom wide_tape 2) []) /\
  ~ (exists m s',
        GameMap_init 10 10 wide_state = (inr m, s') /\
        (1 <= length (GameMap_rooms s') <= 30)%nat).
Proof.
  assert (E : GameMap_init 10 10 wide_state
              = (inl ValueError, mkState (mkRandom wide_tape 2) []))
    by (vm_compute; reflexivity).
  split; [|split].
  - unfold room_fits, room_drawn, Rect_init, MIN_SIZE, MAX_SIZE. simpl. lia.
  - exact E.
  - intros (m & s' & H & _). rewrite E in H. discriminate.
Qed.

Lemma carve_same_frame cells :
  forall self self', carve self cells = inr self' -> same_frame self self'.
Proof.
  intros self self' H. unfold carve in H.
  eapply (res_fold_inr (same_frame self)); [|apply same_frame_refl|exact H].
  intros m c m' _ Hm Hset. unfold set_tile in Hset.
  apply res_bind_inr in Hset as (t & _ & [= <-]).
  eapply same_frame_trans; [exact Hm|apply same_frame_with_tiles].
Qed.

Lemma attempt_same_frame self s self' s' :
  attempt self s = (inr self', s') -> same_frame self self'.
Proof.
  intros H.
  apply attempt_returns in H as [(-> & _)|(room & _ & _ & _ & Hcase)].
  - apply same_frame_refl.
  - destruct Hcase as [(_ & -> & _)|(prev & k & _ & _ & Hcarve & _)].
    + apply same_frame_with_tiles.
    + eapply same_frame_trans; [|eapply carve_same_frame; exact Hcarve].
      apply same_frame_with_tiles.
Qed.

(** A construction that returns has run the loop on the blank instance. *)
Lemma GameMap_init_returns w h s m s' :
  GameMap_init w h s = (inr m, s') ->
  0 <= w /\ 0 <= h /\
  repeat_n (Z.to_nat MAX_ROOMS) attempt (blank_map w h) s = (inr m, s').
Proof.
  intros H. destruct (GameMap_init_cases w h s) as [(_ & E)|(Hw & Hh & E)];
    rewrite E in H; [discriminate|]. auto.
Qed.

Lemma GameMap_init_same_frame w h s m s' :
  GameMap_init w h s = (inr m, s') -> same_frame (blank_map w h) m.
Proof.
  intros H. apply GameMap_init_returns in H as (_ & _ & H).
  eapply (repeat_n_inr (fun self _ => same_frame (blank_map w h) self));
    [|apply same_frame_refl|exact H].
  intros b st b' st' Hb Hrun. eapply same_frame_trans; [exact Hb|].
  eapply attempt_same_frame. exact Hrun.
Qed.

Lemma GameMap_init_nonempty w h s m s' :
  GameMap_init w h s = (inr m, s') -> GameMap_rooms s' <> [].
Proof.
  intros H. apply GameMap_init_returns in H as (_ & _ & H).
  change (Z.to_nat MAX_ROOMS) with 30%nat in H.
  assert (HP : (0 < 30 + 0)%nat -> GameMap_rooms s' <> []); [|apply HP; lia].
  eapply (repeat_n_counted
            (fun k _ st => (0 < k)%nat -> GameMap_rooms st <> []));
    [| |exact H].
  - intros k b st b' st' _ Hrun _.
    apply attempt_returns in Hrun
      as [(_ & -> & room & Hex)|(room & _ & _ & -> & _)].
    + rewrite advance_rooms. destruct (GameMap_rooms st); [discriminate|].
      discriminate.
    + intros Hnil. apply app_eq_nil in Hnil as (_ & ?). discriminate.
  - simpl. lia.
Qed.

(** C5. [GameMap.rooms] is one list for all instances: when a second map
    is constructed after a first one, its generation starts on the list
    the first construction left, which is not empty; every room the
    second construction appends was tested against the first map's rooms
    (it intersects none of them) and is appended to that same list; and
    afterwards [rooms] read through the first instance and read through
    the second instance are the same list, holding the rooms of both. *)
Theorem rooms_list_is_shared s0 w1 h1 m1 s1 g w2 h2 m2 s2 :
  GameMap_init w1 h1 s0 = (inr m1, s1) ->
  GameMap_init w2 h2 (mkState g (GameMap_rooms s1)) = (inr m2, s2) ->
  GameMap_rooms s1 <> [] /\
  (exists added,
      GameMap_rooms s2 = GameMap_rooms s1 ++ added /\
      forall r r1, r ∈ added -> r1 ∈ GameMap_rooms s1 ->
                   intersects r r1 = false) /\
  self_rooms m1 s2 = (inr (GameMap_rooms s2), s2) /\
  self_rooms m2 s2 = (inr (GameMap_rooms s2), s2).
Proof.
  intros H1 H2. split; [eapply GameMap_init_nonempty; exact H1|].
  split; [|split; reflexivity].
  eapply (GameMap_init_state (extends (GameMap_rooms s1))) in H2.
  - exact H2.
  - intros. eapply attempt_extends; eassumption.
  - exists []. simpl. rewrite app_nil_r. split; [reflexivity|].
    intros ? ? Hin. inversion Hin.
Qed.

Lemma rooms_list_is_shared_demo :
  GameMap_rooms demo_state1 <> [] /\
  (exists added,
      GameMap_rooms demo_state3 = GameMap_rooms demo_state1 ++ added /\
      forall r r1, r ∈ added -> r1 ∈ GameMap_rooms demo_state1 ->
                   intersects r r1 = false) /\
  self_rooms demo_map1 demo_state3
  = (inr (GameMap_rooms demo_state3), demo_state3) /\
  self_rooms demo_map3 demo_state3
  = (inr (GameMap_rooms demo_state3), demo_state3).
Proof.
  apply (rooms_list_is_shared demo_state 40 30 demo_map1 demo_state1
           (engine_rng demo_state1) 80 45 demo_map3 demo_state3).
  - vm_compute. reflexivity.
  - vm_compute. reflexivity.
Defined.

(** ** populate_blocked *)

Lemma in_zrange a b k : In k (zrange a b) <-> a <= k < b.
Proof.
  unfold zrange. rewrite in_map_iff. split.
  - intros (n & <- & Hn). apply in_seq in Hn. lia.
  - intros H. exists (Z.to_nat (k - a)). split; [lia|].
    apply in_seq. lia.
Qed.

Lemma ndenumerate_in {A} (a : NDArray A) i j v :
  In ((i, j), v) (ndenumerate a) <->
  0 <= i < dim0 a /\ 0 <= j < dim1 a /\ data a !! flat a i j = Some v.
Proof.
  unfold ndenumerate. rewrite in_flat_map. split.
  - intros (i' & Hi & Hin). apply in_flat_map in Hin as (j' & Hj & Hin).
    apply in_zrange in Hi, Hj.
    destruct (data a !! flat a i' j') as [v'|] eqn:E; [|inversion Hin].
    destruct Hin as [[= <- <- <-]|[]]. auto.
  - intros (Hi & Hj & E). exists i. split; [apply in_zrange; lia|].
    apply in_flat_map. exists j. split; [apply in_zrange; lia|].
    rewrite E. left. reflexivity.
Qed.

Lemma ndenumerate_length {A} (a : NDArray A) :
  well_shaped a -> length (ndenumerate a) = Z.to_nat (dim0 a * dim1 a).
Proof.
  intros (H0 & H1 & Hlen). unfold ndenumerate.
  assert (Hrow : forall i, 0 <= i < dim0 a ->
            length (flat_map (fun j =>
                      match data a !! flat a i j with
                      | Some v => [((i, j), v)]
                      | None => []
                      end) (zrange 0 (dim1 a))) = Z.to_nat (dim1 a)).
  { intros i Hi.
    assert (Hall : forall js, (forall j, In j js -> 0 <= j < dim1 a) ->
              length (flat_map (fun j =>
                        match data a !! flat a i j with
                        | Some v => [((i, j), v)]
                        | None => []
                        end) js) = length js).
    { induction js as [|j js IH]; intros Hjs; [reflexivity|].
      simpl. rewrite length_app, IH by (intros; apply Hjs; now right).
      assert (Hj : 0 <= j < dim1 a) by (apply Hjs; now left).
      destruct (lookup_lt_is_Some_2 (data a) (flat a i j)) as (v & ->);
        [|reflexivity].
      apply flat_lt; [repeat split; assumption|exact Hi|exact Hj]. }
    rewrite Hall by (intros j Hj; apply in_zrange in Hj; exact Hj).
    unfold zrange. rewrite length_map, length_seq. f_equal. lia. }
  assert (Hrows : forall is_, (forall i, In i is_ -> 0 <= i < dim0 a) ->
            length (flat_map (fun i =>
                      flat_map (fun j =>
                        match data a !! flat a i j with
                        | Some v => [((i, j), v)]
                        | None => []
                        end) (zrange 0 (dim1 a))) is_)
            = (length is_ * Z.to_nat (dim1 a))%nat).
  { induction is_ as [|i is_ IH]; intros His; [reflexivity|].
    simpl. rewrite length_app, IH by (intros; apply His; now right).
    rewrite Hrow by (apply His; now left). reflexivity. }
  rewrite Hrows by (intros i Hi; apply in_zrange in Hi; exact Hi).
  unfold zrange. rewrite length_map, length_seq.
  rewrite Z.sub_0_r, <- Z2Nat.inj_mul by assumption. reflexivity.
Qed.

Lemma same_but_blocked_refl m : same_but_blocked m m.
Proof. unfold same_but_blocked. auto 10. Qed.

Lemma same_but_blocked_trans a b c :
  same_but_blocked a b -> same_but_blocked b c -> same_but_blocked a c.
Proof.
  unfold same_but_blocked. intros (?&?&?&?&?&?&?) (?&?&?&?&?&?&?).
  repeat split; congruence.
Qed.

(** The loop of [populate_blocked] over a list of enumerated cells of the
    grid [T]. *)
Lemma populate_fold (T : NDArray Z) its :
  (forall i j v, In ((i, j), v) its ->
     0 <= i < dim0 T /\ 0 <= j < dim1 T /\ nd_get T i j = inr v) ->
  forall m,
    dim0 (blocked m) = dim0 T -> dim1 (blocked m) = dim1 T ->
    well_shaped (blocked m) ->
    exists m',
      res_fold its
        (fun m it =>
           res_bind (nd_set (blocked m) (fst (fst it)) (snd (fst it))
                       (snd it =? TileType_value WALL))
             (fun b => inr (with_blocked m b))) m = inr m' /\
      same_but_blocked m m' /\
      dim0 (blocked m') = dim0 T /\ dim1 (blocked m') = dim1 T /\
      well_shaped (blocked m') /\
      (forall i j v, In ((i, j), v) its -> blocked_agrees T m' (i, j)) /\
      (forall c, 0 <= fst c < dim0 T -> 0 <= snd c < dim1 T ->
         blocked_agrees T m c -> blocked_agrees T m' c).
Proof.
  induction its as [|[[i j] v] its IH]; intros Hits m Hd0 Hd1 Hs.
  - exists m. simpl. split; [reflexivity|].
    split; [apply same_but_blocked_refl|].
    split; [exact Hd0|]. split; [exact Hd1|]. split; [exact Hs|].
    split; [intros ? ? ? []|auto].
  - destruct (Hits i j v) as (Hi & Hj & Hv); [now left|].
    cbn [res_fold fst snd]. unfold nd_set.
    rewrite (norm_index_in (dim0 (blocked m)) i) by lia.
    rewrite (norm_index_in (dim1 (blocked m)) j) by lia.
    cbn [res_bind].
    set (m1 := with_blocked m
                 (nd_put (blocked m) i j (v =? TileType_value WALL))).
    assert (Hstep : forall c, 0 <= fst c < dim0 T -> 0 <= snd c < dim1 T ->
                      blocked_agrees T m c -> blocked_agrees T m1 c).
    { intros [x y] Hx Hy (t & Ht & Hb). unfold blocked_agrees, m1.
      cbn [blocked with_blocked fst snd] in *.
      destruct (decide ((i, j) = (x, y))) as [[= <- <-]|Hne].
      - exists v. split; [exact Hv|].
        apply nd_get_put_eq; [exact Hs|lia|lia].
      - exists t. split; [exact Ht|].
        rewrite nd_get_put_ne; [exact Hb|lia|lia|lia|lia|exact Hne]. }
    assert (Hnew : blocked_agrees T m1 (i, j)).
    { exists v. split; [exact Hv|]. unfold m1.
      cbn [blocked with_blocked fst snd].
      apply nd_get_put_eq; [exact Hs|lia|lia]. }
    destruct (IH (fun i' j' v' H => Hits i' j' v' (or_intror H)) m1)
      as (m' & Hrun & Hframe & Hd0' & Hd1' & Hs' & Hin & Hkeep);
      [exact Hd0|exact Hd1|apply nd_put_well_shaped; exact Hs|].
    exists m'. split; [exact Hrun|].
    split; [eapply same_but_blocked_trans; [|exact Hframe];
            unfold same_but_blocked; simpl; auto 10|].
    split; [exact Hd0'|]. split; [exact Hd1'|]. split; [exact Hs'|].
    split.
    + intros i' j' v' [[= -> -> ->]|Hin'].
      * apply Hkeep; [simpl; lia|simpl; lia|exact Hnew].
      * eapply Hin. exact Hin'.
    + intros c Hx Hy Hc. apply Hkeep; auto.
Qed.

Lemma carve_grids_ok cells :
  forall self self',
    grids_ok self -> carve self cells = inr self' -> grids_ok self'.
Proof.
  intros self self' Hok H. unfold carve in H.
  eapply (res_fold_inr grids_ok); [|exact Hok|exact H].
  intros m c m' _ Hm Hset. unfold set_tile, nd_set in Hset.
  apply res_bind_inr in Hset as (t & Hset & [= <-]).
  apply res_bind_inr in Hset as (i & _ & Hset).
  apply res_bind_inr in Hset as (j & _ & [= <-]).
  apply with_tiles_keeps; [exact Hm|apply keeps_put].
Qed.

(** Every map a construction returns has grids of the map's own
    dimensions. *)
Lemma GameMap_init_grids_ok w h s m s' :
  GameMap_init w h s = (inr m, s') -> grids_ok m.
Proof.
  intros H. apply GameMap_init_returns in H as (Hw & Hh & H).
  apply (repeat_n_inr (fun self _ => grids_ok self) attempt)
    with (n := Z.to_nat MAX_ROOMS) (b := blank_map w h) (s := s) (s' := s');
    [|apply grids_ok_blank; assumption|exact H].
  intros b st b' st' Hb Hrun.
  apply attempt_returns in Hrun as [(-> & _)|(room & _ & _ & _ & Hcase)];
    [exact Hb|].
  destruct (dig_room_spec b room Hb) as (_ & Hdig & _).
  destruct Hcase as [(_ & -> & _)|(prev & k & _ & _ & Hcarve & _)];
    [exact Hdig|].
  eapply carve_grids_ok; [exact Hdig|exact Hcarve].
Qed.

(** C6. On a map whose grids have the map's dimensions, as those of
    every constructed map have, [populate_blocked] returns; it visits each of the width * height
    cells, changes nothing but the blocked layer, and afterwards
    [blocked[x, y]] equals [tiles[x, y] == WALL] at every in-bounds
    coordinate.  A later store into [tiles] leaves [blocked] as it is: a
    wall cell turned into floor is still reported as blocked until
    [populate_blocked] runs again. *)
Theorem populate_blocked_spec self :
  grids_ok self ->
  exists self',
    populate_blocked self = inr self' /\
    same_but_blocked self self' /\
    length (ndenumerate (tiles self))
    = Z.to_nat (width self * height self) /\
    (forall x y,
        in_bounds self x y = true ->
        exists t,
          nd_get (tiles self') x y = inr t /\
          is_blocked self' x y = inr (t =? TileType_value WALL)) /\
    (forall x y v m,
        set_tile self' x y v = inr m -> blocked m = blocked self') /\
    (forall x y m,
        in_bounds self x y = true ->
        nd_get (tiles self) x y = inr (TileType_value WALL) ->
        set_tile self' x y (TileType_value FLOOR) = inr m ->
        nd_get (tiles m) x y = inr (TileType_value FLOOR) /\
        is_blocked m x y = inr true).
Proof.
  intros Hok. pose proof Hok as (Hw & Hh & Hs & Hbw & Hbh & Hbs).
  destruct (populate_fold (tiles self) (ndenumerate (tiles self))) with
    (m := self) as (self' & Hrun & Hframe & Hd0 & Hd1 & Hs' & Hin & _).
  - intros i j v H. apply ndenumerate_in in H as (Hi & Hj & E).
    split; [exact Hi|]. split; [exact Hj|].
    rewrite nd_get_in by assumption. rewrite E. reflexivity.
  - congruence.
  - congruence.
  - exact Hbs.
  - assert (Hcell : forall x y, in_bounds self x y = true ->
              exists t, nd_get (tiles self) x y = inr t /\
                        In ((x, y), t) (ndenumerate (tiles self))).
    { intros x y Hxy. apply in_bounds_iff in Hxy.
      destruct (lookup_lt_is_Some_2 (data (tiles self))
                  (flat (tiles self) x y)) as (t & E);
        [apply flat_lt; [exact Hs|lia|lia]|].
      exists t. rewrite nd_get_in, E by lia. split; [reflexivity|].
      apply ndenumerate_in. split; [lia|]. split; [lia|exact E]. }
    assert (Hagree : forall x y, in_bounds self x y = true ->
              exists t, nd_get (tiles self') x y = inr t /\
                is_blocked self' x y = inr (t =? TileType_value WALL)).
    { intros x y Hxy. destruct (Hcell x y Hxy) as (t & Ht & Hent).
      destruct (Hin x y t Hent) as (t' & Ht' & Hb). simpl in Ht', Hb.
      exists t'. destruct Hframe as (_ & _ & -> & _).
      split; [exact Ht'|exact Hb]. }
    exists self'. split; [exact Hrun|]. split; [exact Hframe|].
    split; [rewrite ndenumerate_length, Hw, Hh by exact Hs; reflexivity|].
    split; [exact Hagree|]. split.
    + intros x y v m Hset. unfold set_tile in Hset.
      apply res_bind_inr in Hset as (t & _ & [= <-]). reflexivity.
    + intros x y m Hxy Hwall Hset.
      destruct (Hagree x y Hxy) as (t & Ht & Hb).
      destruct Hframe as (_ & _ & Htiles & _).
      rewrite Htiles, Hwall in Ht. injection Ht as <-.
      pose proof Hxy as Hxy'. apply in_bounds_iff in Hxy'.
      unfold set_tile, nd_set in Hset. rewrite Htiles in Hset.
      rewrite (norm_index_in (dim0 (tiles self)) x) in Hset by lia.
      rewrite (norm_index_in (dim1 (tiles self)) y) in Hset by lia.
      simpl in Hset. injection Hset as <-. split.
      * simpl. apply nd_get_put_eq; [exact Hs|lia|lia].
      * exact Hb.
Qed.

Lemma populate_blocked_spec_demo :
  exists self',
    populate_blocked demo_map1 = inr self' /\
    same_but_blocked demo_map1 self' /\
    length (ndenumerate (tiles demo_map1))
    = Z.to_nat (width demo_map1 * height demo_map1) /\
    (forall x y,
        in_bounds demo_map1 x y = true ->
        exists t,
          nd_get (tiles self') x y = inr t /\
          is_blocked self' x y = inr (t =? TileType_value WALL)) /\
    (forall x y v m,
        set_tile self' x y v = inr m -> blocked m = blocked self') /\
    (forall x y m,
        in_bounds demo_map1 x y = true ->
        nd_get (tiles demo_map1) x y = inr (TileType_value WALL) ->
        set_tile self' x y (TileType_value FLOOR) = inr m ->
        nd_get (tiles m) x y = inr (TileType_value FLOOR) /\
        is_blocked m x y = inr true).
Proof.
  apply (populate_blocked_spec demo_map1).
  unfold grids_ok, well_shaped. vm_compute.
  repeat split; discriminate.
Defined.

(** ** idx and the content index *)

(** C10. On a map with [w > 0] columns and [h > 0] rows,
    [idx(x, y) = y * w + x] sends different in-bounds coordinates to
    different indices; [tile_content] is created with exactly [w * h]
    slots, every in-bounds coordinate is sent to one of them, and every
    slot is the image of an in-bounds coordinate. *)
Theorem idx_addresses_tile_content w h s m s' :
  0 < w -> 0 < h -> GameMap_init w h s = (inr m, s') ->
  (forall x y, idx m x y = y * w + x) /\
  (forall x y x' y',
      in_bounds m x y = true -> in_bounds m x' y' = true ->
      idx m x y = idx m x' y' -> x = x' /\ y = y') /\
  length (tile_content m) = Z.to_nat (w * h) /\
  (forall x y,
      in_bounds m x y = true ->
      0 <= idx m x y < w * h /\
      tile_content m !! Z.to_nat (idx m x y) = Some []) /\
  (forall k,
      0 <= k < w * h ->
      in_bounds m (k mod w) (k / w) = true /\ idx m (k mod w) (k / w) = k).
Proof.
  intros Hw Hh Hinit.
  apply GameMap_init_same_frame in Hinit as (Hmw & Hmh & _ & Hcontent & _).
  simpl in Hmw, Hmh, Hcontent.
  assert (Hidx : forall x y, idx m x y = y * w + x)
    by (intros; unfold idx; rewrite Hmw; reflexivity).
  assert (Hin : forall x y, in_bounds m x y = true <->
                            0 <= x < w /\ 0 <= y < h)
    by (intros; rewrite in_bounds_iff, Hmw, Hmh; reflexivity).
  split; [exact Hidx|]. split; [|split; [|split]].
  - intros x y x' y' H1 H2 Heq. rewrite !Hidx in Heq.
    apply Hin in H1, H2. assert (y = y') by nia. subst. lia.
  - rewrite Hcontent, length_replicate. reflexivity.
  - intros x y H1. apply Hin in H1. rewrite Hidx.
    assert (Hr : 0 <= y * w + x < w * h) by nia.
    split; [exact Hr|]. rewrite Hcontent. apply lookup_replicate.
    split; [reflexivity|]. apply Z2Nat.inj_lt; lia.
  - intros k Hk. pose proof (Z.mod_pos_bound k w Hw) as Hmod.
    pose proof (Z.div_mod k w ltac:(lia)) as Hdm.
    assert (0 <= k / w) by (apply Z.div_pos; lia).
    assert (k / w < h) by (apply Z.div_lt_upper_bound; lia).
    split; [apply Hin; lia|]. rewrite Hidx. lia.
Qed.

Lemma idx_addresses_tile_content_demo :
  (forall x y, idx demo_map1 x y = y * 40 + x) /\
  (forall x y x' y',
      in_bounds demo_map1 x y = true -> in_bounds demo_map1 x' y' = true ->
      idx demo_map1 x y = idx demo_map1 x' y' -> x = x' /\ y = y') /\
  length (tile_content demo_map1) = Z.to_nat (40 * 30) /\
  (forall x y,
      in_bounds demo_map1 x y = true ->
      0 <= idx demo_map1 x y < 40 * 30 /\
      tile_content demo_map1 !! Z.to_nat (idx demo_map1 x y) = Some []) /\
  (forall k,
      0 <= k < 40 * 30 ->
      in_bounds demo_map1 (k mod 40) (k / 40) = true /\
      idx demo_map1 (k mod 40) (k / 40) = k).
Proof.
  apply (idx_addresses_tile_content 40 30 demo_state demo_map1 demo_state1).
  - reflexivity.
  - reflexivity.
  - vm_compute. reflexivity.
Defined.

(** ** Actions: main theorems *)

Lemma find_first_of {A} (test : A -> bool) (content : list A) :
  first_of test content (inr (find test content)).
Proof.
  unfold first_of. induction content as [|c content IH]; simpl.
  - intros c Hin. inversion Hin.
  - destruct (test c) eqn:E.
    + exists [], content. split; [reflexivity|]. split; [exact E|].
      intros c' Hin. inversion Hin.
    + destruct (find test content) as [b|].
      * destruct IH as (before & after & -> & Hb & Hpre).
        exists (c :: before), after. split; [reflexivity|].
        split; [exact Hb|]. intros c' Hin.
        apply elem_of_cons in Hin as [->|Hin]; auto.
      * intros c' Hin. apply elem_of_cons in Hin as [->|Hin]; auto.
Qed.

Lemma py_getitem_in {A} (l : list A) (i : Z) :
  0 <= i < Z.of_nat (length l) ->
  exists v, l !! Z.to_nat i = Some v /\ py_getitem l i = inr v.
Proof.
  intros Hi. unfold py_getitem.
  destruct (Z.leb_spec 0 i), (Z.ltb_spec i (Z.of_nat (length l)));
    try lia. simpl.
  destruct (lookup_lt_is_Some_2 l (Z.to_nat i)) as (v & Hv); [lia|].
  rewrite Hv. eauto.
Qed.

Lemma scan_content_in test self x y :
  in_bounds self x y = true ->
  length (tile_content self) = Z.to_nat (width self * height self) ->
  exists content,
    tile_content self !! Z.to_nat (idx self x y) = Some content /\
    scan_content test self x y = inr (find test content).
Proof.
  intros Hin Hlen. apply in_bounds_iff in Hin.
  destruct (py_getitem_in (tile_content self) (idx self x y))
    as (content & Hc & Hget).
  { rewrite Hlen. unfold idx. rewrite Z2Nat.id by nia. nia. }
  exists content. split; [exact Hc|].
  unfold scan_content. rewrite Hget. reflexivity.
Qed.




(** C8. [perform] of a bare [Action] raises [NotImplementedError],
    whatever entity it was built with; [Wait.perform] returns, and leaves
    the objects (the entity, the map and its grids) and the process state
    as they were. *)
Theorem perform_base_raises_wait_passes entity (w : World) :
  perform (Action_base entity) w = (inl NotImplementedError, w) /\
  perform (Wait entity) w = (inr tt, w) /\
  heap (snd (perform (Wait entity) w)) = heap w /\
  process (snd (perform (Wait entity) w)) = process w.
Proof. repeat split. Qed.

(** ** Node links *)

Lemma lookup_relink c old new gone h q :
  imap (relink c old new gone) h !! q = relink c old new gone q <$> h !! q.
Proof. apply list_lookup_imap. Qed.

Lemma class_of_relink c old new gone h q :
  class_of (imap (relink c old new gone) h) q = class_of h q.
Proof.
  unfold class_of. rewrite lookup_relink.
  destruct (h !! q); reflexivity.
Qed.

Lemma isinstance_class h a k :
  isinstance h a k = true <->
  exists c, class_of h a = Some c /\ issubclass c k = true.
Proof.
  unfold isinstance, class_of. destruct (h !! a) as [o|]; simpl.
  - split; [eauto|]. intros (c & [= <-] & H). exact H.
  - split; [discriminate|]. intros (c & H & _). discriminate.
Qed.

Lemma isinstance_relink c old new gone h q k :
  isinstance (imap (relink c old new gone) h) q k = isinstance h q k.
Proof.
  unfold isinstance. rewrite lookup_relink.
  destruct (h !! q); reflexivity.
Qed.

Lemma is_ancestor_root fuel h a p o :
  h !! p = Some o -> o_parent o = None -> a <> p ->
  is_ancestor fuel h a p = false.
Proof.
  intros Hp Hnone Hne. destruct fuel; simpl; [reflexivity|].
  rewrite bool_decide_eq_false_2 by exact Hne.
  rewrite Hp, Hnone. reflexivity.
Qed.

(** Attaching [c] to a node [p] that has no parent itself, does not hold
    [c] yet and holds no capability [c] would replace. *)
Lemma set_parent_attach h c p oc op :
  h !! c = Some oc -> h !! p = Some op -> o_parent op = None -> c <> p ->
  c ∉ o_children op ->
  (forall x, x ∈ o_children op -> class_of h x <> Some (o_cls oc)) ->
  exists h',
    set_parent h c (Some p) = inr h' /\
    length h' = length h /\
    (forall q, class_of h' q = class_of h q) /\
    h' !! p = Some (set_o_children (o_children op ++ [c]) op) /\
    (exists oc', h' !! c = Some oc' /\ o_parent oc' = Some p /\
                 o_cls oc' = o_cls oc) /\
    (forall q oq, q <> c -> h !! q = Some oq ->
       exists oq', h' !! q = Some oq' /\ o_parent oq' = o_parent oq /\
                   o_cls oq' = o_cls oq /\ o_attrs oq' = o_attrs oq).
Proof.
  intros Hc Hp Hroot Hne Hnotin Hclass.
  assert (Hgone : replaced h c p = []).
  { unfold replaced. rewrite Hc, Hp.
    destruct (is_capability (o_cls oc)); [|reflexivity].
    induction (o_children op) as [|x xs IH]; [reflexivity|].
    rewrite filter_cons. destruct (decide _) as [(_ & Hx)|_].
    - exfalso. eapply Hclass; [left|exact Hx].
    - apply IH.
      + intros Hin. apply Hnotin. now right.
      + intros y Hy. apply Hclass. now right. }
  exists (imap (relink c (o_parent oc) (Some p) []) h).
  split.
  { unfold set_parent. rewrite Hc, Hp, Hgone.
    rewrite (is_ancestor_root _ h c p op Hp Hroot Hne). reflexivity. }
  split; [apply length_imap|].
  split; [intros q; apply class_of_relink|].
  split; [|split].
  - rewrite lookup_relink, Hp. simpl. f_equal. unfold relink, set_o_children.
    rewrite (bool_decide_eq_true_2 (Some p = Some p)) by reflexivity.
    rewrite (bool_decide_eq_false_2 (p = c)) by congruence.
    rewrite (bool_decide_eq_false_2 (p ∈ [])) by (intros H; inversion H).
    f_equal. f_equal.
    assert (Hkeep : forall l : list addr, c ∉ l ->
              filter (fun x => x ∉ []) (filter (fun x => x <> c) l) = l).
    { induction l as [|x l IH]; intros Hl; [reflexivity|].
      rewrite filter_cons. destruct (decide (x <> c)) as [_|Hx].
      - rewrite filter_cons. destruct (decide (x ∉ [])) as [_|Hx'].
        + f_equal. apply IH. intros H. apply Hl. now right.
        + exfalso. apply Hx'. intros H. inversion H.
      - exfalso. apply Hl. apply dec_stable in Hx. subst. now left. }
    assert (Hkeep' : forall l : list addr, filter (fun x => x ∉ []) l = l).
    { induction l as [|x l IH]; [reflexivity|].
      rewrite filter_cons. destruct (decide (x ∉ [])) as [_|Hx'].
      - f_equal. exact IH.
      - exfalso. apply Hx'. intros H. inversion H. }
    destruct (bool_decide (o_parent oc = Some p));
      [apply Hkeep; exact Hnotin|apply Hkeep'].
  - exists (relink c (o_parent oc) (Some p) [] c oc).
    rewrite lookup_relink, Hc. split; [reflexivity|]. simpl.
    rewrite bool_decide_eq_true_2 by reflexivity. auto.
  - intros q oq Hq Hoq.
    exists (relink c (o_parent oc) (Some p) [] q oq).
    rewrite lookup_relink, Hoq. split; [reflexivity|]. simpl.
    rewrite (bool_decide_eq_false_2 (q = c)) by exact Hq.
    auto.
Qed.


Lemma class_of_Some h a k :
  class_of h a = Some k <-> exists o, h !! a = Some o /\ o_cls o = k.
Proof.
  unfold class_of. destruct (h !! a) as [o|]; simpl.
  - split; [intros [= <-]; eauto|]. intros (o' & [= <-] & <-). reflexivity.
  - split; [discriminate|]. intros (o' & H & _). discriminate.
Qed.

Lemma class_of_alloc h o q :
  class_of (h ++ [o]) q
  = if decide (q = length h) then Some (o_cls o) else class_of h q.
Proof.
  unfold class_of. destruct (decide (q = length h)) as [->|Hne].
  - rewrite lookup_app_r by lia. rewrite Nat.sub_diag. reflexivity.
  - destruct (decide (q < length h)%nat).
    + rewrite lookup_app_l by assumption. reflexivity.
    + rewrite !lookup_ge_None_2; [reflexivity|lia|].
      rewrite length_app. simpl. lia.
Qed.

Lemma holds_alloc h self l o : holds h self l -> holds (h ++ [o]) self l.
Proof.
  intros (os & Hs & Hp & Hc & Hl). exists os.
  split; [apply lookup_app_l_Some; exact Hs|]. split; [exact Hp|].
  split; [exact Hc|]. intros x Hx. destruct (Hl x Hx) as (ox & Hox & Hpx).
  exists ox. split; [apply lookup_app_l_Some; exact Hox|exact Hpx].
Qed.

(** One more capability is attached to a root that holds [l]. *)
Lemma attach_step h self l c k :
  holds h self l -> class_of h c = Some k -> c <> self -> c ∉ l ->
  (forall x, x ∈ l -> class_of h x <> Some k) ->
  exists h',
    set_parent h c (Some self) = inr h' /\
    holds h' self (l ++ [c]) /\
    length h' = length h /\
    (forall q, class_of h' q = class_of h q).
Proof.
  intros (os & Hs & Hp & Hc & Hl) Hk Hne Hnotin Hclass.
  apply class_of_Some in Hk as (oc & Hoc & <-). subst l.
  destruct (set_parent_attach h c self oc os Hoc Hs Hp Hne Hnotin Hclass)
    as (h' & Hset & Hlen & Hcls & Hself & (oc' & Hoc' & Hpc' & _) & Hrest).
  exists h'. split; [exact Hset|]. split; [|split; assumption].
  exists (set_o_children (o_children os ++ [c]) os).
  split; [exact Hself|]. split; [exact Hp|]. split; [reflexivity|].
  intros x Hx. apply elem_of_app in Hx as [Hx|Hx].
  - destruct (Hl x Hx) as (ox & Hox & Hpx).
    destruct (Hrest x ox) as (ox' & Hox' & Hpx' & _);
      [intros ->; contradiction|exact Hox|].
    exists ox'. split; [exact Hox'|congruence].
  - apply list_elem_of_singleton in Hx as ->. eauto.
Qed.

(** A child is detached from the root that holds it. *)
Lemma detach_step h self l c :
  holds h self l -> c ∈ l -> c <> self ->
  exists h',
    set_parent h c None = inr h' /\
    (exists o', h' !! self = Some o' /\
                o_children o' = filter (fun x => x <> c) l) /\
    (forall q, class_of h' q = class_of h q).
Proof.
  intros (os & Hs & Hp & Hc & Hl) Hin Hne.
  destruct (Hl c Hin) as (oc & Hoc & Hpc).
  exists (imap (relink c (Some self) None []) h).
  split; [unfold set_parent; rewrite Hoc, Hpc; reflexivity|].
  split; [|intros q; apply class_of_relink].
  exists (relink c (Some self) None [] self os).
  rewrite lookup_relink, Hs. split; [reflexivity|]. simpl.
  rewrite bool_decide_eq_true_2 by reflexivity. rewrite Hc. reflexivity.
Qed.

Lemma is_alive_iff h a o :
  h !! a = Some o ->
  (is_alive h a = true <->
   exists c, c ∈ o_children o /\ isinstance h c BaseAI_cls = true).
Proof.
  intros Ha. unfold is_alive, try_get. rewrite Ha.
  destruct (find _ _) as [c|] eqn:E.
  - apply find_some in E as (Hin & Hc). split; [|reflexivity].
    intros _. exists c. split; [apply list_elem_of_In; exact Hin|exact Hc].
  - split; [discriminate|]. intros (c & Hin & Hc).
    apply list_elem_of_In in Hin.
    rewrite (find_none _ _ E c Hin) in Hc. discriminate.
Qed.

(** ** Actors: main theorems *)

Lemma ai_class_cases k :
  issubclass k BaseAI_cls = true ->
  k <> Fighter_cls /\ k <> Inventory_cls.
Proof. destruct k; simpl; intros H; try discriminate; split; discriminate. Qed.

Lemma isinstance_of_class h a k kind :
  class_of h a = Some k -> isinstance h a kind = issubclass k kind.
Proof.
  unfold class_of, isinstance. destruct (h !! a); simpl; [|discriminate].
  intros [= <-]. reflexivity.
Qed.

(** C9. An actor is alive exactly when one of its attached children is an
    AI capability.  [Actor.__init__] attaches the AI it makes from
    [ai_cls], so the new actor is alive; its AI capability is the one
    [try_get] returns, and once that capability is detached the actor is
    not alive any more.  No other attribute takes part. *)
Theorem is_alive_iff_ai_attached
    h x y char color name ai_cls fighter fo inventory :
  issubclass ai_cls BaseAI_cls = true ->
  h !! fighter = Some fo -> o_cls fo = Fighter_cls ->
  (forall i, inventory = Some i -> class_of h i = Some Inventory_cls) ->
  (forall (h0 : Heap) a o,
      h0 !! a = Some o ->
      (is_alive h0 a = true <->
       exists c, c ∈ o_children o /\ isinstance h0 c BaseAI_cls = true)) /\
  exists self h',
    Actor_init h x y char color name ai_cls fighter inventory
    = inr (self, h') /\
    is_alive h' self = true /\
    exists ai,
      try_get h' self BaseAI_cls = Some ai /\
      class_of h' ai = Some ai_cls /\
      exists h'',
        set_parent h' ai None = inr h'' /\ is_alive h'' self = false.
Proof.
  intros Hai Hf Hfc Hinv. split; [exact is_alive_iff|].
  destruct (ai_class_cases ai_cls Hai) as (HaiF & HaiI).
  set (self := length h).
  set (so := mkObject Actor_cls (EntityAttrs x y char color name true ACTOR)
               None []).
  set (ao := mkObject ai_cls (ComponentAttrs []) None []).
  set (ai := length (h ++ [so])).
  set (h2 := (h ++ [so]) ++ [ao]).
  assert (Hai_eq : ai = Datatypes.S self)
    by (unfold ai, self; rewrite length_app; simpl; lia).
  assert (Hflt : (fighter < self)%nat) by (eapply lookup_lt_Some; exact Hf).
  assert (Hcls2 : forall q, class_of h2 q
            = if decide (q = ai) then Some ai_cls
              else if decide (q = self) then Some Actor_cls
              else class_of h q).
  { intros q. unfold h2. rewrite class_of_alloc. fold ai.
    destruct (decide (q = ai)); [reflexivity|].
    rewrite class_of_alloc. reflexivity. }
  assert (H2 : holds h2 self []).
  { exists so. split.
    - unfold h2. apply lookup_app_l_Some. unfold self.
      rewrite lookup_app_r by lia. rewrite Nat.sub_diag. reflexivity.
    - split; [reflexivity|]. split; [reflexivity|].
      intros x' Hx'. inversion Hx'. }
  (* the AI *)
  destruct (attach_step h2 self [] ai ai_cls H2) as (h3 & E3 & H3 & L3 & C3).
  { rewrite Hcls2. rewrite decide_True by reflexivity. reflexivity. }
  { lia. }
  { intros Hx'. inversion Hx'. }
  { intros x' Hx'. inversion Hx'. }
  (* the fighter *)
  destruct (attach_step h3 self [ai] fighter Fighter_cls H3)
    as (h4 & E4 & H4 & L4 & C4).
  { rewrite C3, Hcls2. rewrite !decide_False by lia.
    apply class_of_Some. eauto. }
  { lia. }
  { intros Hx'. apply list_elem_of_singleton in Hx'. lia. }
  { intros x' Hx'. apply list_elem_of_singleton in Hx' as ->.
    rewrite C3, Hcls2. rewrite decide_True by reflexivity. congruence. }
  simpl app in H4.
  (* the inventory *)
  assert (Hstep3 : exists inv h6,
            (let '(inv, h5) :=
               match inventory with
               | Some i => (i, h4)
               | None => alloc h4 (mkObject Inventory_cls
                                     (ComponentAttrs [0]) None [])
               end in
             res_bind (set_parent h5 inv (Some self))
               (fun h6 => inr (self, h6))) = inr (self, h6) /\
            holds h6 self [ai; fighter; inv] /\
            class_of h6 ai = Some ai_cls /\
            class_of h6 fighter = Some Fighter_cls /\
            class_of h6 inv = Some Inventory_cls /\
            inv <> ai /\ inv <> self).
  { assert (Hc4ai : class_of h4 ai = Some ai_cls)
      by (rewrite C4, C3, Hcls2, decide_True by reflexivity; reflexivity).
    assert (Hc4f : class_of h4 fighter = Some Fighter_cls).
    { rewrite C4, C3, Hcls2. rewrite !decide_False by lia.
      apply class_of_Some. eauto. }
    destruct inventory as [i|].
    - pose proof (Hinv i eq_refl) as Hi.
      assert (Hilt : (i < self)%nat).
      { apply class_of_Some in Hi as (io & Hio & _).
        eapply lookup_lt_Some. exact Hio. }
      assert (Hc4i : class_of h4 i = Some Inventory_cls)
        by (rewrite C4, C3, Hcls2; rewrite !decide_False by lia; exact Hi).
      destruct (attach_step h4 self [ai; fighter] i Inventory_cls H4 Hc4i)
        as (h6 & E6 & H6 & L6 & C6).
      { lia. }
      { intros Hx'. apply elem_of_cons in Hx' as [->|Hx']; [lia|].
        apply list_elem_of_singleton in Hx' as ->. congruence. }
      { intros x' Hx'. apply elem_of_cons in Hx' as [->|Hx'].
        - rewrite Hc4ai. congruence.
        - apply list_elem_of_singleton in Hx' as ->. rewrite Hc4f.
          discriminate. }
      exists i, h6. rewrite E6. simpl.
      split; [reflexivity|]. split; [exact H6|].
      rewrite !C6. repeat split; try assumption; lia.
    - set (io := mkObject Inventory_cls (ComponentAttrs [0]) None []).
      assert (Hlen4 : length h4 = Datatypes.S (Datatypes.S self)).
      { rewrite L4, L3. unfold h2. rewrite !length_app. simpl.
        unfold self. lia. }
      assert (Hc5 : forall q, class_of (h4 ++ [io]) q
                = if decide (q = length h4) then Some Inventory_cls
                  else class_of h4 q)
        by (intros q; apply class_of_alloc).
      destruct (attach_step (h4 ++ [io]) self [ai; fighter] (length h4)
                  Inventory_cls (holds_alloc _ _ _ io H4))
        as (h6 & E6 & H6 & L6 & C6).
      { rewrite Hc5, decide_True by reflexivity. reflexivity. }
      { lia. }
      { intros Hx'. apply elem_of_cons in Hx' as [Hx'|Hx']; [lia|].
        apply list_elem_of_singleton in Hx'. lia. }
      { intros x' Hx'. rewrite Hc5. apply elem_of_cons in Hx' as [->|Hx'].
        - rewrite decide_False by lia. rewrite Hc4ai. congruence.
        - apply list_elem_of_singleton in Hx' as ->.
          rewrite decide_False by lia. rewrite Hc4f. discriminate. }
      exists (length h4), h6. unfold alloc. rewrite E6. simpl.
      split; [reflexivity|]. split; [exact H6|].
      split; [rewrite C6, Hc5, decide_False by lia; exact Hc4ai|].
      split; [rewrite C6, Hc5, decide_False by lia; exact Hc4f|].
      split; [rewrite C6, Hc5, decide_True by reflexivity; reflexivity|].
      lia. }
  destruct Hstep3 as (inv & h6 & E6 & H6 & Cai & Cf & Ci & Hinv_ai & Hinv_s).
  exists self, h6. split.
  { unfold Actor_init, alloc. fold self so. fold ai ao. fold h2.
    rewrite E3. simpl res_bind. rewrite E4. simpl res_bind. exact E6. }
  pose proof H6 as (o6 & Hs6 & _ & Hch6 & _).
  assert (Htry : try_get h6 self BaseAI_cls = Some ai).
  { unfold try_get. rewrite Hs6, Hch6. simpl.
    rewrite (isinstance_of_class h6 ai ai_cls BaseAI_cls Cai), Hai.
    reflexivity. }
  split; [unfold is_alive; rewrite Htry; reflexivity|].
  exists ai. split; [exact Htry|]. split; [exact Cai|].
  destruct (detach_step h6 self [ai; fighter; inv] ai H6)
    as (h7 & E7 & (o7 & Hs7 & Hch7) & C7); [left|lia|].
  exists h7. split; [exact E7|].
  unfold is_alive, try_get. rewrite Hs7, Hch7.
  rewrite filter_cons, decide_False by (intros H; apply H; reflexivity).
  rewrite filter_cons, decide_True by lia.
  rewrite filter_cons, decide_True by exact Hinv_ai.
  rewrite filter_nil. simpl.
  rewrite (isinstance_of_class h7 fighter Fighter_cls BaseAI_cls)
    by (rewrite C7; exact Cf).
  rewrite (isinstance_of_class h7 inv Inventory_cls BaseAI_cls)
    by (rewrite C7; exact Ci).
  reflexivity.
Qed.

Lemma is_alive_iff_ai_attached_demo :
  issubclass HostileEnemy_cls BaseAI_cls = true /\
  exists self h',
    Actor_init fighter_heap 3 4 "o" (63, 127, 63) "Orc" HostileEnemy_cls
      0%nat None = inr (self, h') /\
    is_alive h' self = true /\
    exists ai,
      try_get h' self BaseAI_cls = Some ai /\
      class_of h' ai = Some HostileEnemy_cls /\
      exists h'',
        set_parent h' ai None = inr h'' /\ is_alive h'' self = false.
Proof.
  split; [reflexivity|].
  apply (is_alive_iff_ai_attached fighter_heap 3 4 "o" (63, 127, 63) "Orc"
           HostileEnemy_cls 0%nat
           (mkObject Fighter_cls (ComponentAttrs [30; 30; 1; 5]) None [])
           None).
  - reflexivity.
  - reflexivity.
  - reflexivity.
  - intros i Hi. discriminate Hi.
Defined.

(** ** The walk of deepcopy *)

Lemma weight_from_nil i h :
  weight_from i h []
  = (length h + sum_list_with (fun o => length (obj_refs o)) h)%nat.
Proof.
  revert i. induction h as [|o h IH]; intros i; simpl; [reflexivity|].
  rewrite IH. lia.
Qed.

Lemma weight_from_out i h seen a :
  (a < i)%nat -> weight_from i h (seen ++ [a]) = weight_from i h seen.
Proof.
  revert i. induction h as [|o h IH]; intros i Hlt; simpl; [reflexivity|].
  rewrite IH by lia. f_equal.
  destruct (decide (i ∈ seen)) as [Hin|Hnin].
  - rewrite !bool_decide_eq_true_2; [reflexivity|exact Hin|].
    apply elem_of_app. now left.
  - rewrite !bool_decide_eq_false_2; [reflexivity|exact Hnin|].
    intros Hin. apply elem_of_app in Hin as [Hin|Hin]; [contradiction|].
    apply list_elem_of_singleton in Hin. lia.
Qed.

Lemma weight_from_add h : forall i seen a o,
  (i <= a)%nat -> h !! (a - i)%nat = Some o -> a ∉ seen ->
  (weight_from i h (seen ++ [a]) + Datatypes.S (length (obj_refs o))
   = weight_from i h seen)%nat.
Proof.
  induction h as [|o0 h IH]; intros i seen a o Hle Hlook Hnin;
    [discriminate|]. simpl.
  destruct (decide (a = i)) as [->|Hne].
  - rewrite Nat.sub_diag in Hlook. injection Hlook as ->.
    rewrite weight_from_out by lia.
    rewrite (bool_decide_eq_false_2 (i ∈ seen)) by exact Hnin.
    rewrite bool_decide_eq_true_2
      by (apply elem_of_app; right; apply list_elem_of_singleton;
          reflexivity).
    lia.
  - replace (a - i)%nat with (Datatypes.S (a - Datatypes.S i)) in Hlook
      by lia.
    simpl in Hlook.
    rewrite <- (IH (Datatypes.S i) seen a o) by (try lia; assumption).
    assert (Hsame : bool_decide (i ∈ seen ++ [a]) = bool_decide (i ∈ seen)).
    { apply bool_decide_ext. rewrite elem_of_app, list_elem_of_singleton.
      split; [intros [?|?]; [assumption|lia]|auto]. }
    rewrite Hsame. lia.
Qed.

(** With enough fuel the walk of a closed heap ends. *)
Lemma reach_total h :
  all_refs_valid h ->
  forall fuel todo seen,
    (forall a, a ∈ todo -> (a < length h)%nat) ->
    (length todo + weight_from 0 h seen < fuel)%nat ->
    exists seen', reach fuel h todo seen = Some seen'.
Proof.
  intros Hclosed. induction fuel as [|fuel IH]; intros todo seen Hvalid Hfuel;
    [lia|].
  destruct todo as [|a todo]; simpl; [eauto|].
  destruct (decide (a ∈ seen)) as [Hin|Hnin].
  - rewrite bool_decide_eq_true_2 by exact Hin.
    apply IH; [intros b Hb; apply Hvalid; now right|simpl in Hfuel; lia].
  - rewrite bool_decide_eq_false_2 by exact Hnin.
    destruct (lookup_lt_is_Some_2 h a) as (o & Ho);
      [apply Hvalid; now left|].
    rewrite Ho. apply IH.
    + intros b Hb. apply elem_of_app in Hb as [Hb|Hb].
      * eapply Hclosed; eassumption.
      * apply Hvalid. now right.
    + pose proof (weight_from_add h 0 seen a o) as Hw.
      rewrite Nat.sub_0_r in Hw. specialize (Hw ltac:(lia) Ho Hnin).
      rewrite length_app. simpl in Hfuel. lia.
Qed.

(** What the walk returns: the objects met before, followed by new ones;
    no object twice; every object exists; whatever was to be visited has
    been; and the references of the objects met lead to objects met. *)
Lemma reach_sound h :
  forall fuel todo seen seen',
    reach fuel h todo seen = Some seen' ->
    NoDup seen -> (forall a, a ∈ seen -> is_Some (h !! a)) ->
    refs_within h seen todo ->
    (exists more, seen' = seen ++ more) /\
    NoDup seen' /\ (forall a, a ∈ seen' -> is_Some (h !! a)) /\
    (forall a, a ∈ todo -> a ∈ seen') /\
    refs_within h seen' [].
Proof.
  induction fuel as [|fuel IH]; intros todo seen seen' Hrun Hnd Hval Hrefs;
    [discriminate|].
  destruct todo as [|a todo]; simpl in Hrun.
  - injection Hrun as <-. split; [exists []; rewrite app_nil_r; reflexivity|].
    split; [exact Hnd|]. split; [exact Hval|].
    split; [intros a Ha; inversion Ha|exact Hrefs].
  - destruct (decide (a ∈ seen)) as [Hin|Hnin].
    + rewrite bool_decide_eq_true_2 in Hrun by exact Hin.
      destruct (IH todo seen seen' Hrun Hnd Hval)
        as ((more & ->) & Hnd' & Hval' & Htodo & Hrefs').
      { intros b o r Hb Ho Hr.
        destruct (Hrefs b o r Hb Ho Hr) as [?|Hr']; [now left|].
        apply elem_of_cons in Hr' as [->|?]; [now left|now right]. }
      split; [eauto|]. split; [exact Hnd'|]. split; [exact Hval'|].
      split; [|exact Hrefs'].
      intros b Hb. apply elem_of_cons in Hb as [->|Hb]; [|auto].
      apply elem_of_app. now left.
    + rewrite bool_decide_eq_false_2 in Hrun by exact Hnin.
      destruct (h !! a) as [o|] eqn:Ho; [|discriminate].
      destruct (IH (obj_refs o ++ todo) (seen ++ [a]) seen' Hrun)
        as ((more & ->) & Hnd' & Hval' & Htodo & Hrefs').
      { apply NoDup_app. split; [exact Hnd|]. split.
        - intros b Hb Hb'. apply list_elem_of_singleton in Hb' as ->.
          contradiction.
        - apply NoDup_singleton. }
      { intros b Hb. apply elem_of_app in Hb as [Hb|Hb]; [auto|].
        apply list_elem_of_singleton in Hb as ->. eauto. }
      { intros b ob r Hb Hob Hr. apply elem_of_app in Hb as [Hb|Hb].
        - destruct (Hrefs b ob r Hb Hob Hr) as [?|Hr'].
          + left. apply elem_of_app. now left.
          + apply elem_of_cons in Hr' as [->|?].
            * left. apply elem_of_app. right.
              apply list_elem_of_singleton. reflexivity.
            * right. apply elem_of_app. now right.
        - apply list_elem_of_singleton in Hb as ->.
          rewrite Ho in Hob. injection Hob as <-.
          right. apply elem_of_app. now left. }
      split; [exists ([a] ++ more); rewrite app_assoc; reflexivity|].
      split; [exact Hnd'|]. split; [exact Hval'|]. split; [|exact Hrefs'].
      intros b Hb. apply elem_of_cons in Hb as [->|Hb].
      * rewrite <- app_assoc. apply elem_of_app. right. now left.
      * apply Htodo. apply elem_of_app. now right.
Qed.

Lemma reach_step_new fuel h a todo seen o :
  a ∉ seen -> h !! a = Some o ->
  reach (Datatypes.S fuel) h (a :: todo) seen
  = reach fuel h (obj_refs o ++ todo) (seen ++ [a]).
Proof.
  intros Hnin Ho. simpl. rewrite bool_decide_eq_false_2 by exact Hnin.
  rewrite Ho. reflexivity.
Qed.

Lemma deepcopy_seen h e oe :
  all_refs_valid h -> h !! e = Some oe ->
  exists more,
    reach (reach_fuel h) h [e] [] = Some (e :: more) /\
    NoDup (e :: more) /\
    (forall a, a ∈ e :: more -> is_Some (h !! a)) /\
    refs_within h (e :: more) [].
Proof.
  intros Hclosed He. unfold reach_fuel.
  change (2 + length h + sum_list_with (fun o => length (obj_refs o)) h)%nat
    with (Datatypes.S (Datatypes.S
            (length h + sum_list_with (fun o => length (obj_refs o)) h))).
  rewrite (reach_step_new _ h e [] [] oe) by (try intros H; first [inversion H|exact He]).
  simpl app.
  destruct (reach_total h Hclosed
              (Datatypes.S
                 (length h + sum_list_with (fun o => length (obj_refs o)) h))
              (obj_refs oe ++ []) [e]) as (seen' & Hrun).
  - intros a Ha. rewrite app_nil_r in Ha. eapply Hclosed; eassumption.
  - pose proof (weight_from_add h 0 [] e oe) as Hw.
    rewrite Nat.sub_0_r in Hw.
    specialize (Hw ltac:(lia) He ltac:(intros H; inversion H)).
    simpl app in Hw. rewrite weight_from_nil in Hw.
    rewrite app_nil_r. lia.
  - rewrite Hrun.
    destruct (reach_sound h _ _ _ _ Hrun) as ((more & ->) & Hnd & Hval & _ & Hrefs).
    + apply NoDup_singleton.
    + intros a Ha. apply list_elem_of_singleton in Ha as ->. eauto.
    + intros a o r Ha Ho Hr. apply list_elem_of_singleton in Ha as ->.
      rewrite He in Ho. injection Ho as <-. right.
      rewrite app_nil_r. exact Hr.
    + exists more. auto.
Qed.

Lemma index_of_lookup l : forall i a,
  NoDup l -> l !! i = Some a -> index_of a l = i.
Proof.
  induction l as [|b l IH]; intros i a Hnd Hi; [discriminate|].
  apply NoDup_cons in Hnd as (Hb & Hnd). simpl.
  destruct i as [|i]; simpl in Hi.
  - injection Hi as ->. rewrite bool_decide_eq_true_2 by reflexivity.
    reflexivity.
  - rewrite bool_decide_eq_false_2.
    + f_equal. apply IH; assumption.
    + intros ->. apply Hb. eapply list_elem_of_lookup_2. exact Hi.
Qed.

Lemma index_of_elem l a : a ∈ l -> l !! index_of a l = Some a.
Proof.
  induction l as [|b l IH]; intros Hin; [inversion Hin|]. simpl.
  destruct (decide (a = b)) as [->|Hne].
  - rewrite bool_decide_eq_true_2 by reflexivity. reflexivity.
  - rewrite bool_decide_eq_false_2 by exact Hne. simpl. apply IH.
    apply elem_of_cons in Hin as [?|?]; [contradiction|assumption].
Qed.

Lemma omap_lookup_all {A B} (f : A -> option B) l :
  (forall a, a ∈ l -> is_Some (f a)) ->
  length (omap f l) = length l /\
  forall i a, l !! i = Some a -> omap f l !! i = f a.
Proof.
  induction l as [|x l IH]; intros Hall; [split; [reflexivity|discriminate]|].
  destruct (Hall x) as (y & Hy); [now left|].
  destruct IH as (Hlen & Hlook); [intros a Ha; apply Hall; now right|].
  simpl. rewrite Hy. simpl. split; [f_equal; exact Hlen|].
  intros [|i] a Hi; simpl in *.
  - injection Hi as <-. symmetry. exact Hy.
  - apply Hlook. exact Hi.
Qed.

(** What a deep copy of a closed heap is: the old objects stay where they
    are and as they are, the objects met by the walk from [e] are copied
    behind them, in the order met, with all references redirected through
    the memo; the copy of [e] is the first new object. *)
Lemma deepcopy_spec h e oe :
  all_refs_valid h -> h !! e = Some oe ->
  exists seen news,
    deepcopy h e = inr (length h, h ++ news) /\
    length news = length seen /\
    NoDup seen /\ e ∈ seen /\
    memo_of (length h) seen e = length h /\
    refs_within h seen [] /\
    (forall a, a ∈ seen ->
       exists o, h !! a = Some o /\
         (h ++ news) !! memo_of (length h) seen a
         = Some (obj_rename (memo_of (length h) seen) o)) /\
    (forall i o', news !! i = Some o' ->
       exists a o, a ∈ seen /\ h !! a = Some o /\
                   memo_of (length h) seen a = (length h + i)%nat /\
                   o' = obj_rename (memo_of (length h) seen) o).
Proof.
  intros Hclosed He.
  destruct (deepcopy_seen h e oe Hclosed He) as (more & Hrun & Hnd & Hval & Hrefs).
  set (seen := e :: more) in *.
  set (memo := memo_of (length h) seen).
  set (news := omap (fun a => obj_rename memo <$> h !! a) seen).
  destruct (omap_lookup_all (fun a => obj_rename memo <$> h !! a) seen)
    as (Hlen & Hlook).
  { intros a Ha. destruct (Hval a Ha) as (o & ->). simpl. eauto. }
  assert (Hmemo_e : memo e = length h).
  { unfold memo, memo_of, seen. simpl.
    rewrite bool_decide_eq_true_2 by reflexivity. lia. }
  exists seen, news. split.
  { unfold deepcopy. rewrite Hrun. fold seen. fold memo. fold news.
    cbv zeta. rewrite Hmemo_e. reflexivity. }
  split; [exact Hlen|]. split; [exact Hnd|]. split; [left|].
  split; [exact Hmemo_e|]. split; [exact Hrefs|]. split.
  - intros a Ha. destruct (Hval a Ha) as (o & Ho). exists o.
    split; [exact Ho|]. unfold memo_of.
    rewrite lookup_app_r by lia.
    replace (length h + index_of a seen - length h)%nat
      with (index_of a seen) by lia.
    fold news. unfold news.
    rewrite (Hlook _ a (index_of_elem seen a Ha)), Ho. reflexivity.
  - intros i o' Hi.
    assert (Hlt : (i < length seen)%nat)
      by (rewrite <- Hlen; eapply lookup_lt_Some; exact Hi).
    destruct (lookup_lt_is_Some_2 seen i Hlt) as (a & Ha).
    pose proof (Hlook i a Ha) as Hia. fold news in Hia.
    rewrite Hi in Hia.
    destruct (h !! a) as [o|] eqn:Ho; [|discriminate].
    injection Hia as ->. exists a, o.
    split; [eapply list_elem_of_lookup_2; exact Ha|].
    split; [exact Ho|]. split; [|reflexivity].
    unfold memo_of. rewrite (index_of_lookup seen i a Hnd Ha). reflexivity.
Qed.

(** ** spawn *)

Lemma heap_closed_refs h : heap_closed h -> all_refs_valid h.
Proof.
  unfold heap_closed. intros H a o r Ha Hr.
  rewrite forallb_forall in H.
  assert (Ho : In o h)
    by (apply list_elem_of_In; eapply list_elem_of_lookup_2; exact Ha).
  specialize (H o Ho). rewrite forallb_forall in H.
  apply Nat.ltb_lt. apply H. apply list_elem_of_In. exact Hr.
Qed.

Lemma child_is_ref o c : c ∈ o_children o -> c ∈ obj_refs o.
Proof.
  intros H. unfold obj_refs. apply elem_of_app. right.
  apply elem_of_app. now left.
Qed.

Lemma parent_is_ref o p : o_parent o = Some p -> p ∈ obj_refs o.
Proof.
  intros H. unfold obj_refs. rewrite H. simpl. now left.
Qed.

Lemma below_valid h e b :
  all_refs_valid h -> (e < length h)%nat -> below h e b ->
  (b < length h)%nat.
Proof.
  intros Hclosed He Hb. induction Hb as [|p o c _ _ Hp Hc]; [exact He|].
  eapply Hclosed; [exact Hp|]. apply child_is_ref. exact Hc.
Qed.

(** From an old object the walk to the root meets old objects only. *)
Lemma is_ancestor_old (h : Heap) n a :
  (n <= a)%nat ->
  (forall q o r, (q < n)%nat -> h !! q = Some o -> o_parent o = Some r ->
     (r < n)%nat) ->
  forall fuel p, (p < n)%nat -> is_ancestor fuel h a p = false.
Proof.
  intros Ha Hold. induction fuel as [|fuel IH]; intros p Hp; [reflexivity|].
  simpl. rewrite bool_decide_eq_false_2 by lia.
  destruct (h !! p) as [o|] eqn:Ho; [|reflexivity].
  destruct (o_parent o) as [r|] eqn:Hr; [|reflexivity].
  apply IH. eapply Hold; eassumption.
Qed.

Lemma entity_class_not_capability c :
  issubclass c Entity_cls = true -> is_capability c = false.
Proof. destruct c; simpl; intros H; try discriminate; reflexivity. Qed.

Lemma relink_others c old new q o :
  q <> c -> old <> Some q -> new <> Some q ->
  relink c old new [] q o = o.
Proof.
  intros Hq Hold Hnew. unfold relink.
  rewrite (bool_decide_eq_false_2 (old = Some q)) by exact Hold.
  rewrite (bool_decide_eq_false_2 (new = Some q)) by exact Hnew.
  rewrite (bool_decide_eq_false_2 (q = c)) by exact Hq.
  rewrite (bool_decide_eq_false_2 (q ∈ [])) by (intros H; inversion H).
  destruct o. reflexivity.
Qed.

Lemma relink_children_sub c old new gone q o x :
  new <> Some q -> x ∈ o_children (relink c old new gone q o) ->
  x ∈ o_children o.
Proof.
  intros Hnew. unfold relink. simpl.
  rewrite (bool_decide_eq_false_2 (new = Some q)) by exact Hnew.
  destruct (bool_decide (old = Some q)); [|auto].
  intros H. apply list_elem_of_filter in H. tauto.
Qed.

Lemma relink_children_keep c old new gone q o x :
  new <> Some q -> x <> c -> x ∈ o_children o ->
  x ∈ o_children (relink c old new gone q o).
Proof.
  intros Hnew Hx Hin. unfold relink. simpl.
  rewrite (bool_decide_eq_false_2 (new = Some q)) by exact Hnew.
  destruct (bool_decide (old = Some q)); [|exact Hin].
  apply list_elem_of_filter. auto.
Qed.

Lemma filter_notin_nil (l : list addr) : filter (fun x => x ∉ []) l = l.
Proof.
  induction l as [|x l IH]; [reflexivity|].
  rewrite filter_cons. destruct (decide (x ∉ [])) as [_|Hx].
  - f_equal. exact IH.
  - exfalso. apply Hx. intros H. inversion H.
Qed.

(** The heap [spawn] leaves, spelled out: the deep copy is appended, the
    position of the clone is stored, and the clone is linked to the
    map. *)
Lemma spawn_heap h e gm x y cls x0 y0 char color name blocks order
    parent children og :
  all_refs_valid h ->
  h !! e = Some (mkObject cls (EntityAttrs x0 y0 char color name blocks order)
                   parent children) ->
  issubclass cls Entity_cls = true ->
  h !! gm = Some og ->
  exists seen news,
    length news = length seen /\ NoDup seen /\ e ∈ seen /\
    memo_of (length h) seen e = length h /\
    refs_within h seen [] /\
    (forall a, a ∈ seen ->
       exists o, h !! a = Some o /\
         (h ++ news) !! memo_of (length h) seen a
         = Some (obj_rename (memo_of (length h) seen) o)) /\
    (forall i o', news !! i = Some o' ->
       exists a o, a ∈ seen /\ h !! a = Some o /\
                   memo_of (length h) seen a = (length h + i)%nat /\
                   o' = obj_rename (memo_of (length h) seen) o) /\
    spawn h e gm x y
    = inr (length h,
           imap (relink (length h)
                   (option_map (memo_of (length h) seen) parent)
                   (Some gm) [])
             (alter (fun o => set_o_attrs (attrs_set_xy x y (o_attrs o)) o)
                (length h) (h ++ news))).
Proof.
  intros Hclosed He Hcls Hgm.
  destruct (deepcopy_spec h e _ Hclosed He)
    as (seen & news & Hcopy & Hlen & Hnd & Hin & Hmemo & Hrefs & Hseen & Hnews).
  exists seen, news.
  do 7 (split; [assumption|]).
  set (n := length h) in *. set (memo := memo_of n seen) in *.
  destruct (Hseen e Hin) as (oe & He' & Hclone).
  rewrite He in He'. injection He' as <-. rewrite Hmemo in Hclone.
  unfold obj_rename in Hclone. simpl in Hclone.
  assert (Hgmlt : (gm < n)%nat) by (eapply lookup_lt_Some; exact Hgm).
  unfold spawn. rewrite Hcopy. cbn [res_bind].
  unfold set_xy. rewrite Hclone. cbn [res_bind].
  set (F := fun o => set_o_attrs (attrs_set_xy x y (o_attrs o)) o).
  set (h2 := alter F n (h ++ news)).
  assert (H2n : h2 !! n
                = Some (mkObject cls
                          (EntityAttrs x y char color name blocks order)
                          (option_map memo parent) (map memo children))).
  { unfold h2. rewrite list_lookup_alter_eq, Hclone. reflexivity. }
  assert (H2old : forall q, (q < n)%nat -> h2 !! q = h !! q).
  { intros q Hq. unfold h2. rewrite list_lookup_alter_ne by lia.
    apply lookup_app_l. exact Hq. }
  unfold set_parent. rewrite H2n. rewrite (H2old gm Hgmlt), Hgm.
  rewrite (is_ancestor_old h2 n n); [| lia | | exact Hgmlt].
  - unfold replaced. rewrite H2n, (H2old gm Hgmlt), Hgm.
    cbn [o_cls o_parent]. rewrite (entity_class_not_capability cls Hcls).
    reflexivity.
  - intros q o r Hq Ho Hr. rewrite (H2old q Hq) in Ho.
    eapply Hclosed; [exact Ho|]. apply parent_is_ref. exact Hr.
Qed.

Lemma memo_fresh base seen a : (base <= memo_of base seen a)%nat.
Proof. unfold memo_of. lia. Qed.

Lemma memo_inj base seen a b :
  a ∈ seen -> b ∈ seen -> memo_of base seen a = memo_of base seen b -> a = b.
Proof.
  intros Ha Hb Heq. unfold memo_of in Heq.
  assert (Hi : index_of a seen = index_of b seen) by lia.
  pose proof (index_of_elem seen a Ha) as Ha'.
  pose proof (index_of_elem seen b Hb) as Hb'.
  rewrite Hi in Ha'. congruence.
Qed.

(** C7. On a heap without dangling references, [e.spawn(map, x, y)]
    returns a new object, the clone: it has the class and the attributes
    of [e] except for its coordinates, which are [(x, y)], and its parent
    is the map.  Every object attached below [e] has a copy of its own
    below the clone, of the same class and with the same attributes.
    [spawn] changes no object that existed before, except that the map
    gains the clone as a child.  The clone and everything below it are
    new objects, so a store into any of them, and a [move] of the clone,
    leave [e] and everything below [e] as they are. *)
Theorem spawn_is_independent_copy
    h e gm x y cls x0 y0 char color name blocks order parent children og :
  heap_closed h ->
  h !! e = Some (mkObject cls (EntityAttrs x0 y0 char color name blocks order)
                   parent children) ->
  issubclass cls Entity_cls = true ->
  h !! gm = Some og ->
  exists clone h' copy_of,
    spawn h e gm x y = inr (clone, h') /\
    (length h <= clone)%nat /\ copy_of e = clone /\
    (exists children',
        h' !! clone
        = Some (mkObject cls (EntityAttrs x y char color name blocks order)
                  (Some gm) children')) /\
    (forall c o,
        below h e c -> c <> e -> h !! c = Some o ->
        (length h <= copy_of c)%nat /\ below h' clone (copy_of c) /\
        exists o',
          h' !! copy_of c = Some o' /\ o_cls o' = o_cls o /\
          o_attrs o' = attrs_rename copy_of (o_attrs o)) /\
    (forall a o, a <> gm -> h !! a = Some o -> h' !! a = Some o) /\
    h' !! gm = Some (set_o_children (o_children og ++ [clone]) og) /\
    (forall a, below h' clone a -> (length h <= a)%nat) /\
    (forall b, below h e b -> (b < length h)%nat) /\
    (forall a o' b,
        below h' clone a -> below h e b -> <[a := o']> h' !! b = h' !! b) /\
    (forall dx dy,
        exists h'',
          move h' clone dx dy = inr h'' /\
          entity_xy h'' clone = inr (x + dx, y + dy) /\
          forall b, below h e b -> h'' !! b = h' !! b).
Proof.
  intros Hclosed0 He Hcls Hgm.
  pose proof (heap_closed_refs h Hclosed0) as Hclosed.
  destruct (spawn_heap h e gm x y cls x0 y0 char color name blocks order
              parent children og Hclosed He Hcls Hgm)
    as (seen & news & Hlen & Hnd & Hin & Hmemo & Hrefs & Hseen & Hnews
        & Hspawn).
  set (n := length h) in *. set (memo := memo_of n seen) in *.
  set (F := fun o => set_o_attrs (attrs_set_xy x y (o_attrs o)) o) in *.
  set (h2 := alter F n (h ++ news)) in *.
  set (oldp := option_map memo parent) in *.
  set (h3 := imap (relink n oldp (Some gm) []) h2) in *.
  assert (Helt : (e < n)%nat) by (eapply lookup_lt_Some; exact He).
  assert (Hgmlt : (gm < n)%nat) by (eapply lookup_lt_Some; exact Hgm).
  assert (Holdp : forall q, (q < n)%nat -> oldp <> Some q).
  { intros q Hq. unfold oldp. destruct parent as [p|]; simpl; [|discriminate].
    intros [= Hp]. pose proof (memo_fresh n seen p). fold memo in H. lia. }
  assert (H2old : forall q, (q < n)%nat -> h2 !! q = h !! q).
  { intros q Hq. unfold h2. rewrite list_lookup_alter_ne by lia.
    apply lookup_app_l. exact Hq. }
  assert (H2n : h2 !! n
                = Some (mkObject cls
                          (EntityAttrs x y char color name blocks order)
                          oldp (map memo children))).
  { destruct (Hseen e Hin) as (oe & He' & Hclone).
    rewrite He in He'. injection He' as <-. fold memo in Hclone.
    rewrite Hmemo in Hclone.
    unfold h2. rewrite list_lookup_alter_eq, Hclone. reflexivity. }
  assert (H2new : forall a o, a ∈ seen -> a <> e -> h !! a = Some o ->
            h2 !! memo a = Some (obj_rename memo o)).
  { intros a o Ha Hae Ho. destruct (Hseen a Ha) as (o' & Ho' & Hcopy).
    rewrite Ho in Ho'. injection Ho' as <-.
    unfold h2. rewrite list_lookup_alter_ne; [exact Hcopy|].
    intros Heq. apply Hae. apply (memo_inj n seen a e Ha Hin).
    fold memo. rewrite Hmemo. symmetry. exact Heq. }
  assert (H3 : forall q, h3 !! q = relink n oldp (Some gm) [] q <$> h2 !! q)
    by (intros q; apply lookup_relink).
  assert (Hkids2 : forall q o c, (n <= q)%nat -> h2 !! q = Some o ->
            c ∈ o_children o -> (n <= c)%nat).
  { intros q o c Hq Ho Hc. destruct (decide (q = n)) as [->|Hqn].
    - rewrite H2n in Ho. injection Ho as <-. simpl in Hc.
      apply list_elem_of_fmap in Hc as (c0 & -> & _). apply memo_fresh.
    - unfold h2 in Ho. rewrite list_lookup_alter_ne in Ho by lia.
      rewrite lookup_app_r in Ho by lia.
      destruct (Hnews _ _ Ho) as (a & oa & _ & _ & _ & ->).
      simpl in Hc. apply list_elem_of_fmap in Hc as (c0 & -> & _).
      apply memo_fresh. }
  assert (Hfresh : forall a, below h3 n a -> (n <= a)%nat).
  { intros a Ha. induction Ha as [|p o c _ IH Hp Hc]; [lia|].
    rewrite H3 in Hp. destruct (h2 !! p) as [o2|] eqn:Hp2; [|discriminate].
    injection Hp as <-. eapply (Hkids2 p o2 c IH Hp2).
    eapply relink_children_sub; [|exact Hc]. intros [= ->]. lia. }
  assert (Hbelow : forall c, below h e c ->
            c ∈ seen /\ below h3 n (memo c)).
  { intros c Hc. induction Hc as [|p o c _ (Hp & IH) Hpo Hc].
    - split; [exact Hin|]. fold memo in Hmemo. rewrite Hmemo. constructor.
    - assert (Hcs : c ∈ seen).
      { destruct (Hrefs p o c Hp Hpo (child_is_ref o c Hc)) as [?|Hnil];
          [assumption|inversion Hnil]. }
      split; [exact Hcs|].
      destruct (decide (c = e)) as [->|Hce];
        [fold memo in Hmemo; rewrite Hmemo; constructor|].
      assert (Hmc : memo c <> n).
      { intros Heq. apply Hce. apply (memo_inj n seen c e Hcs Hin).
        fold memo. rewrite Hmemo. exact Heq. }
      assert (Hkid : exists o2, h2 !! memo p = Some o2 /\
                                memo c ∈ o_children o2).
      { destruct (decide (p = e)) as [->|Hpe].
        - fold memo in Hmemo. rewrite Hmemo, H2n.
          eexists. split; [reflexivity|]. simpl.
          rewrite He in Hpo. injection Hpo as <-. simpl in Hc.
          apply list_elem_of_fmap. eauto.
        - rewrite (H2new p o Hp Hpe Hpo). eexists. split; [reflexivity|].
          simpl. apply list_elem_of_fmap. eauto. }
      destruct Hkid as (o2 & Ho2 & Hkid).
      eapply below_child; [exact IH| |].
      + rewrite H3, Ho2. reflexivity.
      + apply relink_children_keep; [|exact Hmc|exact Hkid].
        intros [= Heq]. pose proof (memo_fresh n seen p). fold memo in H.
        lia. }
  exists n, h3, memo. split; [exact Hspawn|]. split; [lia|].
  split; [exact Hmemo|]. split; [|split; [|split; [|split; [|split]]]].
  - rewrite H3, H2n. simpl. eexists. unfold relink. simpl.
    rewrite (bool_decide_eq_true_2 (n = n)) by reflexivity.
    rewrite (bool_decide_eq_false_2 (Some gm = Some n))
      by (intros [= ->]; lia).
    reflexivity.
  - intros c o Hc Hce Ho. destruct (Hbelow c Hc) as (Hcs & Hb).
    split; [apply memo_fresh|]. split; [exact Hb|].
    exists (relink n oldp (Some gm) [] (memo c) (obj_rename memo o)).
    rewrite H3, (H2new c o Hcs Hce Ho). auto.
  - intros a o Ha Ho.
    assert (Halt : (a < n)%nat) by (eapply lookup_lt_Some; exact Ho).
    rewrite H3, (H2old a Halt), Ho. simpl. f_equal.
    apply relink_others; [lia|apply Holdp; exact Halt|congruence].
  - rewrite H3, (H2old gm Hgmlt), Hgm. simpl. f_equal.
    unfold relink, set_o_children.
    rewrite (bool_decide_eq_false_2 (oldp = Some gm))
      by (apply Holdp; exact Hgmlt).
    rewrite (bool_decide_eq_true_2 (Some gm = Some gm)) by reflexivity.
    rewrite (bool_decide_eq_false_2 (gm = n)) by lia.
    rewrite (bool_decide_eq_false_2 (gm ∈ [])) by (intros H; inversion H).
    rewrite filter_notin_nil. reflexivity.
  - exact Hfresh.
  - split; [intros b Hb; apply (below_valid h e b Hclosed Helt Hb)|].
    split.
    + intros a o' b Ha Hb. apply list_lookup_insert_ne.
      pose proof (Hfresh a Ha).
      pose proof (below_valid h e b Hclosed Helt Hb). fold n in H0. lia.
    + intros dx dy.
      assert (H3n : exists kids,
                h3 !! n = Some (mkObject cls
                  (EntityAttrs x y char color name blocks order)
                  (Some gm) kids)).
      { rewrite H3, H2n. simpl. eexists. unfold relink. simpl.
        rewrite (bool_decide_eq_true_2 (n = n)) by reflexivity.
        reflexivity. }
      destruct H3n as (kids & H3n).
      exists (alter (fun o => set_o_attrs
                         (attrs_set_xy (x + dx) (y + dy) (o_attrs o)) o)
                n h3).
      split; [|split].
      * unfold move, entity_xy. rewrite H3n. cbn [res_bind].
        unfold set_xy. rewrite H3n. reflexivity.
      * unfold entity_xy. rewrite list_lookup_alter_eq, H3n. reflexivity.
      * intros b Hb. apply list_lookup_alter_ne.
        pose proof (below_valid h e b Hclosed Helt Hb). fold n in H. lia.
Qed.

Lemma spawn_is_independent_copy_demo :
  heap_closed template_heap /\
  exists clone h',
    spawn template_heap 1%nat 0%nat 7 3 = inr (clone, h') /\
    (length template_heap <= clone)%nat /\
    (exists children',
        h' !! clone
        = Some (mkObject Actor_cls
                  (EntityAttrs 7 3 "o" (63, 127, 63) "Orc" true ACTOR)
                  (Some 0%nat) children')) /\
    (forall a o, a <> 0%nat -> template_heap !! a = Some o ->
                 h' !! a = Some o) /\
    (forall a o' b,
        below h' clone a -> below template_heap 1%nat b ->
        <[a := o']> h' !! b = h' !! b).
Proof.
  assert (Hclosed : heap_closed template_heap) by reflexivity.
  split; [exact Hclosed|].
  destruct (spawn_is_independent_copy template_heap 1%nat 0%nat 7 3
              Actor_cls 0 0 "o" (63, 127, 63) "Orc" true ACTOR None
              [2; 3; 4]%nat
              (mkObject GameMap_cls (GameMapAttrs None (blank_map 10 8))
                 None [])
              Hclosed eq_refl eq_refl eq_refl)
    as (clone & h' & copy_of & Hspawn & Hnew & _ & Hclone & _ & Hold & _
        & _ & _ & Hindep & _).
  exists clone, h'. auto.
Defined.

(** ** Entity: move, place, __str__ *)

(** X1. [move(dx, dy)] adds the offsets to the coordinates, whatever their
    sign and wherever the result lies; it changes no other attribute and
    no other object; it lands on the [dest_xy] of the action with the
    same offsets; and the opposite move restores the heap. *)
Theorem move_translates_and_undoes
    h e cls x y char color name blocks order parent children dx dy :
  h !! e = Some (mkObject cls (EntityAttrs x y char color name blocks order)
                   parent children) ->
  exists h',
    move h e dx dy = inr h' /\
    h' !! e = Some (mkObject cls
                      (EntityAttrs (x + dx) (y + dy) char color name blocks
                         order) parent children) /\
    (forall a, a <> e -> h' !! a = h !! a) /\
    length h' = length h /\
    dest_xy h (ActionWithDirection e dx dy) = entity_xy h' e /\
    move h' e (- dx) (- dy) = inr h.
Proof.
  intros He.
  set (F := fun (u v : Z) (o : Object) =>
              set_o_attrs (attrs_set_xy u v (o_attrs o)) o).
  exists (alter (F (x + dx) (y + dy)) e h).
  assert (Hmove : move h e dx dy = inr (alter (F (x + dx) (y + dy)) e h)).
  { unfold move, entity_xy. rewrite He. cbn [res_bind].
    unfold set_xy. rewrite He. reflexivity. }
  assert (He' : alter (F (x + dx) (y + dy)) e h !! e
                = Some (mkObject cls
                          (EntityAttrs (x + dx) (y + dy) char color name
                             blocks order) parent children)).
  { rewrite list_lookup_alter_eq, He. reflexivity. }
  split; [exact Hmove|]. split; [exact He'|].
  split; [intros a Ha; apply list_lookup_alter_ne; congruence|].
  split; [apply length_alter|]. split.
  - unfold dest_xy, entity_xy. simpl. rewrite He, He'. reflexivity.
  - unfold move, entity_xy. rewrite He'. cbn [res_bind].
    unfold set_xy. rewrite He'. f_equal.
    apply list_eq. intros a. destruct (decide (a = e)) as [->|Hne].
    + rewrite list_lookup_alter_eq, He', He. simpl.
      replace (x + dx + - dx) with x by lia.
      replace (y + dy + - dy) with y by lia. reflexivity.
    + rewrite !list_lookup_alter_ne by congruence. reflexivity.
Qed.

Lemma move_translates_and_undoes_demo :
  exists h',
    move demo_heap 2%nat (-7) 0 = inr h' /\
    entity_xy h' 2%nat = inr (5 + -7, 5 + 0) /\
    move h' 2%nat (- -7) (- 0) = inr demo_heap.
Proof.
  destruct (move_translates_and_undoes demo_heap 2%nat Actor_cls 5 5 "@"
              (255, 255, 255) "Player" true ACTOR (Some 1%nat) [] (-7) 0
              eq_refl)
    as (h' & Hmove & He & _ & _ & _ & Hback).
  exists h'. split; [exact Hmove|]. split; [|exact Hback].
  unfold entity_xy. rewrite He. reflexivity.
Defined.

(** X2. [__str__] never returns the empty string: it is the name when the
    name is not empty and ["Unnamed"] otherwise. *)
Theorem Entity_str_never_empty
    h e cls x y char color name blocks order parent children :
  h !! e = Some (mkObject cls (EntityAttrs x y char color name blocks order)
                   parent children) ->
  exists s,
    Entity_str h e = inr s /\ s <> EmptyString /\
    (name <> EmptyString -> s = name) /\
    (name = EmptyString -> s = "Unnamed"%string).
Proof.
  intros He. unfold Entity_str, entity_name. rewrite He. cbn [res_bind].
  destruct (String.eqb_spec name EmptyString) as [->|Hne].
  - exists "Unnamed"%string. split; [reflexivity|].
    split; [discriminate|]. split; [intros H; contradiction|reflexivity].
  - exists name. split; [reflexivity|]. split; [exact Hne|].
    split; [reflexivity|intros H; contradiction].
Qed.

Lemma Entity_str_never_empty_demo :
  exists s,
    Entity_str demo_heap 4%nat = inr s /\ s <> EmptyString /\
    s = "Health Potion"%string.
Proof.
  destruct (Entity_str_never_empty demo_heap 4%nat Item_cls 6 5 "!"
              (127, 0, 255) "Health Potion" false ITEM (Some 1%nat) []
              eq_refl) as (s & Hs & Hne & Hname & _).
  exists s. split; [exact Hs|]. split; [exact Hne|].
  apply Hname. discriminate.
Defined.

(** ** Entity.place *)

Lemma is_ancestor_alter (f : Object -> Object) e :
  (forall o, o_parent (f o) = o_parent o) ->
  forall fuel (h : Heap) a p,
    is_ancestor fuel (alter f e h) a p = is_ancestor fuel h a p.
Proof.
  intros Hf. induction fuel as [|fuel IH]; intros h a p; [reflexivity|].
  cbn [is_ancestor]. destruct (bool_decide (a = p)); [reflexivity|].
  destruct (decide (p = e)) as [->|Hne].
  - rewrite list_lookup_alter_eq. destruct (h !! e) as [o|]; [|reflexivity].
    simpl. rewrite Hf. destruct (o_parent o); [apply IH|reflexivity].
  - rewrite list_lookup_alter_ne by congruence.
    destruct (h !! p) as [o|]; [|reflexivity].
    destruct (o_parent o); [apply IH|reflexivity].
Qed.

(** X3. [place] stores the position and re-parents the entity itself, without
    copying: moved from its map [old] to another map [gm] the entity
    leaves the children of [old], joins those of [gm], and its [gamemap]
    is [gm]; no object is allocated and no other object changes.  Called
    without a map, [place] does not keep the entity where it is: it
    detaches it from [old]. *)
Theorem place_moves_between_maps
    h e x y gm old cls x0 y0 char color name blocks order children og oo :
  h !! e = Some (mkObject cls (EntityAttrs x0 y0 char color name blocks order)
                   (Some old) children) ->
  issubclass cls Entity_cls = true ->
  h !! gm = Some og -> o_cls og = GameMap_cls ->
  h !! old = Some oo ->
  gm <> e -> old <> e -> old <> gm ->
  is_ancestor (Datatypes.S (length h)) h e gm = false ->
  (exists h',
     place h e x y (Some gm) = inr h' /\
     length h' = length h /\
     h' !! e = Some (mkObject cls
                       (EntityAttrs x y char color name blocks order)
                       (Some gm) children) /\
     Entity_gamemap h' e = inr gm /\
     h' !! gm = Some (set_o_children (o_children og ++ [e]) og) /\
     h' !! old
     = Some (set_o_children (filter (fun c => c <> e) (o_children oo)) oo) /\
     (forall q, q <> e -> q <> gm -> q <> old -> h' !! q = h !! q)) /\
  (exists h',
     place h e x y None = inr h' /\
     h' !! e = Some (mkObject cls
                       (EntityAttrs x y char color name blocks order)
                       None children) /\
     h' !! old
     = Some (set_o_children (filter (fun c => c <> e) (o_children oo)) oo) /\
     (forall q, q <> e -> q <> old -> h' !! q = h !! q)).
Proof.
  intros He Hcls Hgm Hgcls Hold Hge Hoe Hog Hanc.
  set (F := fun o : Object => set_o_attrs (attrs_set_xy x y (o_attrs o)) o).
  set (h1 := alter F e h).
  assert (Hset : set_xy h e x y = inr h1).
  { unfold set_xy. rewrite He. reflexivity. }
  assert (He1 : h1 !! e
                = Some (mkObject cls
                          (EntityAttrs x y char color name blocks order)
                          (Some old) children)).
  { unfold h1. rewrite list_lookup_alter_eq, He. reflexivity. }
  assert (Hother : forall q, q <> e -> h1 !! q = h !! q).
  { intros q Hq. unfold h1. apply list_lookup_alter_ne. congruence. }
  assert (Hlen1 : length h1 = length h) by apply length_alter.
  assert (Hnocap : is_capability cls = false)
    by (apply entity_class_not_capability; exact Hcls).
  assert (Hnotmap : issubclass cls GameMap_cls = false)
    by (destruct cls; try discriminate; reflexivity).
  split.
  - exists (imap (relink e (Some old) (Some gm) []) h1).
    assert (Hrun : place h e x y (Some gm)
                   = inr (imap (relink e (Some old) (Some gm) []) h1)).
    { unfold place. rewrite Hset. cbn [res_bind]. unfold set_parent.
      rewrite He1, (Hother gm Hge), Hgm, Hlen1. cbn [o_parent].
      unfold h1. rewrite is_ancestor_alter by (intros o; reflexivity).
      rewrite Hanc. unfold replaced.
      fold h1. rewrite He1, (Hother gm Hge), Hgm. cbn [o_cls].
      rewrite Hnocap. reflexivity. }
    assert (He' : imap (relink e (Some old) (Some gm) []) h1 !! e
                  = Some (mkObject cls
                            (EntityAttrs x y char color name blocks order)
                            (Some gm) children)).
    { rewrite lookup_relink, He1. cbn [fmap option_fmap option_map].
      unfold relink. cbn [o_cls o_attrs o_parent o_children].
      rewrite (bool_decide_eq_false_2 (Some old = Some e)) by congruence.
      rewrite (bool_decide_eq_false_2 (Some gm = Some e)) by congruence.
      rewrite (bool_decide_eq_true_2 (e = e)) by reflexivity.
      reflexivity. }
    assert (Hg' : imap (relink e (Some old) (Some gm) []) h1 !! gm
                  = Some (set_o_children (o_children og ++ [e]) og)).
    { rewrite lookup_relink, (Hother gm Hge), Hgm.
      cbn [fmap option_fmap option_map]. f_equal.
      unfold relink, set_o_children.
      rewrite (bool_decide_eq_false_2 (Some old = Some gm)) by congruence.
      rewrite (bool_decide_eq_true_2 (Some gm = Some gm)) by reflexivity.
      rewrite (bool_decide_eq_false_2 (gm = e)) by exact Hge.
      rewrite (bool_decide_eq_false_2 (gm ∈ [])) by (intros H; inversion H).
      rewrite filter_notin_nil. reflexivity. }
    split; [exact Hrun|].
    split; [rewrite length_imap; exact Hlen1|].
    split; [exact He'|]. split; [|split; [exact Hg'|split]].
    + unfold Entity_gamemap, get_parent. rewrite length_imap, Hlen1.
      cbn [get_parent_from]. rewrite He'. cbn [o_cls o_parent].
      rewrite Hnotmap.
      destruct (length h) as [|n] eqn:El.
      { apply lookup_lt_Some in He. lia. }
      cbn [get_parent_from]. rewrite Hg'. cbn [o_cls set_o_children].
      rewrite Hgcls. reflexivity.
    + rewrite lookup_relink, (Hother old Hoe), Hold.
      cbn [fmap option_fmap option_map]. f_equal.
      unfold relink, set_o_children.
      rewrite (bool_decide_eq_true_2 (Some old = Some old)) by reflexivity.
      rewrite (bool_decide_eq_false_2 (Some gm = Some old)) by congruence.
      rewrite (bool_decide_eq_false_2 (old = e)) by exact Hoe.
      rewrite (bool_decide_eq_false_2 (old ∈ [])) by (intros H; inversion H).
      reflexivity.
    + intros q Hqe Hqg Hqo. rewrite lookup_relink, (Hother q Hqe).
      destruct (h !! q) as [o|]; [|reflexivity].
      cbn [fmap option_fmap option_map]. f_equal.
      apply relink_others; congruence.
  - exists (imap (relink e (Some old) None []) h1).
    split; [|split; [|split]].
    + unfold place. rewrite Hset. cbn [res_bind]. unfold set_parent.
      rewrite He1. reflexivity.
    + rewrite lookup_relink, He1. cbn [fmap option_fmap option_map].
      unfold relink. cbn [o_cls o_attrs o_parent o_children].
      rewrite (bool_decide_eq_false_2 (Some old = Some e)) by congruence.
      rewrite (bool_decide_eq_false_2 (None = Some e)) by congruence.
      rewrite (bool_decide_eq_true_2 (e = e)) by reflexivity.
      reflexivity.
    + rewrite lookup_relink, (Hother old Hoe), Hold.
      cbn [fmap option_fmap option_map]. f_equal.
      unfold relink, set_o_children.
      rewrite (bool_decide_eq_true_2 (Some old = Some old)) by reflexivity.
      rewrite (bool_decide_eq_false_2 (None = Some old)) by congruence.
      rewrite (bool_decide_eq_false_2 (old = e)) by exact Hoe.
      rewrite (bool_decide_eq_false_2 (old ∈ [])) by (intros H; inversion H).
      reflexivity.
    + intros q Hqe Hqo. rewrite lookup_relink, (Hother q Hqe).
      destruct (h !! q) as [o|]; [|reflexivity].
      cbn [fmap option_fmap option_map]. f_equal.
      apply relink_others; congruence.
Qed.

Lemma place_moves_between_maps_demo :
  exists h',
    place two_maps_heap 2%nat 1 7 (Some 3%nat) = inr h' /\
    length h' = length two_maps_heap /\
    Entity_gamemap two_maps_heap 2%nat = inr 1%nat /\
    Entity_gamemap h' 2%nat = inr 3%nat /\
    entity_xy h' 2%nat = inr (1, 7).
Proof.
  destruct (place_moves_between_maps two_maps_heap 2%nat 1 7 3%nat 1%nat
              Actor_cls 5 5 "@" (255, 255, 255) "Player" true ACTOR []
              (mkObject GameMap_cls (GameMapAttrs (Some 0%nat) (blank_map 12 9))
                 (Some 0%nat) [])
              (mkObject GameMap_cls (GameMapAttrs (Some 0%nat) (blank_map 10 8))
                 (Some 0%nat) [2%nat])
              eq_refl eq_refl eq_refl eq_refl eq_refl)
    as ((h' & Hrun & Hlen & He & Hmap & _) & _);
    [discriminate|discriminate|discriminate|reflexivity|].
  exists h'. split; [exact Hrun|]. split; [exact Hlen|].
  split; [reflexivity|]. split; [exact Hmap|].
  unfold entity_xy. rewrite He. reflexivity.
Defined.

(** ** Actor and Item: the capabilities passed to the constructor *)

(** The heap [Actor.__init__] leaves: the new actor is a root that holds
    its AI, the fighter and the inventory, in this order. *)
Lemma Actor_init_holds h x y char color name ai_cls fighter fo inventory :
  issubclass ai_cls BaseAI_cls = true ->
  h !! fighter = Some fo -> o_cls fo = Fighter_cls ->
  (forall i, inventory = Some i -> class_of h i = Some Inventory_cls) ->
  exists h' inv,
    Actor_init h x y char color name ai_cls fighter inventory
    = inr (length h, h') /\
    holds h' (length h) [Datatypes.S (length h); fighter; inv] /\
    class_of h' (Datatypes.S (length h)) = Some ai_cls /\
    class_of h' fighter = Some Fighter_cls /\
    class_of h' inv = Some Inventory_cls /\
    match inventory with
    | Some i => inv = i /\ length h' = Datatypes.S (Datatypes.S (length h))
    | None => inv = Datatypes.S (Datatypes.S (length h)) /\
              length h' = Datatypes.S (Datatypes.S (Datatypes.S (length h)))
    end.
Proof.
  intros Hai Hf Hfc Hinv.
  destruct (ai_class_cases ai_cls Hai) as (HaiF & HaiI).
  set (self := length h).
  set (so := mkObject Actor_cls (EntityAttrs x y char color name true ACTOR)
               None []).
  set (ao := mkObject ai_cls (ComponentAttrs []) None []).
  set (ai := length (h ++ [so])).
  set (h2 := (h ++ [so]) ++ [ao]).
  assert (Hai_eq : ai = Datatypes.S self)
    by (unfold ai, self; rewrite length_app; simpl; lia).
  assert (Hflt : (fighter < self)%nat) by (eapply lookup_lt_Some; exact Hf).
  assert (Hlen2 : length h2 = Datatypes.S (Datatypes.S self))
    by (unfold h2, self; rewrite !length_app; simpl; lia).
  assert (Hcls2 : forall q, class_of h2 q
            = if decide (q = ai) then Some ai_cls
              else if decide (q = self) then Some Actor_cls
              else class_of h q).
  { intros q. unfold h2. rewrite class_of_alloc. fold ai.
    destruct (decide (q = ai)); [reflexivity|].
    rewrite class_of_alloc. reflexivity. }
  assert (H2 : holds h2 self []).
  { exists so. split.
    - unfold h2. apply lookup_app_l_Some. unfold self.
      rewrite lookup_app_r by lia. rewrite Nat.sub_diag. reflexivity.
    - split; [reflexivity|]. split; [reflexivity|].
      intros x' Hx'. inversion Hx'. }
  destruct (attach_step h2 self [] ai ai_cls H2) as (h3 & E3 & H3 & L3 & C3).
  { rewrite Hcls2. rewrite decide_True by reflexivity. reflexivity. }
  { lia. }
  { intros Hx'. inversion Hx'. }
  { intros x' Hx'. inversion Hx'. }
  destruct (attach_step h3 self [ai] fighter Fighter_cls H3)
    as (h4 & E4 & H4 & L4 & C4).
  { rewrite C3, Hcls2. rewrite !decide_False by lia.
    apply class_of_Some. eauto. }
  { lia. }
  { intros Hx'. apply list_elem_of_singleton in Hx'. lia. }
  { intros x' Hx'. apply list_elem_of_singleton in Hx' as ->.
    rewrite C3, Hcls2. rewrite decide_True by reflexivity. congruence. }
  simpl app in H4.
  assert (Hc4ai : class_of h4 ai = Some ai_cls)
    by (rewrite C4, C3, Hcls2, decide_True by reflexivity; reflexivity).
  assert (Hc4f : class_of h4 fighter = Some Fighter_cls).
  { rewrite C4, C3, Hcls2. rewrite !decide_False by lia.
    apply class_of_Some. eauto. }
  assert (Hlen4 : length h4 = Datatypes.S (Datatypes.S self))
    by (rewrite L4, L3; exact Hlen2).
  assert (Hrun : forall inv h5 h6,
            match inventory with
            | Some i => (i, h4)
            | None => alloc h4 (mkObject Inventory_cls
                                  (ComponentAttrs [0]) None [])
            end = (inv, h5) ->
            set_parent h5 inv (Some self) = inr h6 ->
            Actor_init h x y char color name ai_cls fighter inventory
            = inr (self, h6)).
  { intros inv h5 h6 E5 E6.
    unfold Actor_init, alloc. fold self so. fold ai ao. fold h2.
    rewrite E3. simpl res_bind. rewrite E4. simpl res_bind.
    unfold alloc in E5. rewrite E5. rewrite E6. reflexivity. }
  rewrite <- Hai_eq.
  destruct inventory as [i|].
  - pose proof (Hinv i eq_refl) as Hi.
    assert (Hilt : (i < self)%nat).
    { apply class_of_Some in Hi as (io & Hio & _).
      eapply lookup_lt_Some. exact Hio. }
    assert (Hc4i : class_of h4 i = Some Inventory_cls)
      by (rewrite C4, C3, Hcls2; rewrite !decide_False by lia; exact Hi).
    destruct (attach_step h4 self [ai; fighter] i Inventory_cls H4 Hc4i)
      as (h6 & E6 & H6 & L6 & C6).
    { lia. }
    { intros Hx'. apply elem_of_cons in Hx' as [->|Hx']; [lia|].
      apply list_elem_of_singleton in Hx' as ->. congruence. }
    { intros x' Hx'. apply elem_of_cons in Hx' as [->|Hx'].
      - rewrite Hc4ai. congruence.
      - apply list_elem_of_singleton in Hx' as ->. rewrite Hc4f.
        discriminate. }
    exists h6, i. split; [exact (Hrun i h4 h6 eq_refl E6)|].
    split; [exact H6|]. rewrite !C6.
    split; [exact Hc4ai|]. split; [exact Hc4f|]. split; [exact Hc4i|].
    split; [reflexivity|]. lia.
  - set (io := mkObject Inventory_cls (ComponentAttrs [0]) None []).
    assert (Hc5 : forall q, class_of (h4 ++ [io]) q
              = if decide (q = length h4) then Some Inventory_cls
                else class_of h4 q)
      by (intros q; apply class_of_alloc).
    destruct (attach_step (h4 ++ [io]) self [ai; fighter] (length h4)
                Inventory_cls (holds_alloc _ _ _ io H4))
      as (h6 & E6 & H6 & L6 & C6).
    { rewrite Hc5, decide_True by reflexivity. reflexivity. }
    { lia. }
    { intros Hx'. apply elem_of_cons in Hx' as [Hx'|Hx']; [lia|].
      apply list_elem_of_singleton in Hx'. lia. }
    { intros x' Hx'. rewrite Hc5. apply elem_of_cons in Hx' as [->|Hx'].
      - rewrite decide_False by lia. rewrite Hc4ai. congruence.
      - apply list_elem_of_singleton in Hx' as ->.
        rewrite decide_False by lia. rewrite Hc4f. discriminate. }
    exists h6, (length h4).
    split; [exact (Hrun (length h4) (h4 ++ [io]) h6 eq_refl E6)|].
    split; [exact H6|].
    split; [rewrite C6, Hc5, decide_False by lia; exact Hc4ai|].
    split; [rewrite C6, Hc5, decide_False by lia; exact Hc4f|].
    split; [rewrite C6, Hc5, decide_True by reflexivity; reflexivity|].
    split; [lia|]. rewrite L6, length_app. simpl. lia.
Qed.

(** X4. The properties [fighter] and [inventory] of a new actor return what
    the constructor attached: the fighter passed in, and the inventory
    passed in or, when none was, one new [Inventory] allocated for this
    actor; neither lookup raises. *)
Theorem actor_capabilities_round_trip
    h x y char color name ai_cls fighter fo inventory :
  issubclass ai_cls BaseAI_cls = true ->
  h !! fighter = Some fo -> o_cls fo = Fighter_cls ->
  (forall i, inventory = Some i -> class_of h i = Some Inventory_cls) ->
  exists self h' inv,
    Actor_init h x y char color name ai_cls fighter inventory
    = inr (self, h') /\
    Actor_fighter h' self = inr fighter /\
    Actor_inventory h' self = inr inv /\
    class_of h' inv = Some Inventory_cls /\
    match inventory with
    | Some i => inv = i /\ (length h' = length h + 2)%nat
    | None => (length h <= inv)%nat /\ (length h' = length h + 3)%nat
    end.
Proof.
  intros Hai Hf Hfc Hinv.
  destruct (Actor_init_holds h x y char color name ai_cls fighter fo inventory
              Hai Hf Hfc Hinv)
    as (h' & inv & Hrun & Hholds & Cai & Cf & Ci & Hwhich).
  destruct (ai_class_cases ai_cls Hai) as (HaiF & HaiI).
  destruct Hholds as (o & Ho & _ & Hch & _).
  exists (length h), h', inv. split; [exact Hrun|].
  assert (HaF : issubclass ai_cls Fighter_cls = false)
    by (destruct ai_cls; try discriminate; reflexivity || congruence).
  assert (HaI : issubclass ai_cls Inventory_cls = false)
    by (destruct ai_cls; try discriminate; reflexivity || congruence).
  split; [|split; [|split; [exact Ci|]]].
  - unfold Actor_fighter, get_item, try_get. rewrite Ho, Hch. cbn [find].
    rewrite (isinstance_of_class h' _ ai_cls Fighter_cls Cai), HaF.
    rewrite (isinstance_of_class h' _ Fighter_cls Fighter_cls Cf).
    reflexivity.
  - unfold Actor_inventory, get_item, try_get. rewrite Ho, Hch. cbn [find].
    rewrite (isinstance_of_class h' _ ai_cls Inventory_cls Cai), HaI.
    rewrite (isinstance_of_class h' _ Fighter_cls Inventory_cls Cf).
    rewrite (isinstance_of_class h' _ Inventory_cls Inventory_cls Ci).
    reflexivity.
  - destruct inventory; destruct Hwhich as (-> & ->); split;
      try reflexivity; lia.
Qed.

Lemma actor_capabilities_round_trip_demo :
  issubclass HostileEnemy_cls BaseAI_cls = true /\
  exists self h' inv,
    Actor_init fighter_heap 3 4 "o" (63, 127, 63) "Orc" HostileEnemy_cls
      0%nat None = inr (self, h') /\
    Actor_fighter h' self = inr 0%nat /\
    Actor_inventory h' self = inr inv.
Proof.
  split; [reflexivity|].
  destruct (actor_capabilities_round_trip fighter_heap 3 4 "o" (63, 127, 63)
              "Orc" HostileEnemy_cls 0%nat
              (mkObject Fighter_cls (ComponentAttrs [30; 30; 1; 5]) None [])
              None eq_refl eq_refl eq_refl)
    as (self & h' & inv & Hrun & Hf & Hi & _).
  { intros i Hi. discriminate. }
  exists self, h', inv. split; [exact Hrun|]. split; [exact Hf|exact Hi].
Defined.

(** X5. An item never blocks movement and is drawn as an item; its
    [consumable] is the capability passed to the constructor, or None
    when none was passed, in which case the item has no child at all. *)
Theorem item_consumable_round_trip h x y char color name consumable :
  (forall c, consumable = Some c -> class_of h c = Some Consumable_cls) ->
  exists self h',
    Item_init h x y char color name consumable = inr (self, h') /\
    Item_consumable h' self = consumable /\
    entity_blocks_movement h' self = false /\
    entity_render_order h' self = inr ITEM /\
    entity_xy h' self = inr (x, y) /\
    (length h' = length h + 1)%nat.
Proof.
  intros Hc.
  set (so := mkObject Item_cls (EntityAttrs x y char color name false ITEM)
               None []).
  assert (Hs : (h ++ [so]) !! length h = Some so).
  { rewrite lookup_app_r by lia. rewrite Nat.sub_diag. reflexivity. }
  destruct consumable as [c|].
  - pose proof (Hc c eq_refl) as Hcc.
    apply class_of_Some in Hcc as (oc & Hoc & Hcls).
    assert (Hclt : (c < length h)%nat) by (eapply lookup_lt_Some; exact Hoc).
    destruct (set_parent_attach (h ++ [so]) c (length h) oc so)
      as (h' & Hset & Hlen & Hclass & Hself & _ & _).
    { apply lookup_app_l_Some. exact Hoc. }
    { exact Hs. }
    { reflexivity. }
    { lia. }
    { intros H. inversion H. }
    { intros q H. inversion H. }
    exists (length h), h'. split.
    { unfold Item_init, alloc. fold so. rewrite Hset. reflexivity. }
    split.
    { unfold Item_consumable, try_get. rewrite Hself.
      cbn [set_o_children o_children so app find].
      rewrite (isinstance_of_class h' c Consumable_cls Consumable_cls).
      - reflexivity.
      - rewrite Hclass, class_of_alloc. rewrite decide_False by lia.
        apply class_of_Some. eauto. }
    unfold entity_blocks_movement, entity_render_order, entity_xy.
    rewrite Hself. cbn. repeat split.
    rewrite Hlen, length_app. simpl. lia.
  - exists (length h), (h ++ [so]). split; [reflexivity|].
    unfold Item_consumable, try_get, entity_blocks_movement,
      entity_render_order, entity_xy.
    rewrite Hs. cbn. repeat split. rewrite length_app. simpl. lia.
Qed.

Lemma item_consumable_round_trip_demo :
  class_of potion_heap 0%nat = Some Consumable_cls /\
  exists self h',
    Item_init potion_heap 6 5 "!" (127, 0, 255) "Health Potion" (Some 0%nat)
    = inr (self, h') /\
    Item_consumable h' self = Some 0%nat /\
    entity_blocks_movement h' self = false.
Proof.
  split; [reflexivity|].
  destruct (item_consumable_round_trip potion_heap 6 5 "!" (127, 0, 255)
              "Health Potion" (Some 0%nat))
    as (self & h' & Hrun & Hc & Hb & _).
  { intros c [= <-]. reflexivity. }
  exists self, h'. split; [exact Hrun|]. split; [exact Hc|exact Hb].
Defined.

(** ** The layers of a map *)

Lemma nd_get_full {A} (w h : Z) (v : A) x y :
  0 <= x < w -> 0 <= y < h ->
  nd_get (mkNDArray w h (replicate (Z.to_nat (w * h)) v)) x y = inr v.
Proof.
  intros Hx Hy. rewrite nd_get_in by (simpl; lia).
  unfold flat. cbn [data dim0].
  rewrite lookup_replicate_2; [reflexivity|]. nia.
Qed.






(** X7. The constructor ends with [generate_map] and does not run
    [populate_blocked]: on a map just constructed every cell reports
    not blocked, not visible and not explored, its memory is the shroud
    and its content list is empty, whatever rooms were dug. *)
Theorem constructed_map_layers_untouched w h s m s' x y :
  GameMap_init w h s = (inr m, s') ->
  in_bounds m x y = true ->
  is_blocked m x y = inr false /\
  nd_get (visible m) x y = inr false /\
  nd_get (explored m) x y = inr false /\
  nd_get (memory m) x y = inr SHROUD /\
  py_getitem (tile_content m) (idx m x y) = inr [].
Proof.
  intros Hinit Hin.
  destruct (GameMap_init_same_frame w h s m s' Hinit)
    as (Hw & Hh & Hmem & Hcont & Hbl & Hvis & Hexp).
  apply in_bounds_iff in Hin. rewrite Hw, Hh in Hin. simpl in Hin.
  destruct Hin as [Hx Hy].
  unfold is_blocked. rewrite Hbl, Hvis, Hexp, Hmem, Hcont.
  unfold idx. rewrite Hw. simpl.
  repeat (split; [apply nd_get_full; assumption|]).
  destruct (py_getitem_in (replicate (Z.to_nat (w * h)) ([] : list EntityID))
              (y * w + x)) as (v & Hv & Hget).
  { rewrite length_replicate. nia. }
  apply lookup_replicate in Hv as [-> _]. exact Hget.
Qed.

Lemma constructed_map_layers_untouched_demo :
  GameMap_init 40 30 demo_state = (inr demo_map1, demo_state1) /\
  in_bounds demo_map1 6 20 = true /\
  nd_get (tiles demo_map1) 0 0 = inr (TileType_value WALL) /\
  is_blocked demo_map1 0 0 = inr false.
Proof.
  assert (Hinit : GameMap_init 40 30 demo_state = (inr demo_map1, demo_state1))
    by (vm_compute; reflexivity).
  assert (Hin : in_bounds demo_map1 0 0 = true) by (vm_compute; reflexivity).
  split; [exact Hinit|]. split; [vm_compute; reflexivity|].
  split; [vm_compute; reflexivity|].
  exact (proj1 (constructed_map_layers_untouched 40 30 demo_state demo_map1
                  demo_state1 0 0 Hinit Hin)).
Defined.

(** ** The content index *)

Lemma py_getitem_raises {A} (l : list A) (i : Z) :
  Z.of_nat (length l) <= i \/ i < - Z.of_nat (length l) ->
  py_getitem l i = inl IndexError.
Proof.
  intros Hi. unfold py_getitem.
  destruct (Z.leb_spec 0 i), (Z.ltb_spec i (Z.of_nat (length l))),
    (Z.leb_spec (- Z.of_nat (length l)) i), (Z.ltb_spec i 0);
    try lia; reflexivity.
Qed.

Lemma py_getitem_wrap {A} (l : list A) (i : Z) :
  - Z.of_nat (length l) <= i < 0 ->
  py_getitem l i = py_getitem l (i + Z.of_nat (length l)).
Proof.
  intros Hi. unfold py_getitem.
  destruct (Z.leb_spec 0 i), (Z.ltb_spec i (Z.of_nat (length l))),
    (Z.leb_spec (- Z.of_nat (length l)) i), (Z.ltb_spec i 0),
    (Z.leb_spec 0 (i + Z.of_nat (length l))),
    (Z.ltb_spec (i + Z.of_nat (length l)) (Z.of_nat (length l)));
    try lia.
  reflexivity.
Qed.

Lemma py_getitem_map {A B} (f : A -> B) (l : list A) (i : Z) :
  py_getitem (map f l) i
  = match py_getitem l i with inr v => inr (f v) | inl e => inl e end.
Proof.
  unfold py_getitem. rewrite length_map.
  destruct ((0 <=? i) && (i <? Z.of_nat (length l))).
  - change (map f l) with (f <$> l). rewrite list_lookup_fmap.
    destruct (l !! Z.to_nat i); reflexivity.
  - destruct ((- Z.of_nat (length l) <=? i) && (i <? 0)); [|reflexivity].
    change (map f l) with (f <$> l). rewrite list_lookup_fmap.
    destruct (l !! Z.to_nat (i + Z.of_nat (length l))); reflexivity.
Qed.

(** X8. [get_target_at_location] reads one slot of the content index, which
    is a flat Python list.  On the map it returns the first entity of the
    cell that has combat stats, or None.  Off the map it raises
    IndexError only when the flat index leaves the list: an x past the
    right edge reads the next row, and a negative flat index reads from
    the end of the list. *)
Theorem get_target_reads_flat_index h self x y :
  length (tile_content self) = Z.to_nat (width self * height self) ->
  (in_bounds self x y = true ->
   exists content,
     tile_content self !! Z.to_nat (idx self x y) = Some content /\
     first_of (has_combat_stats h) content
       (get_target_at_location h self x y)) /\
  (0 <= width self * height self ->
   width self * height self <= idx self x y \/
   idx self x y < - (width self * height self) ->
   get_target_at_location h self x y = inl IndexError) /\
  get_target_at_location h self (x + width self) y
  = get_target_at_location h self x (y + 1) /\
  (0 <= width self * height self ->
   - (width self * height self) <= idx self x y < 0 ->
   get_target_at_location h self x y
   = get_target_at_location h self x (y + height self)).
Proof.
  intros Hlen. split; [|split; [|split]].
  - intros Hin.
    destruct (scan_content_in (has_combat_stats h) self x y Hin Hlen)
      as (content & Hc & Hscan).
    exists content. split; [exact Hc|].
    unfold get_target_at_location. rewrite Hscan. apply find_first_of.
  - intros Hwh Hi. unfold get_target_at_location, scan_content.
    rewrite py_getitem_raises; [reflexivity|]. rewrite Hlen. lia.
  - unfold get_target_at_location, scan_content, idx.
    replace ((y + 1) * width self + x) with (y * width self + (x + width self))
      by lia.
    reflexivity.
  - intros Hwh Hi. unfold get_target_at_location, scan_content.
    rewrite py_getitem_wrap by (rewrite Hlen; lia).
    rewrite Hlen, Z2Nat.id by lia. unfold idx.
    replace ((y + height self) * width self + x)
      with (y * width self + x + width self * height self) by lia.
    reflexivity.
Qed.

Lemma get_target_reads_flat_index_demo :
  length (tile_content demo_content_map)
  = Z.to_nat (width demo_content_map * height demo_content_map) /\
  in_bounds demo_content_map 6 5 = true /\
  get_target_at_location arena_heap demo_content_map 6 5 = inr (Some 3%nat) /\
  first_of (has_combat_stats arena_heap) [4; 3]%nat
    (get_target_at_location arena_heap demo_content_map 6 5) /\
  in_bounds demo_content_map (-4) 6 = false /\
  get_target_at_location arena_heap demo_content_map (-4 + 10) 5
  = get_target_at_location arena_heap demo_content_map (-4) (5 + 1).
Proof.
  assert (Hlen : length (tile_content demo_content_map)
                 = Z.to_nat (width demo_content_map * height demo_content_map))
    by (vm_compute; reflexivity).
  destruct (get_target_reads_flat_index arena_heap demo_content_map 6 5 Hlen)
    as (Hon & _ & _ & _).
  destruct (get_target_reads_flat_index arena_heap demo_content_map (-4) 5
              Hlen) as (_ & _ & Hrow & _).
  split; [exact Hlen|]. split; [reflexivity|].
  split; [vm_compute; reflexivity|]. split.
  - destruct (Hon eq_refl) as (content & Hc & Hfirst).
    vm_compute in Hc. injection Hc as <-. exact Hfirst.
  - split; [reflexivity|exact Hrow].
Defined.

(** X9. [clear_content_index] empties every slot of the content index and
    keeps their number; it touches no other layer; a second call changes
    nothing; and afterwards [get_target_at_location] finds nobody
    wherever it returned before, and raises wherever it raised. *)
Theorem clear_content_index_empties h self x y :
  length (tile_content (clear_content_index self))
  = length (tile_content self) /\
  Forall (fun content => content = [])
    (tile_content (clear_content_index self)) /\
  width (clear_content_index self) = width self /\
  height (clear_content_index self) = height self /\
  tiles (clear_content_index self) = tiles self /\
  memory (clear_content_index self) = memory self /\
  blocked (clear_content_index self) = blocked self /\
  visible (clear_content_index self) = visible self /\
  explored (clear_content_index self) = explored self /\
  clear_content_index (clear_content_index self) = clear_content_index self /\
  get_target_at_location h (clear_content_index self) x y
  = match get_target_at_location h self x y with
    | inr _ => inr None
    | inl e => inl e
    end.
Proof.
  split; [apply length_map|]. split.
  { cbn [tile_content clear_content_index].
    induction (tile_content self); simpl; constructor; auto. }
  do 7 (split; [reflexivity|]). split.
  { unfold clear_content_index. simpl. f_equal. rewrite map_map. reflexivity. }
  unfold get_target_at_location, scan_content.
  change (idx (clear_content_index self) x y) with (idx self x y).
  cbn [tile_content clear_content_index]. rewrite py_getitem_map.
  destruct (py_getitem (tile_content self) (idx self x y)); reflexivity.
Qed.

(** ** Generation: grids that are too small, rooms of a larger map *)

Lemma attempt_small self s :
  width self <= MIN_SIZE \/ height self <= MIN_SIZE ->
  exists n, (n <= 3)%nat /\ attempt self s = (inl ValueError, advance n s).
Proof.
  intros Hsmall. unfold attempt.
  assert (Hdraw : exists n, (n <= 3)%nat /\
                    draw_room self s = (inl ValueError, advance n s)).
  { unfold draw_room.
    destruct (randint_cases MIN_SIZE MAX_SIZE s)
      as [(Hlt & _)|(_ & w & Hw & Ew)];
      [unfold MIN_SIZE, MAX_SIZE in Hlt; lia|].
    rewrite (bind_run _ _ _ _ _ Ew).
    destruct (randint_cases MIN_SIZE MAX_SIZE (advance 1 s))
      as [(Hlt & _)|(_ & h & Hh & Eh)];
      [unfold MIN_SIZE, MAX_SIZE in Hlt; lia|].
    rewrite (bind_run _ _ _ _ _ Eh). rewrite advance_advance in *.
    destruct (randint_cases 0 (width self - w - 1) (advance (1 + 1) s))
      as [(_ & Ex)|(Hwide & x & Hx & Ex)].
    { rewrite (bind_raise _ _ _ _ _ Ex). exists 2%nat. split; [lia|].
      reflexivity. }
    rewrite (bind_run _ _ _ _ _ Ex). rewrite advance_advance in *.
    destruct (randint_cases 0 (height self - h - 1) (advance (1 + (1 + 1)) s))
      as [(_ & Ey)|(Hhigh & _)].
    { rewrite (bind_raise _ _ _ _ _ Ey). exists 3%nat. split; [lia|].
      reflexivity. }
    unfold MIN_SIZE in *. lia. }
  destruct Hdraw as (n & Hn & Hdraw).
  exists n. split; [exact Hn|]. apply bind_raise. exact Hdraw.
Qed.

(** X10. A grid whose width or height is at most MIN_SIZE has no place for
    any room: the constructor never returns a map for it.  It raises
    ValueError, from the array constructor or from the first attempt's
    position draw, after three draws from the random source at most, and
    leaves the room list as it was. *)
Theorem construction_raises_on_small_grid w h s :
  w <= MIN_SIZE \/ h <= MIN_SIZE ->
  exists s',
    GameMap_init w h s = (inl ValueError, s') /\
    GameMap_rooms s' = GameMap_rooms s /\
    tape (engine_rng s') = tape (engine_rng s) /\
    (cursor (engine_rng s) <= cursor (engine_rng s')
     <= cursor (engine_rng s) + 3)%nat.
Proof.
  intros Hsmall.
  destruct (GameMap_init_cases w h s) as [(_ & E)|(Hw & Hh & E)]; rewrite E.
  - exists s. split; [reflexivity|]. split; [reflexivity|].
    split; [reflexivity|]. lia.
  - destruct (attempt_small (blank_map w h) s Hsmall) as (n & Hn & Hrun).
    exists (advance n s). split.
    + unfold generate_map. change (Z.to_nat MAX_ROOMS) with 30%nat.
      cbn [repeat_n]. apply bind_raise. exact Hrun.
    + split; [apply advance_rooms|]. split; [reflexivity|].
      cbn [advance cursor engine_rng]. lia.
Qed.

Lemma construction_raises_on_small_grid_demo :
  6 <= MIN_SIZE /\
  exists s',
    GameMap_init 6 20 demo_state = (inl ValueError, s') /\
    GameMap_rooms s' = GameMap_rooms demo_state.
Proof.
  split; [unfold MIN_SIZE; lia|].
  destruct (construction_raises_on_small_grid 6 20 demo_state)
    as (s' & Hrun & Hrooms & _).
  { left. unfold MIN_SIZE. lia. }
  exists s'. split; [exact Hrun|exact Hrooms].
Defined.

Lemma set_tile_raises self x y v :
  grids_ok self -> 0 <= x -> 0 <= y ->
  width self <= x \/ height self <= y ->
  set_tile self x y v = inl IndexError.
Proof.
  intros (Hw & Hh & _) Hx Hy Hout. unfold set_tile, nd_set, norm_index.
  rewrite Hw, Hh.
  destruct (Z.leb_spec 0 x), (Z.ltb_spec x (width self)),
    (Z.leb_spec (- width self) x), (Z.ltb_spec x 0); try lia;
    cbn [andb res_bind]; try reflexivity;
    destruct (Z.leb_spec 0 y), (Z.ltb_spec y (height self)),
      (Z.leb_spec (- height self) y), (Z.ltb_spec y 0); try lia;
    reflexivity.
Qed.

(** X11. The tunnel to a new room starts at the center of the last room of
    the shared list, which may belong to an earlier, larger map.  When
    that center lies beyond the width or the height of this map, placing
    any room that intersects no listed room raises IndexError at the
    first tunnel cell, and the room is not appended. *)
Theorem place_room_raises_off_grid self room s prev :
  grids_ok self ->
  existsb (intersects room) (GameMap_rooms s) = false ->
  last (GameMap_rooms s) = Some prev ->
  0 <= fst (center prev) -> 0 <= snd (center prev) ->
  width self <= fst (center prev) \/ height self <= snd (center prev) ->
  exists s',
    place_room self room s = (inl IndexError, s') /\
    GameMap_rooms s' = GameMap_rooms s.
Proof.
  intros Hok Hex Hlast Hx Hy Hout.
  destruct (place_room_next self room s prev Hex Hlast) as (k & _ & Hrun).
  destruct (dig_room_spec self room Hok) as ((Hw1 & Hh1 & _) & Hok1 & _).
  destruct (tunnel_cells_joins (lt_half k) (center prev) (center room))
    as ((Hhead & _) & _).
  destruct (tunnel_cells (lt_half k) (center prev) (center room))
    as [|c cells]; [discriminate|].
  injection Hhead as ->.
  assert (Hcarve : carve (dig_room self room) (center prev :: cells)
                   = inl IndexError).
  { unfold carve. cbn [res_fold].
    rewrite set_tile_raises; [reflexivity|exact Hok1|exact Hx|exact Hy|].
    rewrite Hw1, Hh1. exact Hout. }
  rewrite Hcarve in Hrun.
  exists (advance 1 s). split; [exact Hrun|apply advance_rooms].
Qed.

Lemma place_room_raises_off_grid_demo :
  grids_ok (blank_map 20 20) /\
  last (GameMap_rooms demo_state3) = Some (mkRect 56 1 62 10) /\
  exists s',
    place_room (blank_map 20 20) (Rect_init 0 0 6 6) demo_state3
    = (inl IndexError, s') /\
    GameMap_rooms s' = GameMap_rooms demo_state3.
Proof.
  assert (Hok : grids_ok (blank_map 20 20)) by (apply grids_ok_blank; lia).
  assert (Hlast : last (GameMap_rooms demo_state3) = Some (mkRect 56 1 62 10))
    by (vm_compute; reflexivity).
  assert (Hex : existsb (intersects (Rect_init 0 0 6 6))
                  (GameMap_rooms demo_state3) = false)
    by (vm_compute; reflexivity).
  split; [exact Hok|]. split; [exact Hlast|].
  apply (place_room_raises_off_grid (blank_map 20 20) (Rect_init 0 0 6 6)
           demo_state3 (mkRect 56 1 62 10) Hok Hex Hlast).
  - vm_compute. discriminate.
  - vm_compute. discriminate.
  - left. vm_compute. discriminate.
Defined.

(** ** Which tiles generation writes *)

Lemma slice_indices_range dim sl i :
  0 <= dim -> In i (slice_indices dim sl) -> 0 <= i < dim.
Proof.
  intros Hd Hi. unfold slice_indices in Hi. apply in_zrange in Hi.
  unfold clip_bound in Hi.
  destruct (Z.ltb_spec (fst sl) 0), (Z.ltb_spec (snd sl) 0); lia.
Qed.

Lemma slice_indices_in dim lo hi i :
  0 <= lo -> lo <= hi -> hi <= dim ->
  In i (slice_indices dim (lo, hi)) <-> lo <= i < hi.
Proof.
  intros Hlo Hle Hhi. unfold slice_indices, clip_bound. cbn [fst snd].
  rewrite in_zrange.
  destruct (Z.ltb_spec lo 0), (Z.ltb_spec hi 0); lia.
Qed.

Lemma fold_left_inv_in {A B} (Q : B -> Prop) (f : B -> A -> B) xs :
  (forall b x, In x xs -> Q b -> Q (f b x)) ->
  forall b, Q b -> Q (fold_left f xs b).
Proof.
  induction xs as [|x xs IH]; intros Hstep b Hb; simpl; [exact Hb|].
  apply IH.
  - intros b' x' Hin. apply Hstep. right. exact Hin.
  - apply Hstep; [left; reflexivity|exact Hb].
Qed.

Lemma fold_left_hits {A B} (Q R : B -> Prop) (f : B -> A -> B) x0 xs :
  (forall b x, In x xs -> Q b -> Q (f b x)) ->
  (forall b x, In x xs -> Q b -> R b -> R (f b x)) ->
  (forall b, Q b -> R (f b x0)) ->
  forall b, Q b -> R b \/ In x0 xs -> R (fold_left f xs b).
Proof.
  induction xs as [|x xs IH]; intros HQ HR Hhit b Hb Hor; simpl.
  - destruct Hor as [H|[]]. exact H.
  - apply IH.
    + intros b' x' Hin. apply HQ. right. exact Hin.
    + intros b' x' Hin. apply HR. right. exact Hin.
    + exact Hhit.
    + apply HQ; [left; reflexivity|exact Hb].
    + destruct Hor as [H|[->|H]].
      * left. apply HR; [left; reflexivity|exact Hb|exact H].
      * left. apply Hhit. exact Hb.
      * right. exact H.
Qed.

Lemma same_shape_put {A} (a b : NDArray A) i j v :
  same_shape a b -> same_shape a (nd_put b i j v).
Proof.
  intros (H0 & H1 & Hl). unfold same_shape, nd_put. simpl.
  rewrite length_insert. auto.
Qed.

Lemma same_shape_fill {A} (a : NDArray A) sx sy v :
  same_shape a (nd_fill_slices a sx sy v).
Proof.
  unfold nd_fill_slices.
  apply (fold_left_inv_in (same_shape a)); [|repeat split].
  intros b i _ Hb.
  apply (fold_left_inv_in (same_shape a)); [|exact Hb].
  intros b' j _ Hb'. apply same_shape_put. exact Hb'.
Qed.

(** A slice assignment leaves every cell outside the two slices as it
    was. *)
Lemma nd_fill_slices_other {A} (a : NDArray A) sx sy v x y :
  well_shaped a -> 0 <= x < dim0 a -> 0 <= y < dim1 a ->
  ~ (In x (slice_indices (dim0 a) sx) /\ In y (slice_indices (dim1 a) sy)) ->
  nd_get (nd_fill_slices a sx sy v) x y = nd_get a x y.
Proof.
  intros (Hd0 & Hd1 & _) Hx Hy Hout. unfold nd_fill_slices.
  set (Q := fun b : NDArray A =>
              same_shape a b /\ nd_get b x y = nd_get a x y).
  assert (HQ : Q (fold_left
                    (fun acc i =>
                       fold_left (fun acc' j => nd_put acc' i j v)
                         (slice_indices (dim1 a) sy) acc)
                    (slice_indices (dim0 a) sx) a)).
  { apply (fold_left_inv_in Q); [|split; [repeat split|reflexivity]].
    intros b i Hi Hb. apply (fold_left_inv_in Q); [|exact Hb].
    intros b' j Hj ((E0 & E1 & El) & Hget).
    split; [apply same_shape_put; repeat split; assumption|].
    rewrite <- Hget.
    pose proof (slice_indices_range _ _ _ Hd0 Hi) as Hir.
    pose proof (slice_indices_range _ _ _ Hd1 Hj) as Hjr.
    apply nd_get_put_ne; rewrite ?E0, ?E1; try assumption.
    intros [= -> ->]. apply Hout. split; assumption. }
  exact (proj2 HQ).
Qed.

(** A slice assignment stores the value in every cell of the two
    slices. *)
Lemma nd_fill_slices_set {A} (a : NDArray A) sx sy v x y :
  well_shaped a ->
  In x (slice_indices (dim0 a) sx) -> In y (slice_indices (dim1 a) sy) ->
  nd_get (nd_fill_slices a sx sy v) x y = inr v.
Proof.
  intros Hws Hx Hy. pose proof Hws as (Hd0 & Hd1 & Hlen).
  pose proof (slice_indices_range _ _ _ Hd0 Hx) as Hxr.
  pose proof (slice_indices_range _ _ _ Hd1 Hy) as Hyr.
  destruct (same_shape_fill a sx sy v) as (E0 & E1 & El).
  rewrite nd_get_in by (rewrite ?E0, ?E1; assumption).
  replace (flat (nd_fill_slices a sx sy v) x y) with (flat a x y)
    by (unfold flat; rewrite E0; reflexivity).
  set (R := fun b : NDArray A => data b !! flat a x y = Some v).
  assert (HR : R (nd_fill_slices a sx sy v)).
  { unfold nd_fill_slices.
    assert (Hkeep : forall i js b,
               same_shape a b /\ R b ->
               same_shape a
                 (fold_left (fun acc' j => nd_put acc' i j v) js b) /\
               R (fold_left (fun acc' j => nd_put acc' i j v) js b)).
    { intros i js b Hb.
      apply (fold_left_inv_in (fun c => same_shape a c /\ R c));
        [|exact Hb].
      intros c j _ (Hc & Hr).
      split; [apply same_shape_put; exact Hc|].
      apply nd_put_keeps. exact Hr. }
    apply (fold_left_hits (same_shape a) R _ x).
    - intros b i _ Hb. apply (fold_left_inv_in (same_shape a)); [|exact Hb].
      intros c j _ Hc. apply same_shape_put. exact Hc.
    - intros b i _ Hb Hr. apply Hkeep. split; assumption.
    - intros b Hb. apply (fold_left_hits (same_shape a) R _ y).
      + intros c j _ Hc. apply same_shape_put. exact Hc.
      + intros c j _ Hc Hr. apply nd_put_keeps. exact Hr.
      + intros c (C0 & C1 & Cl). unfold R, nd_put. cbn [data].
        replace (flat c x y) with (flat a x y)
          by (unfold flat; rewrite C0; reflexivity).
        apply list_lookup_insert_eq. rewrite Cl.
        apply flat_lt; assumption.
      + exact Hb.
      + right. exact Hy.
    - repeat split.
    - right. exact Hx. }
  unfold R in HR. rewrite HR. reflexivity.
Qed.

Lemma room_inner_slices w h r :
  room_fits w h r ->
  (forall x, In x (slice_indices w (fst (inner r))) <-> x1 r < x < x2 r) /\
  (forall y, In y (slice_indices h (snd (inner r))) <-> y1 r < y < y2 r).
Proof.
  intros ((Hx1 & Hy1 & Hdx & Hdy) & Hx2 & Hy2). unfold MIN_SIZE in *.
  unfold inner. cbn [fst snd]. split; intros k.
  - rewrite slice_indices_in by lia. lia.
  - rewrite slice_indices_in by lia. lia.
Qed.

Lemma dig_room_floor self room x y :
  grids_ok self -> room_fits (width self) (height self) room ->
  x1 room < x < x2 room -> y1 room < y < y2 room ->
  floor_at (dig_room self room) (x, y).
Proof.
  intros (Hw & Hh & Hws & _) Hfits Hx Hy.
  destruct (room_inner_slices _ _ _ Hfits) as (Sx & Sy).
  pose proof Hfits as ((Hx1 & Hy1 & _) & Hx2 & Hy2).
  split.
  - apply in_bounds_iff. cbn [fst snd dig_room with_tiles width height]. lia.
  - cbn [fst snd dig_room with_tiles tiles].
    apply nd_fill_slices_set; [exact Hws| |].
    + rewrite Hw. apply Sx. exact Hx.
    + rewrite Hh. apply Sy. exact Hy.
Qed.

Lemma dig_room_other self room x y :
  grids_ok self -> room_fits (width self) (height self) room ->
  in_bounds self x y = true ->
  ~ (x1 room < x < x2 room /\ y1 room < y < y2 room) ->
  nd_get (tiles (dig_room self room)) x y = nd_get (tiles self) x y.
Proof.
  intros (Hw & Hh & Hws & _) Hfits Hin Hout.
  destruct (room_inner_slices _ _ _ Hfits) as (Sx & Sy).
  apply in_bounds_iff in Hin.
  cbn [dig_room with_tiles tiles].
  apply nd_fill_slices_other; [exact Hws|lia|lia|].
  rewrite Hw, Hh. intros (Hx & Hy). apply Hout.
  split; [apply Sx|apply Sy]; assumption.
Qed.

Lemma carve_other cells x y :
  forall self self',
    grids_ok self ->
    Forall (fun c => 0 <= fst c /\ 0 <= snd c /\ c <> (x, y)) cells ->
    carve self cells = inr self' ->
    in_bounds self x y = true ->
    nd_get (tiles self') x y = nd_get (tiles self) x y.
Proof.
  intros self self' Hok Hcells Hcarve Hin. unfold carve in Hcarve.
  apply in_bounds_iff in Hin.
  set (Q := fun m : GameMap =>
              grids_ok m /\ width m = width self /\
              height m = height self /\
              nd_get (tiles m) x y = nd_get (tiles self) x y).
  assert (HQ : Q self') ; [|exact (proj2 (proj2 (proj2 HQ)))].
  eapply (res_fold_inr Q); [|repeat split; try apply Hok|exact Hcarve].
  intros m c m' Hc (Hm & Wm & Hhm & Hget) Hset.
  rewrite Forall_forall in Hcells.
  destruct (Hcells c Hc) as (Hcx & Hcy & Hne).
  destruct (set_tile_spec m (fst c) (snd c) m' Hm Hcx Hcy Hset)
    as ((W' & H' & _) & Hm' & _ & _).
  split; [exact Hm'|]. split; [congruence|]. split; [congruence|].
  rewrite <- Hget. unfold set_tile in Hset.
  apply res_bind_inr in Hset as (t & Hset & [= <-]).
  unfold nd_set in Hset.
  apply res_bind_inr in Hset as (i' & Hi & Hset).
  apply res_bind_inr in Hset as (j' & Hj & [= <-]).
  apply norm_index_nonneg in Hi as (-> & Hi); [|exact Hcx].
  apply norm_index_nonneg in Hj as (-> & Hj); [|exact Hcy].
  destruct Hm as (Tw & Th & _).
  cbn [with_tiles tiles].
  apply nd_get_put_ne; rewrite ?Tw, ?Th; try lia.
  intros E. apply Hne. destruct c. simpl in E. exact E.
Qed.

(** ** Cells that generation never digs *)

Section Zone.
(** [P] is a set of cells closed under taking bounding boxes that
    holds the center and the inside of every room that fits a
    [w] x [h] grid. *)
Variable P : Z * Z -> Prop.
Variables w h : Z.
Hypothesis P_box : forall a b c, P a -> P b -> boxed a b c -> P c.
Hypothesis P_nonneg : forall c, P c -> 0 <= fst c /\ 0 <= snd c.
Hypothesis P_room :
  forall r, room_fits w h r ->
    P (center r) /\
    forall x y, x1 r < x < x2 r -> y1 r < y < y2 r -> P (x, y).

Lemma attempt_zone self s self' s' x y :
  attempt self s = (inr self', s') ->
  grids_ok self -> width self = w -> height self = h ->
  Forall (fun r => P (center r)) (GameMap_rooms s) ->
  in_bounds self x y = true -> ~ P (x, y) ->
  grids_ok self' /\
  Forall (fun r => P (center r)) (GameMap_rooms s') /\
  nd_get (tiles self') x y = nd_get (tiles self) x y.
Proof.
  intros Hrun Hok Hw Hh Hrooms Hin HnP.
  apply attempt_returns in Hrun
    as [(-> & -> & _)|(room & Hfits & Hex & Happ & Hcase)].
  - rewrite advance_rooms. split; [exact Hok|].
    split; [exact Hrooms|reflexivity].
  - pose proof Hfits as Hfits'. rewrite Hw, Hh in Hfits'.
    destruct (P_room room Hfits') as (Hcenter & Hinside).
    assert (Hdig : nd_get (tiles (dig_room self room)) x y
                   = nd_get (tiles self) x y).
    { apply dig_room_other; try assumption.
      intros (Hx & Hy). apply HnP. apply Hinside; assumption. }
    destruct (dig_room_spec self room Hok) as ((W1 & H1 & _) & Hok1 & _).
    assert (Hrooms' : Forall (fun r => P (center r)) (GameMap_rooms s')).
    { rewrite Happ. apply Forall_app. split; [exact Hrooms|].
      constructor; [exact Hcenter|constructor]. }
    destruct Hcase as [(_ & -> & _)|(prev & k & Hlast & _ & Hcarve & _)];
      [split; [exact Hok1|split; [exact Hrooms'|exact Hdig]]|].
    assert (Hprev : P (center prev)).
    { apply last_Some in Hlast as (l' & Hl').
      rewrite Hl' in Hrooms. apply Forall_app in Hrooms as (_ & Hp).
      inversion Hp; assumption. }
    split; [exact (carve_grids_ok _ _ _ Hok1 Hcarve)|].
    split; [exact Hrooms'|].
    rewrite <- Hdig.
    apply (carve_other
             (tunnel_cells (lt_half k) (center prev) (center room)) x y
             (dig_room self room) self' Hok1); [|exact Hcarve|].
    + destruct (tunnel_cells_joins (lt_half k) (center prev) (center room))
        as (_ & Hbox).
      eapply Forall_impl; [exact Hbox|]. intros c Hc.
      assert (Pc : P c) by exact (P_box _ _ _ Hprev Hcenter Hc).
      destruct (P_nonneg c Pc) as (? & ?).
      split; [assumption|]. split; [assumption|].
      intros ->. apply HnP. exact Pc.
    + apply in_bounds_iff in Hin. apply in_bounds_iff.
      rewrite W1, H1. exact Hin.
Qed.

Lemma GameMap_init_zone s m s' x y :
  GameMap_init w h s = (inr m, s') ->
  Forall (fun r => P (center r)) (GameMap_rooms s) ->
  in_bounds m x y = true -> ~ P (x, y) ->
  wall_at m (x, y).
Proof.
  intros Hinit Hrooms Hin HnP.
  destruct (GameMap_init_same_frame w h s m s' Hinit) as (Wm & Hm & _).
  apply GameMap_init_returns in Hinit as (Hw & Hh & Hrun).
  apply in_bounds_iff in Hin. rewrite Wm, Hm in Hin. simpl in Hin.
  set (I := fun (self : GameMap) (st : State) =>
              grids_ok self /\ width self = w /\ height self = h /\
              Forall (fun r => P (center r)) (GameMap_rooms st) /\
              wall_at self (x, y)).
  assert (HI : I m s'); [|exact (proj2 (proj2 (proj2 (proj2 HI))))].
  eapply (repeat_n_inr I attempt); [| |exact Hrun].
  - intros b st b' st' (Hok & Wb & Hb & Hr & Hwall) Hstep.
    assert (Hinb : in_bounds b x y = true)
      by (apply in_bounds_iff; rewrite Wb, Hb; exact Hin).
    destruct (attempt_zone b st b' st' x y Hstep Hok Wb Hb Hr Hinb HnP)
      as (Hok' & Hr' & Hget).
    destruct (attempt_same_frame b st b' st' Hstep) as (W' & H' & _).
    split; [exact Hok'|]. split; [congruence|]. split; [congruence|].
    split; [exact Hr'|]. unfold wall_at in *. cbn [fst snd] in *.
    rewrite Hget. exact Hwall.
  - split; [apply grids_ok_blank; assumption|].
    split; [reflexivity|]. split; [reflexivity|]. split; [exact Hrooms|].
    unfold wall_at. cbn [fst snd blank_map tiles].
    apply nd_get_full; lia.
Qed.

End Zone.

Lemma room_center_inside r :
  room_drawn r ->
  x1 r + 3 <= fst (center r) <= x2 r - 3 /\
  y1 r + 3 <= snd (center r) <= y2 r - 3.
Proof.
  unfold room_drawn, center, MIN_SIZE. cbn [fst snd]. intros (?&?&?&?).
  repeat split;
    first [apply Z.div_le_lower_bound; lia|apply Z.div_le_upper_bound; lia].
Qed.

Lemma near_border_wall s w h m s' x y :
  reachable s -> GameMap_init w h s = (inr m, s') ->
  in_bounds m x y = true -> x = 0 \/ y = 0 -> wall_at m (x, y).
Proof.
  intros Hreach Hinit Hin Hedge.
  destruct (reachable_rooms_inv s Hreach) as (_ & Hdrawn).
  apply (GameMap_init_zone (fun c => 1 <= fst c /\ 1 <= snd c) w h)
    with (s := s) (s' := s'); try assumption.
  - unfold boxed. intros a b c ? ? ?. lia.
  - intros c ?. lia.
  - intros r (Hd & _). pose proof (room_center_inside r Hd).
    destruct Hd as (?&?&_). cbn [fst snd]. split; [lia|].
    intros; lia.
  - eapply Forall_impl; [exact Hdrawn|]. intros r Hd.
    pose proof (room_center_inside r Hd). destruct Hd as (?&?&_). lia.
  - cbn [fst snd]. lia.
Qed.

(** X12. The outermost row and column next to the origin are never dug: on
    every map constructed in a reachable process state the cells with
    x = 0 or y = 0 still hold WALL, although [is_blocked] reports them
    free until [populate_blocked] runs.  When every room already in the
    shared list fits this grid, as in a fresh process, the opposite
    border is WALL as well. *)
Theorem border_stays_wall s w h m s' x y :
  reachable s -> GameMap_init w h s = (inr m, s') ->
  in_bounds m x y = true ->
  (x = 0 \/ y = 0 ->
   nd_get (tiles m) x y = inr (TileType_value WALL) /\
   is_blocked m x y = inr false) /\
  (Forall (room_fits w h) (GameMap_rooms s) ->
   x = w - 1 \/ y = h - 1 ->
   nd_get (tiles m) x y = inr (TileType_value WALL)).
Proof.
  intros Hreach Hinit Hin.
  destruct (reachable_rooms_inv s Hreach) as (_ & Hdrawn).
  split.
  - intros Hedge. split.
    + exact (near_border_wall s w h m s' x y Hreach Hinit Hin Hedge).
    + destruct (GameMap_init_same_frame w h s m s' Hinit)
        as (Wm & Hm & _ & _ & Hbl & _).
      apply in_bounds_iff in Hin. rewrite Wm, Hm in Hin. simpl in Hin.
      unfold is_blocked. rewrite Hbl. apply nd_get_full; lia.
  - intros Hfit Hedge.
    apply (GameMap_init_zone
             (fun c => 1 <= fst c <= w - 2 /\ 1 <= snd c <= h - 2) w h)
      with (s := s) (s' := s'); try assumption.
    + unfold boxed. intros a b c ? ? ?. lia.
    + intros c ?. lia.
    + intros r (Hd & ? & ?). pose proof (room_center_inside r Hd).
      destruct Hd as (?&?&_). cbn [fst snd]. split; [lia|].
      intros; lia.
    + eapply Forall_impl; [exact Hfit|]. intros r (Hd & ? & ?).
      pose proof (room_center_inside r Hd). destruct Hd as (?&?&_). lia.
    + cbn [fst snd]. lia.
Qed.

Lemma border_stays_wall_demo :
  reachable demo_state /\
  GameMap_init 40 30 demo_state = (inr demo_map1, demo_state1) /\
  in_bounds demo_map1 0 17 = true /\
  nd_get (tiles demo_map1) 0 17 = inr (TileType_value WALL) /\
  is_blocked demo_map1 0 17 = inr false.
Proof.
  assert (Hreach : reachable demo_state) by apply reach_start.
  assert (Hinit : GameMap_init 40 30 demo_state = (inr demo_map1, demo_state1))
    by (vm_compute; reflexivity).
  assert (Hin : in_bounds demo_map1 0 17 = true) by (vm_compute; reflexivity).
  split; [exact Hreach|]. split; [exact Hinit|]. split; [exact Hin|].
  apply (proj1 (border_stays_wall demo_state 40 30 demo_map1 demo_state1 0 17
                  Hreach Hinit Hin)).
  left. reflexivity.
Defined.

(** ** Accepted rooms are dug *)

Lemma attempt_dug self s self' s' :
  attempt self s = (inr self', s') ->
  grids_ok self -> Forall room_drawn (GameMap_rooms s) ->
  (forall r, room_dug self r -> room_dug self' r) /\
  (GameMap_rooms s' = GameMap_rooms s \/
   exists room,
     GameMap_rooms s' = GameMap_rooms s ++ [room] /\ room_dug self' room).
Proof.
  intros Hrun Hok Hrooms.
  destruct (attempt_summary self s self' s' Hrun Hok Hrooms)
    as ((W' & H' & _) & Hok' & Hkept & _).
  split.
  { intros r (Hfits & Hfloor). split; [rewrite W', H'; exact Hfits|].
    intros x y Hx Hy. apply Hkept. apply Hfloor; assumption. }
  apply attempt_returns in Hrun
    as [(-> & -> & _)|(room & Hfits & Hex & Happ & Hcase)].
  - left. apply advance_rooms.
  - right. exists room. split; [exact Happ|].
    split; [rewrite W', H'; exact Hfits|].
    intros x y Hx Hy.
    pose proof (dig_room_floor self room x y Hok Hfits Hx Hy) as Hdug.
    destruct Hcase as [(_ & -> & _)|(prev & k & Hlast & _ & Hcarve & _)];
      [exact Hdug|].
    assert (Hprev : room_drawn prev).
    { apply last_Some in Hlast as (l' & Hl').
      rewrite Hl' in Hrooms. apply Forall_app in Hrooms as (_ & Hp).
      inversion Hp; assumption. }
    pose proof (center_nonneg _ Hprev) as (Hpx & Hpy).
    pose proof (center_nonneg _ (room_fits_drawn _ _ _ Hfits)) as (Hrx & Hry).
    destruct (tunnel_cells_joins (lt_half k) (center prev) (center room))
      as (_ & Hbox).
    assert (Hpos : Forall (fun c => 0 <= fst c /\ 0 <= snd c)
                     (tunnel_cells (lt_half k) (center prev) (center room))).
    { eapply Forall_impl; [exact Hbox|]. unfold boxed. intros c ?. lia. }
    destruct (dig_room_spec self room Hok) as (_ & Hok1 & _).
    destruct (carve_spec _ _ _ Hok1 Hpos Hcarve) as (_ & _ & _ & Hk2).
    apply Hk2. exact Hdug.
Qed.

Lemma GameMap_init_dug s w h m s' :
  reachable s -> GameMap_init w h s = (inr m, s') ->
  exists added,
    GameMap_rooms s' = GameMap_rooms s ++ added /\
    Forall (room_dug m) added.
Proof.
  intros Hreach Hinit.
  destruct (reachable_rooms_inv s Hreach) as (_ & Hdrawn).
  apply GameMap_init_returns in Hinit as (Hw & Hh & Hrun).
  set (I := fun (self : GameMap) (st : State) =>
              grids_ok self /\ Forall room_drawn (GameMap_rooms st) /\
              exists added,
                GameMap_rooms st = GameMap_rooms s ++ added /\
                Forall (room_dug self) added).
  assert (HI : I m s').
  { eapply (repeat_n_inr I attempt); [| |exact Hrun].
    - intros b st b' st' (Hok & Hd & added & Happ & Hall) Hstep.
      destruct (attempt_summary b st b' st' Hstep Hok Hd)
        as (_ & Hok' & _ & Hrooms).
      destruct (attempt_dug b st b' st' Hstep Hok Hd) as (Hkeep & Hnew).
      split; [exact Hok'|]. split.
      { destruct Hrooms as [->|(room & -> & Hfits & _)]; [exact Hd|].
        apply Forall_app. split; [exact Hd|].
        constructor; [|constructor].
        exact (room_fits_drawn _ _ _ Hfits). }
      destruct Hnew as [E|(room & E & Hdug)].
      + exists added. split; [congruence|].
        eapply Forall_impl; [exact Hall|exact Hkeep].
      + exists (added ++ [room]). split.
        * rewrite E, Happ, app_assoc. reflexivity.
        * apply Forall_app. split.
          -- eapply Forall_impl; [exact Hall|exact Hkeep].
          -- constructor; [exact Hdug|constructor].
    - split; [apply grids_ok_blank; assumption|]. split; [exact Hdrawn|].
      exists []. split; [rewrite app_nil_r; reflexivity|constructor]. }
  destruct HI as (_ & _ & added & Happ & Hall).
  exists added. split; [exact Happ|exact Hall].
Qed.

(** X13. Every room that a construction appends to the shared list lies on
    the grid of the new map, at least one cell away from its far edges,
    and is dug out on it: in the finished map every cell strictly inside
    the room is FLOOR, its center among them, whatever rooms and tunnels
    were carved afterwards. *)
Theorem accepted_rooms_are_dug s w h m s' :
  reachable s -> GameMap_init w h s = (inr m, s') ->
  exists added,
    GameMap_rooms s' = GameMap_rooms s ++ added /\
    Forall (fun r =>
              (0 <= x1 r /\ 0 <= y1 r /\ x2 r <= w - 1 /\ y2 r <= h - 1) /\
              (forall x y, x1 r < x < x2 r -> y1 r < y < y2 r ->
                 in_bounds m x y = true /\
                 nd_get (tiles m) x y = inr (TileType_value FLOOR)) /\
              floor_at m (center r))
           added.
Proof.
  intros Hreach Hinit.
  destruct (GameMap_init_same_frame w h s m s' Hinit) as (Wm & Hm & _).
  simpl in Wm, Hm.
  destruct (GameMap_init_dug s w h m s' Hreach Hinit)
    as (added & Happ & Hall).
  exists added. split; [exact Happ|].
  eapply Forall_impl; [exact Hall|].
  intros r (Hfits & Hfloor). rewrite Wm, Hm in Hfits.
  pose proof Hfits as (Hd & Hx2 & Hy2).
  pose proof (room_center_inside r Hd) as (Hcx & Hcy).
  destruct Hd as (Hx1 & Hy1 & _).
  split; [lia|]. split.
  - intros x y Hx Hy. exact (Hfloor x y Hx Hy).
  - replace (center r) with (fst (center r), snd (center r))
      by (destruct (center r); reflexivity).
    apply Hfloor; lia.
Qed.

Lemma accepted_rooms_are_dug_demo :
  reachable demo_state /\
  GameMap_init 40 30 demo_state = (inr demo_map1, demo_state1) /\
  exists added,
    GameMap_rooms demo_state1 = GameMap_rooms demo_state ++ added /\
    Forall (fun r => floor_at demo_map1 (center r)) added.
Proof.
  assert (Hreach : reachable demo_state) by apply reach_start.
  assert (Hinit : GameMap_init 40 30 demo_state = (inr demo_map1, demo_state1))
    by (vm_compute; reflexivity).
  split; [exact Hreach|]. split; [exact Hinit|].
  destruct (accepted_rooms_are_dug demo_state 40 30 demo_map1 demo_state1
              Hreach Hinit) as (added & Happ & Hall).
  exists added. split; [exact Happ|].
  eapply Forall_impl; [exact Hall|]. intros r (_ & _ & Hc). exact Hc.
Defined.

(** ** populate_blocked after generation *)

Lemma populate_blocked_cells self :
  grids_ok self ->
  exists self',
    populate_blocked self = inr self' /\
    same_but_blocked self self' /\ grids_ok self' /\
    forall x y,
      in_bounds self x y = true ->
      exists t,
        nd_get (tiles self) x y = inr t /\
        is_blocked self' x y = inr (t =? TileType_value WALL).
Proof.
  intros Hok. pose proof Hok as (Hw & Hh & Hs & Hbw & Hbh & Hbs).
  destruct (populate_fold (tiles self) (ndenumerate (tiles self))) with
    (m := self) as (self' & Hrun & Hframe & Hd0 & Hd1 & Hs' & Hin & _).
  - intros i j v H. apply ndenumerate_in in H as (Hi & Hj & E).
    split; [exact Hi|]. split; [exact Hj|].
    rewrite nd_get_in by assumption. rewrite E. reflexivity.
  - congruence.
  - congruence.
  - exact Hbs.
  - exists self'. split; [exact Hrun|]. split; [exact Hframe|].
    pose proof Hframe as (W' & H' & T' & _).
    split.
    { unfold grids_ok. rewrite T', W', H'.
      repeat split; try assumption; try apply Hs; try apply Hs'; congruence. }
    intros x y Hxy. apply in_bounds_iff in Hxy.
    destruct (lookup_lt_is_Some_2 (data (tiles self))
                (flat (tiles self) x y)) as (t & E);
      [apply flat_lt; [exact Hs|lia|lia]|].
    assert (Ht : nd_get (tiles self) x y = inr t)
      by (rewrite nd_get_in, E by lia; reflexivity).
    assert (Hent : In ((x, y), t) (ndenumerate (tiles self))).
    { apply ndenumerate_in. split; [lia|]. split; [lia|exact E]. }
    destruct (Hin x y t Hent) as (t' & Ht' & Hb). simpl in Ht', Hb.
    rewrite Ht in Ht'. injection Ht' as <-.
    exists t. split; [exact Ht|exact Hb].
Qed.

Lemma nd_ext {A} (a b : NDArray A) :
  well_shaped a -> well_shaped b ->
  dim0 b = dim0 a -> dim1 b = dim1 a ->
  (forall x y, 0 <= x < dim0 a -> 0 <= y < dim1 a ->
     nd_get b x y = nd_get a x y) ->
  b = a.
Proof.
  intros (A0 & A1 & Al) (B0 & B1 & Bl) E0 E1 Hget.
  destruct a as [wa ha da], b as [wb hb db]. simpl in *. subst wb hb.
  f_equal. apply list_eq. intros k.
  destruct (decide (k < Z.to_nat (wa * ha))%nat) as [Hk|Hk].
  - assert (Hpos : 0 < wa) by nia.
    set (x := Z.of_nat k mod wa). set (y := Z.of_nat k / wa).
    assert (Hx : 0 <= x < wa) by (apply Z.mod_pos_bound; exact Hpos).
    assert (Hy : 0 <= y < ha).
    { split; [apply Z.div_pos; lia|].
      apply Z.div_lt_upper_bound; [exact Hpos|]. lia. }
    assert (Hflat : Z.to_nat (x + y * wa) = k).
    { unfold x, y. pose proof (Z.div_mod (Z.of_nat k) wa). lia. }
    specialize (Hget x y Hx Hy).
    rewrite !nd_get_in in Hget by (simpl; assumption).
    unfold flat in Hget. simpl in Hget. rewrite Hflat in Hget.
    destruct (lookup_lt_is_Some_2 da k) as (va & Ea); [lia|].
    destruct (lookup_lt_is_Some_2 db k) as (vb & Eb); [lia|].
    rewrite Ea, Eb in Hget. rewrite Ea, Eb. congruence.
  - rewrite !lookup_ge_None_2 by lia. reflexivity.
Qed.

(** X14. [populate_blocked] reads the tile grid only and rewrites the whole
    blocked layer, so it is idempotent: once it has run, running it
    again returns the very same map. *)
Theorem populate_blocked_idempotent self self' :
  grids_ok self -> populate_blocked self = inr self' ->
  populate_blocked self' = inr self'.
Proof.
  intros Hok Hrun.
  destruct (populate_blocked_cells self Hok)
    as (m1 & Hrun1 & Hf1 & Hok1 & Hcell1).
  rewrite Hrun in Hrun1. injection Hrun1 as <-.
  destruct (populate_blocked_cells self' Hok1)
    as (m2 & Hrun2 & Hf2 & Hok2 & Hcell2).
  rewrite Hrun2. f_equal.
  destruct Hf1 as (W1 & H1 & T1 & _).
  destruct Hf2 as (W2 & H2 & T2 & M2 & C2 & V2 & E2).
  assert (Hb : blocked m2 = blocked self').
  { destruct Hok1 as (_ & _ & _ & Bw1 & Bh1 & Bs1).
    destruct Hok2 as (_ & _ & _ & Bw2 & Bh2 & Bs2).
    apply nd_ext; try assumption; try congruence.
    intros x y Hx Hy.
    assert (Hin : in_bounds self x y = true)
      by (apply in_bounds_iff; rewrite <- W1, <- H1, <- Bw1, <- Bh1; lia).
    assert (Hin' : in_bounds self' x y = true)
      by (apply in_bounds_iff; rewrite <- Bw1, <- Bh1; lia).
    destruct (Hcell1 x y Hin) as (t & Ht & Hb1).
    destruct (Hcell2 x y Hin') as (t' & Ht' & Hb2).
    rewrite T1, Ht in Ht'. injection Ht' as <-.
    unfold is_blocked in Hb1, Hb2. congruence. }
  destruct m2, self'. simpl in *. congruence.
Qed.

Lemma populate_blocked_idempotent_demo :
  grids_ok demo_map1 /\
  exists self',
    populate_blocked demo_map1 = inr self' /\
    populate_blocked self' = inr self'.
Proof.
  assert (Hg : grids_ok demo_map1).
  { apply (GameMap_init_grids_ok 40 30 demo_state demo_map1 demo_state1).
    vm_compute. reflexivity. }
  split; [exact Hg|].
  destruct (populate_blocked_cells demo_map1 Hg) as (m' & Hrun & _).
  exists m'. split; [exact Hrun|].
  exact (populate_blocked_idempotent demo_map1 m' Hg Hrun).
Defined.

(** X15. Generation followed by [populate_blocked]: the call returns; every
    cell strictly inside a room accepted by this construction is then
    reported free, and every cell of the row y = 0 and the column x = 0
    is reported blocked. *)
Theorem generated_rooms_are_walkable s w h m s' :
  reachable s -> GameMap_init w h s = (inr m, s') ->
  exists m' added,
    populate_blocked m = inr m' /\
    tiles m' = tiles m /\
    GameMap_rooms s' = GameMap_rooms s ++ added /\
    (forall r x y,
        r ∈ added -> x1 r < x < x2 r -> y1 r < y < y2 r ->
        in_bounds m' x y = true /\ is_blocked m' x y = inr false) /\
    (forall x y,
        in_bounds m' x y = true -> x = 0 \/ y = 0 ->
        is_blocked m' x y = inr true).
Proof.
  intros Hreach Hinit.
  pose proof (GameMap_init_grids_ok w h s m s' Hinit) as Hok.
  destruct (populate_blocked_cells m Hok)
    as (m' & Hrun & (W' & H' & T' & _) & _ & Hcell).
  destruct (GameMap_init_dug s w h m s' Hreach Hinit)
    as (added & Happ & Hall).
  assert (Hb : forall x y, in_bounds m' x y = in_bounds m x y)
    by (intros x y; unfold in_bounds; rewrite W', H'; reflexivity).
  exists m', added. split; [exact Hrun|]. split; [exact T'|].
  split; [exact Happ|]. split.
  - intros r x y Hr Hx Hy. rewrite Forall_forall in Hall.
    destruct (Hall r Hr) as (_ & Hfloor).
    destruct (Hfloor x y Hx Hy) as (Hin & Hget). cbn [fst snd] in Hin, Hget.
    split; [rewrite Hb; exact Hin|].
    destruct (Hcell x y Hin) as (t & Ht & Hbl).
    rewrite Hget in Ht. injection Ht as <-. exact Hbl.
  - intros x y Hin Hedge. rewrite Hb in Hin.
    pose proof (near_border_wall s w h m s' x y Hreach Hinit Hin Hedge)
      as Hwall.
    unfold wall_at in Hwall. cbn [fst snd] in Hwall.
    destruct (Hcell x y Hin) as (t & Ht & Hbl).
    rewrite Hwall in Ht. injection Ht as <-. exact Hbl.
Qed.

Lemma generated_rooms_are_walkable_demo :
  reachable demo_state /\
  GameMap_init 40 30 demo_state = (inr demo_map1, demo_state1) /\
  exists m' added,
    populate_blocked demo_map1 = inr m' /\
    GameMap_rooms demo_state1 = GameMap_rooms demo_state ++ added /\
    (forall x y,
        in_bounds m' x y = true -> x = 0 \/ y = 0 ->
        is_blocked m' x y = inr true).
Proof.
  assert (Hreach : reachable demo_state) by apply reach_start.
  assert (Hinit : GameMap_init 40 30 demo_state = (inr demo_map1, demo_state1))
    by (vm_compute; reflexivity).
  split; [exact Hreach|]. split; [exact Hinit|].
  destruct (generated_rooms_are_walkable demo_state 40 30 demo_map1
              demo_state1 Hreach Hinit)
    as (m' & added & Hrun & _ & Happ & _ & Hedge).
  exists m', added. split; [exact Hrun|]. split; [exact Happ|exact Hedge].
Defined.
